(** * MasterComponent: the coordination core of the BigARTM engine

    A shallow embedding of [src/artm/core/master_component.cc] and the
    properties its specification states about it, followed by further
    properties of its methods read off the code.

    Conventions of the embedding.
    - A C++ [int] is a [Z]; where the source can leave the 32-bit range the
      wrap-around is written out with [wrap32].
    - A matrix weight is a C++ [float] in the source.  The embedding uses
      exact rationals ([Qc]); the only arithmetic the modelled code performs
      on weights is [0 + w * v].
    - A method of [MasterComponent] is a computation in the monad [M]: it
      threads the state of the owned [Instance] and a journal of the calls
      made to collaborators, and ends by returning, by throwing one of the
      exceptions of [exceptions.h], or in undefined behaviour (null
      dereference, division by zero, read of an uninitialised variable).
    - Collaborators whose code is not part of [master_component.cc]
      ([DensePhiMatrix], [PhiMatrixOperations], [BatchManager]) are modelled
      from the specification; every such definition says so. *)

From Stdlib Require Import ZArith QArith Qcanon Lia Ascii String.
From Stdlib Require Import Strings.Byte.
From Stdlib Require DecimalPos DecimalN.
From stdpp Require Import gmap strings list.

Local Open Scope Z_scope.

(** ** Outcomes and exceptions *)

(** The exception classes of [artm/core/exceptions.h] that the file throws,
    each carrying its message. *)
Inductive exception : Type :=
  | InvalidOperation (what : string)
  | DiskReadException (what : string)
  | DiskWriteException (what : string)
  | CorruptedMessageException (what : string)
  | InternalError (what : string).

(** How a call ends. *)
Inductive outcome (A : Type) : Type :=
  | Returns (a : A)
  | Throws (e : exception)
  | Undefined (why : string).
Arguments Returns {A} a.
Arguments Throws {A} e.
Arguments Undefined {A} why.

Definition is_invalid_operation {A} (o : outcome A) : bool :=
  match o with Throws (InvalidOperation _) => true | _ => false end.

Definition is_corrupted_message {A} (o : outcome A) : bool :=
  match o with Throws (CorruptedMessageException _) => true | _ => false end.

Definition is_disk_read {A} (o : outcome A) : bool :=
  match o with Throws (DiskReadException _) => true | _ => false end.

Definition returns {A} (o : outcome A) : bool :=
  match o with Returns _ => true | _ => false end.

(** ** Integers *)

Definition INT_MAX : Z := 2147483647.
Definition INT_MIN : Z := -2147483648.

(** Conversion of a wide integer to a 32-bit [int] (two's complement). *)
Definition wrap32 (z : Z) : Z := (z + 2147483648) mod 4294967296 - 2147483648.

Definition in_int (z : Z) : Prop := INT_MIN <= z <= INT_MAX.

(** ** Matrices *)

Definition weight : Type := Qc.

Definition weight_is_zero (v : weight) : bool := (Qnum (this v) =? 0)%Z.

(** [artm::core::Token]: a keyword within a class (modality). *)
Record Token : Type := mkToken { class_id : string; keyword : string }.

Global Instance Token_eq_dec : EqDecision Token.
Proof. solve_decision. Defined.

(** Modelled from the spec: [PhiMatrix] (phi_matrix.h is not part of the
    sources).  "A named, rectangular array over (token, topic)" with "a
    topic-name list whose length equals its topic dimension" and a token
    list; a row holds the weights of one token, one per topic. *)
Record PhiMatrix : Type := mkPhiMatrix {
  model_name : string;
  topic_name : list string;
  rows : list (Token * list weight)
}.

(** Modelled from the spec: the accessors [token_size], [topic_size] and
    [token(i)] of [PhiMatrix]: "token list length equals token dimension". *)
Definition token_size (m : PhiMatrix) : Z := Z.of_nat (length (rows m)).
Definition topic_size (m : PhiMatrix) : Z := Z.of_nat (length (topic_name m)).
Definition tokens (m : PhiMatrix) : list Token := fst <$> rows m.

(** Modelled from the spec: [token_index], the position of a token in the
    matrix, [None] where the source answers -1. *)
Fixpoint find_token (t : Token) (rs : list (Token * list weight)) : option nat :=
  match rs with
  | [] => None
  | (t', _) :: rs' =>
      if decide (t = t') then Some O else S <$> find_token t rs'
  end.

Definition token_index (m : PhiMatrix) (t : Token) : option nat :=
  find_token t (rows m).

(** Modelled from the spec: the constructor of [DensePhiMatrix]
    (dense_phi_matrix.h is not part of the sources): a matrix with the given
    name and topic names and no token yet. *)
Definition DensePhiMatrix (name : string) (topics : list string) : PhiMatrix :=
  {| model_name := name; topic_name := topics; rows := [] |}.

(** Modelled from the spec: the row of a token just added, one zero per
    topic. *)
Definition zero_row (m : PhiMatrix) : list weight :=
  replicate (length (topic_name m)) 0%Qc.

(** Modelled from the spec: [AddToken].  A token new to the matrix gets a
    zero-initialised row at the end; a known token is left alone. *)
Definition AddToken (t : Token) (m : PhiMatrix) : PhiMatrix :=
  match token_index m t with
  | Some _ => m
  | None =>
      {| model_name := model_name m; topic_name := topic_name m;
         rows := rows m ++ [(t, zero_row m)] |}
  end.

(** Modelled from the spec: [Reshape].  "A new, zero-initialized matrix
    reshaped to the source's topic layout": the matrix is cleared and
    receives the tokens of the source, in order, with zero rows. *)
Definition Reshape (src : PhiMatrix) (m : PhiMatrix) : PhiMatrix :=
  foldl (fun acc t => AddToken t acc)
        {| model_name := model_name m; topic_name := topic_name m; rows := [] |}
        (tokens src).

(** Modelled from the spec: [increase(token_id, topic_id, v)] adds [v] to
    one cell; a position outside the matrix is left alone. *)
Definition increase (token_id topic_id : nat) (v : weight) (m : PhiMatrix) : PhiMatrix :=
  {| model_name := model_name m; topic_name := topic_name m;
     rows := alter (fun r => (r.1, alter (fun x => (x + v)%Qc) topic_id r.2))
                   token_id (rows m) |}.

(** Modelled from the spec: a versioned model ([TopicModel] of
    topic_model.h, not part of the sources) exposes its counts and its
    probabilities as matrices. *)
Record TopicModel : Type := mkTopicModel {
  GetPwt : PhiMatrix;
  GetNwt : PhiMatrix
}.

(** ** Chunk messages *)

(** Modelled from the spec: the protobuf message [::artm::TopicModel]
    (messages.proto is not part of the sources), "a self-contained message"
    holding "tokens, topic names, dense weight rows, requested in sparse
    on-wire form".  Each token comes with its weights as (topic position,
    weight) pairs: every position in dense form, only the non-zero weights
    in sparse form. *)
Record TopicModelMsg : Type := mkTopicModelMsg {
  tm_name : string;
  tm_topic_name : list string;
  tm_rows : list (Token * list (nat * weight))
}.

(** The setter [set_name] of the message. *)
Definition set_name (name : string) (tm : TopicModelMsg) : TopicModelMsg :=
  {| tm_name := name; tm_topic_name := tm_topic_name tm; tm_rows := tm_rows tm |}.

Inductive RequestType : Type := RequestType_Pwt | RequestType_Nwt.

(** [::artm::GetTopicModelArgs], the fields the file sets. *)
Record GetTopicModelArgs : Type := mkGetTopicModelArgs {
  gtm_model_name : string;
  gtm_request_type : RequestType;
  gtm_use_sparse_format : bool;
  gtm_token : list string;
  gtm_class_id : list string
}.

(** A default-constructed [GetTopicModelArgs]: dense form, every token. *)
Definition default_GetTopicModelArgs : GetTopicModelArgs :=
  {| gtm_model_name := ""; gtm_request_type := RequestType_Pwt;
     gtm_use_sparse_format := false; gtm_token := []; gtm_class_id := [] |}.

(** Modelled from the spec: the two forms of a row in a message, "dense
    weight rows" and the "sparse on-wire form" that leaves the zeros out. *)
Definition dense_pairs (r : list weight) : list (nat * weight) :=
  imap (fun i v => (i, v)) r.

Definition sparse_pairs (r : list weight) : list (nat * weight) :=
  filter (fun p => weight_is_zero p.2 = false) (dense_pairs r).

(** The tokens a request names: [token(i)] in the class [class_id(i)]. *)
Definition requested_tokens (a : GetTopicModelArgs) : list Token :=
  zip_with (fun k c => mkToken c k) (gtm_token a) (gtm_class_id a).

(** Modelled from the spec: [PhiMatrixOperations::RetrieveExternalTopicModel]
    (phi_matrix_operations.cc is not part of the sources).  The message
    holds the topic names of the matrix and, for every requested token that
    the matrix has (every token when none is requested), its row in the
    requested form. *)
Definition RetrieveExternalTopicModel (m : PhiMatrix) (a : GetTopicModelArgs)
  : TopicModelMsg :=
  let encode := if gtm_use_sparse_format a then sparse_pairs else dense_pairs in
  let wanted :=
    match gtm_token a with
    | [] => rows m
    | _ => omap (fun t => (fun i => (t, default [] (snd <$> rows m !! i)))
                           <$> token_index m t)
                (requested_tokens a)
    end in
  {| tm_name := model_name m;
     tm_topic_name := topic_name m;
     tm_rows := (fun r => (r.1, encode r.2)) <$> wanted |}.

(** Modelled from the spec: one row of a message is accumulated into the
    matrix, scaled by [w]; a token new to the matrix is added first. *)
Definition apply_row (w : weight) (m : PhiMatrix) (r : Token * list (nat * weight))
  : PhiMatrix :=
  let m1 := AddToken r.1 m in
  match token_index m1 r.1 with
  | Some id => foldl (fun acc p => increase id p.1 (w * p.2)%Qc acc) m1 r.2
  | None => m1
  end.

(** Modelled from the spec: [PhiMatrixOperations::ApplyTopicModelOperation].
    "Accumulate every chunk additively into the same target, tolerating
    chunks that introduce new tokens": each weight of the message, scaled by
    [w], is added to the cell of its token and topic position. *)
Definition ApplyTopicModelOperation (tm : TopicModelMsg) (w : weight) (m : PhiMatrix)
  : PhiMatrix :=
  foldl (apply_row w) m (tm_rows tm).

(** ** Configuration and work items *)

(** [ModelConfig], the fields the file reads or writes. *)
Record ModelConfig : Type := mkModelConfig {
  mc_name : string;
  mc_topics_count : Z;
  mc_topic_name : list string;
  mc_inner_iterations_count : Z;
  mc_stream_name : string;
  mc_regularizer_name : list string;
  mc_regularizer_tau : list weight;
  mc_class_id : list string;
  mc_class_weight : list weight;
  mc_reuse_theta : bool;
  mc_opt_for_avx : bool;
  mc_use_sparse_bow : bool
}.

(** The pointers a work item carries.  [set_notifiable] always receives the
    completion tracker of the call and [set_scores_merger] the aggregator of
    the instance; the theta destination varies. *)
Inductive Notifiable : Type := this_batch_manager.
Inductive ScoresMergerPtr : Type := instance_scores_merger.
Inductive CacheManagerPtr : Type :=
  | null_cache_manager
  | instance_cache_manager
  | local_cache_manager.
Inductive Caller : Type := Caller_ProcessBatches.

Definition uuid : Type := N.

(** [ProcessorInput]: one work item. *)
Record ProcessorInput : Type := mkProcessorInput {
  pi_notifiable : Notifiable;
  pi_scores_merger : ScoresMergerPtr;
  pi_cache_manager : CacheManagerPtr;
  pi_model_name : string;
  pi_batch_filename : string;
  pi_model_config : ModelConfig;
  pi_task_id : uuid;
  pi_caller : Caller;
  pi_nwt_target_name : option string
}.

(** [WaitIdleArgs]. *)
Record WaitIdleArgs : Type := mkWaitIdleArgs { timeout_milliseconds : Z }.

(** ** The state a method runs in *)

(** The calls a method makes to its collaborators, and the warnings it logs. *)
Inductive call : Type :=
  | Merger_GetLatestTopicModel (name : string)
  | Merger_GetPhiMatrix (name : string)
  | Merger_SetPhiMatrix (name : string) (m : PhiMatrix)
  | Merger_WaitIdle (a : WaitIdleArgs)
  | DataLoader_WaitIdle (a : WaitIdleArgs)
  | Instance_CreateOrReconfigureModel (c : ModelConfig)
  | ScoresMerger_ResetScores (name : string)
  | BatchManager_Add (task_id : uuid)
  | ProcessorQueue_push (pi : ProcessorInput)
  | LOG_WARNING (msg : string).

(** What [instance_->merger()] holds: the versioned models and the named
    raw matrices, two collections keyed by model name. *)
Record World : Type := mkWorld {
  topic_model_ : gmap string TopicModel;
  phi_matrix_ : gmap string PhiMatrix;
  disk : gmap string (list byte);
  journal : list call
}.

(** A method runs from a world and ends in an outcome and a world. *)
Definition M (A : Type) : Type := World -> outcome A * World.

Global Instance M_ret : MRet M := fun A a w => (Returns a, w).

Global Instance M_bind : MBind M := fun A B k c w =>
  match c w with
  | (Returns a, w') => k a w'
  | (Throws e, w') => (Throws e, w')
  | (Undefined why, w') => (Undefined why, w')
  end.

Definition BOOST_THROW_EXCEPTION {A} (e : exception) : M A :=
  fun w => (Throws e, w).

Definition undefined_behaviour {A} (why : string) : M A :=
  fun w => (Undefined why, w).

(** A call to a collaborator is entered at the end of the journal. *)
Definition record (c : call) (w : World) : World :=
  {| topic_model_ := topic_model_ w; phi_matrix_ := phi_matrix_ w;
     disk := disk w; journal := journal w ++ [c] |}.

(** [instance_->merger()->GetLatestTopicModel(name)], [GetPhiMatrix(name)]
    and [SetPhiMatrix(name, matrix)]; a null pointer is [None]. *)
Definition GetLatestTopicModel (name : string) : M (option TopicModel) :=
  fun w => (Returns (topic_model_ w !! name), record (Merger_GetLatestTopicModel name) w).

Definition GetPhiMatrix (name : string) : M (option PhiMatrix) :=
  fun w => (Returns (phi_matrix_ w !! name), record (Merger_GetPhiMatrix name) w).

Definition SetPhiMatrix (name : string) (m : PhiMatrix) : M unit :=
  fun w => (Returns tt,
            record (Merger_SetPhiMatrix name m)
              {| topic_model_ := topic_model_ w;
                 phi_matrix_ := <[name := m]> (phi_matrix_ w);
                 disk := disk w; journal := journal w |}).

(** [LOG(WARNING)] and a call that only needs journalling. *)
Definition log_warning (msg : string) : M unit :=
  fun w => (Returns tt, record (LOG_WARNING msg) w).

Definition invoke (c : call) : M unit :=
  fun w => (Returns tt, record c w).

(** A name denotes a model when a versioned model or a raw matrix is
    stored under it. *)
Definition model_exists (w : World) (name : string) : bool :=
  bool_decide (is_Some (topic_model_ w !! name))
  || bool_decide (is_Some (phi_matrix_ w !! name)).

(** ** CreateOrReconfigureModel (lines 52-62) *)

Definition CreateOrReconfigureModel (config : ModelConfig) : M unit :=
  if (negb (length (mc_class_weight config) =? 0)%nat
      || negb (length (mc_class_id config) =? 0)%nat)
     && negb (mc_use_sparse_bow config)
  then
    BOOST_THROW_EXCEPTION (InvalidOperation
      ("You have configured use_sparse_bow=false. "
       +:+ "Fields ModelConfig.class_id and ModelConfig.class_weight not supported in this mode."))
  else
    invoke (Instance_CreateOrReconfigureModel config).

(** ** MergeModel (lines 336-378) *)

Record MergeModelArgs : Type := mkMergeModelArgs {
  mm_nwt_source_name : list string;
  mm_source_weight : list weight;
  mm_nwt_target_name : string;
  mm_topic_name : list string
}.

(** One pass of the loop of lines 346-371, from index [i] on; [srcs] pairs
    [nwt_source_name(i)] with [source_weight(i)]. *)
Fixpoint merge_loop (args : MergeModelArgs) (i : nat) (srcs : list (string * weight))
    (nwt_target : option PhiMatrix) (ss : string)
  : M (option PhiMatrix * string) :=
  match srcs with
  | [] => mret (nwt_target, ss)
  | (model_name, weight) :: srcs' =>
      let ss := ss +:+ (if (i =? 0)%nat then "" else ", ") +:+ model_name in
      topic_model ← GetLatestTopicModel model_name;
      phi_matrix ← GetPhiMatrix model_name;
      let merge_from (n_wt : PhiMatrix) :=
        let nwt_target :=
          match nwt_target with
          | Some t => t
          | None =>
              DensePhiMatrix (mm_nwt_target_name args)
                (if negb (length (mm_topic_name args) =? 0)%nat
                 then mm_topic_name args else topic_name n_wt)
          end in
        let nwt_target :=
          if 0 <? token_size n_wt
          then ApplyTopicModelOperation
                 (RetrieveExternalTopicModel n_wt default_GetTopicModelArgs)
                 weight nwt_target
          else nwt_target in
        merge_loop args (S i) srcs' (Some nwt_target) ss in
      match topic_model, phi_matrix with
      | None, None =>
          log_warning ("Model " +:+ model_name +:+ " does not exist");;
          merge_loop args (S i) srcs' nwt_target ss
      | Some tm, _ => merge_from (GetNwt tm)
      | None, Some pm => merge_from pm
      end
  end.

Definition MergeModel (args : MergeModelArgs) : M unit :=
  if (length (mm_nwt_source_name args) =? 0)%nat then
    BOOST_THROW_EXCEPTION (InvalidOperation
      "MergeModelArgs.nwt_source_name must not be empty")
  else if negb (length (mm_nwt_source_name args) =? length (mm_source_weight args))%nat then
    BOOST_THROW_EXCEPTION (InvalidOperation
      "MergeModelArgs.nwt_source_name_size() != MergeModelArgs.source_weight_size()")
  else
    '(nwt_target, ss) ← merge_loop args 0
        (zip (mm_nwt_source_name args) (mm_source_weight args)) None "";
    match nwt_target with
    | None =>
        BOOST_THROW_EXCEPTION (InvalidOperation
          ("ArtmMergeModel() have not found any models to merge. "
           +:+ "Verify that at least one of the following models exist: " +:+ ss))
    | Some t => SetPhiMatrix (mm_nwt_target_name args) t
    end.

(** ** RegularizeModel (lines 380-410) *)

Record RegularizerSettings : Type := mkRegularizerSettings {
  rs_name : string;
  rs_tau : weight
}.

Record RegularizeModelArgs : Type := mkRegularizeModelArgs {
  rm_pwt_source_name : option string;
  rm_nwt_source_name : option string;
  rm_rwt_target_name : option string;
  rm_regularizer_settings : list RegularizerSettings
}.

Section Regularize.

(** [PhiMatrixOperations::InvokePhiRegularizers]: the regularizers are
    external collaborators; from the settings, the probabilities and the
    counts they fill the target. *)
Variable InvokePhiRegularizers :
  list RegularizerSettings -> PhiMatrix -> PhiMatrix -> PhiMatrix -> PhiMatrix.

Definition RegularizeModel (args : RegularizeModelArgs) : M unit :=
  let pwt_source_name := default "" (rm_pwt_source_name args) in
  let nwt_source_name := default "" (rm_nwt_source_name args) in
  let rwt_target_name := default "" (rm_rwt_target_name args) in
  if negb (bool_decide (is_Some (rm_pwt_source_name args))) then
    BOOST_THROW_EXCEPTION (InvalidOperation "RegularizeModelArgs.pwt_source_name is missing")
  else if negb (bool_decide (is_Some (rm_nwt_source_name args))) then
    BOOST_THROW_EXCEPTION (InvalidOperation "RegularizeModelArgs.nwt_source_name is missing")
  else if negb (bool_decide (is_Some (rm_rwt_target_name args))) then
    BOOST_THROW_EXCEPTION (InvalidOperation "RegularizeModelArgs.rwt_target_name is missing")
  else
    nwt_phi_matrix ← GetPhiMatrix nwt_source_name;
    nwt_topic_model ← GetLatestTopicModel nwt_source_name;
    match
      match nwt_topic_model, nwt_phi_matrix with
      | None, None => None
      | Some tm, _ => Some (GetNwt tm)
      | None, Some pm => Some pm
      end
    with
    | None =>
        BOOST_THROW_EXCEPTION (InvalidOperation
          ("Model " +:+ nwt_source_name +:+ " does not exist"))
    | Some n_wt =>
        pwt_phi_matrix ← GetPhiMatrix pwt_source_name;
        pwt_topic_model ← GetLatestTopicModel pwt_source_name;
        match
          match pwt_topic_model, pwt_phi_matrix with
          | None, None => None
          | Some tm, _ => Some (GetPwt tm)
          | None, Some pm => Some pm
          end
        with
        | None =>
            BOOST_THROW_EXCEPTION (InvalidOperation
              ("Model " +:+ pwt_source_name +:+ " does not exist"))
        | Some p_wt =>
            (* lines 405-406 go through [nwt_phi_matrix], not [n_wt] *)
            match nwt_phi_matrix with
            | None => undefined_behaviour "nwt_phi_matrix is null"
            | Some nwt_phi =>
                let rwt_target := DensePhiMatrix rwt_target_name (topic_name nwt_phi) in
                let rwt_target := Reshape nwt_phi rwt_target in
                let rwt_target :=
                  InvokePhiRegularizers (rm_regularizer_settings args) p_wt n_wt rwt_target in
                SetPhiMatrix rwt_target_name rwt_target
            end
        end
    end.

End Regularize.

(** ** WaitIdle (lines 462-479) *)

(** What the two subsystems answer and what the clock shows, in
    microseconds, before and after the first wait. *)
Record WaitEnv : Type := mkWaitEnv {
  data_loader_WaitIdle : WaitIdleArgs -> bool;
  merger_WaitIdle : WaitIdleArgs -> bool;
  time_start : Z;
  time_end : Z
}.

(** [time_duration::total_milliseconds] of a microsecond-resolution
    duration: integer division of the tick count, truncating. *)
Definition total_milliseconds (microseconds : Z) : Z := Z.quot microseconds 1000.

Definition WaitIdle (env : WaitEnv) (args : WaitIdleArgs) : M bool :=
  let timeout := timeout_milliseconds args in
  (if timeout =? 0 then log_warning "WaitIdleArgs.timeout_milliseconds == 0" else mret tt);;
  let new_args := args in
  invoke (DataLoader_WaitIdle args);;
  let retval := data_loader_WaitIdle env args in
  if negb retval then mret false
  else
    let new_args :=
      if negb (timeout =? -1) then
        let timeout := wrap32 (timeout - total_milliseconds (time_end env - time_start env)) in
        {| timeout_milliseconds := timeout |}
      else new_args in
    invoke (Merger_WaitIdle new_args);;
    mret (merger_WaitIdle env new_args).

(** ** RequestProcessBatches (lines 238-334) *)

Inductive ThetaMatrixType : Type :=
  | ThetaMatrixType_None
  | ThetaMatrixType_Dense
  | ThetaMatrixType_Sparse
  | ThetaMatrixType_Cache.

Global Instance ThetaMatrixType_eq_dec : EqDecision ThetaMatrixType.
Proof. solve_decision. Defined.

Record ProcessBatchesArgs : Type := mkProcessBatchesArgs {
  pb_pwt_source_name : string;
  pb_nwt_target_name : option string;
  pb_batch_filename : list string;
  pb_inner_iterations_count : option Z;
  pb_stream_name : option string;
  pb_regularizer_name : list string;
  pb_regularizer_tau : list weight;
  pb_class_id : list string;
  pb_class_weight : list weight;
  pb_reuse_theta : option bool;
  pb_opt_for_avx : option bool;
  pb_use_sparse_bow : option bool;
  pb_reset_scores : bool;
  pb_theta_matrix_type : ThetaMatrixType
}.

(** Modelled from the spec: [BatchManager], the completion tracker
    (batch_manager.h is not part of the sources).  "Set of outstanding
    work-item identifiers for one round; an item is removed from the set
    when its worker-side acknowledgment arrives; the round is done when the
    set is empty." *)
Record BatchManager : Type := mkBatchManager { in_progress_ : gset uuid }.

(** Modelled from the spec: a tracker starts with nothing outstanding;
    [Add] registers an identifier, [Callback] is the acknowledgment of a
    worker, [IsEverythingProcessed] is "the set is empty". *)
Definition BatchManager_new : BatchManager := {| in_progress_ := ∅ |}.

Definition Add (task_id : uuid) (bm : BatchManager) : BatchManager :=
  {| in_progress_ := {[task_id]} ∪ in_progress_ bm |}.

Definition Callback (task_id : uuid) (bm : BatchManager) : BatchManager :=
  {| in_progress_ := in_progress_ bm ∖ {[task_id]} |}.

Definition IsEverythingProcessed (bm : BatchManager) : bool :=
  bool_decide (in_progress_ bm = ∅).

(** The collaborators of the dispatch that live outside the file. *)
Class Collaborators : Type := {
  ScoreData : Type;
  ThetaMatrix : Type;
  (** A default-constructed [ModelConfig]. *)
  default_ModelConfig : ModelConfig;
  (** [Helpers::FixAndValidate(&config, /* throw_error =*/ true)]. *)
  FixAndValidate : ModelConfig -> outcome ModelConfig;
  (** [instance_->schema()->config().cache_theta()]. *)
  cache_theta : bool;
  (** [boost::uuids::random_generator()()]: the identifier drawn for the
      batch of the given index. *)
  random_generator : nat -> uuid;
  (** The score names of the master configuration and what the aggregator
      and the call-scoped theta cache answer once the round is over. *)
  score_config : list string;
  RequestScore : string -> string -> option ScoreData;
  RequestThetaMatrix : string -> bool -> ThetaMatrix
}.

Section Dispatch.

Context {collaborators : Collaborators}.

Record ProcessBatchesResult : Type := mkProcessBatchesResult {
  score_data : list ScoreData;
  theta_matrix : option ThetaMatrix
}.

(** What lines 240-293 leave in the local variables. *)
Record locals : Type := mkLocals {
  l_model_config : ModelConfig;
  l_cache_manager_ptr : CacheManagerPtr;
  l_return_theta : bool
}.

Definition lift {A} (o : outcome A) : M A := fun w => (o, w).

(** Lines 242-253: the configuration copied from the arguments. *)
Definition initial_model_config (args : ProcessBatchesArgs) : ModelConfig :=
  let d := default_ModelConfig in
  {| mc_name := pb_pwt_source_name args;
     mc_topics_count := mc_topics_count d;
     mc_topic_name := mc_topic_name d;
     mc_inner_iterations_count :=
       default (mc_inner_iterations_count d) (pb_inner_iterations_count args);
     mc_stream_name := default (mc_stream_name d) (pb_stream_name args);
     mc_regularizer_name := pb_regularizer_name args;
     mc_regularizer_tau := pb_regularizer_tau args;
     mc_class_id := pb_class_id args;
     mc_class_weight := pb_class_weight args;
     mc_reuse_theta := default (mc_reuse_theta d) (pb_reuse_theta args);
     mc_opt_for_avx := default (mc_opt_for_avx d) (pb_opt_for_avx args);
     mc_use_sparse_bow := default (mc_use_sparse_bow d) (pb_use_sparse_bow args) |}.

(** Lines 271-272. *)
Definition with_topics (p_wt : PhiMatrix) (c : ModelConfig) : ModelConfig :=
  {| mc_name := mc_name c;
     mc_topics_count := topic_size p_wt;
     mc_topic_name := topic_name p_wt;
     mc_inner_iterations_count := mc_inner_iterations_count c;
     mc_stream_name := mc_stream_name c;
     mc_regularizer_name := mc_regularizer_name c;
     mc_regularizer_tau := mc_regularizer_tau c;
     mc_class_id := mc_class_id c;
     mc_class_weight := mc_class_weight c;
     mc_reuse_theta := mc_reuse_theta c;
     mc_opt_for_avx := mc_opt_for_avx c;
     mc_use_sparse_bow := mc_use_sparse_bow c |}.

(** Lines 279-290: the switch on the theta matrix type. *)
Definition theta_destination (t : ThetaMatrixType) : CacheManagerPtr * bool :=
  match t with
  | ThetaMatrixType_Cache =>
      (if cache_theta then instance_cache_manager else null_cache_manager, false)
  | ThetaMatrixType_Dense | ThetaMatrixType_Sparse => (local_cache_manager, true)
  | ThetaMatrixType_None => (null_cache_manager, false)
  end.

(** Lines 240-293: validation and preparation, before the first batch. *)
Definition prepare (args : ProcessBatchesArgs) : M locals :=
  let model_name := pb_pwt_source_name args in
  let model_config := initial_model_config args in
  topic_model ← GetLatestTopicModel model_name;
  phi_matrix ← GetPhiMatrix model_name;
  let continue (p_wt : PhiMatrix) : M locals :=
    match pb_nwt_target_name args with
    | Some nwt_target_name =>
        if bool_decide (nwt_target_name = pb_pwt_source_name args) then
          BOOST_THROW_EXCEPTION (InvalidOperation
            "ProcessBatchesArgs.pwt_source_name == ProcessBatchesArgs.nwt_target_name")
        else
          let nwt_target := DensePhiMatrix nwt_target_name (topic_name p_wt) in
          let nwt_target := Reshape p_wt nwt_target in
          SetPhiMatrix nwt_target_name nwt_target
    | None => mret tt
    end;;
    let model_config := with_topics p_wt model_config in
    model_config ← lift (FixAndValidate model_config);
    let '(cache_manager_ptr, return_theta) :=
      theta_destination (pb_theta_matrix_type args) in
    (if pb_reset_scores args then invoke (ScoresMerger_ResetScores model_name)
     else mret tt);;
    mret {| l_model_config := model_config;
            l_cache_manager_ptr := cache_manager_ptr;
            l_return_theta := return_theta |} in
  match topic_model, phi_matrix with
  | None, None =>
      BOOST_THROW_EXCEPTION (InvalidOperation
        ("Model " +:+ model_name +:+ " does not exist"))
  | Some tm, _ => continue (GetPwt tm)
  | None, Some pm => continue pm
  end.

(** Lines 298-309: the work item of one batch. *)
Definition work_item (args : ProcessBatchesArgs) (l : locals)
    (task_id : uuid) (batch_filename : string) : ProcessorInput :=
  {| pi_notifiable := this_batch_manager;
     pi_scores_merger := instance_scores_merger;
     pi_cache_manager := l_cache_manager_ptr l;
     pi_model_name := pb_pwt_source_name args;
     pi_batch_filename := batch_filename;
     pi_model_config := l_model_config l;
     pi_task_id := task_id;
     pi_caller := Caller_ProcessBatches;
     pi_nwt_target_name := pb_nwt_target_name args |}.

(** Lines 318-333: the result read back after the round. *)
Definition collect (args : ProcessBatchesArgs) (l : locals) : ProcessBatchesResult :=
  let model_name := pb_pwt_source_name args in
  {| score_data := omap (RequestScore model_name) score_config;
     theta_matrix :=
       if l_return_theta l then
         Some (RequestThetaMatrix model_name
                 (bool_decide (pb_theta_matrix_type args = ThetaMatrixType_Sparse)))
       else None |}.

(** Where the calling thread stands. *)
Inductive pc : Type :=
  | Entered
  | Dispatching (l : locals) (batch_index : nat)
  | Polling (l : locals)
  | Returned (r : ProcessBatchesResult)
  | Failed (e : exception)
  | Crashed (why : string).

(** The call in progress: the shared state, the completion tracker on the
    caller's stack, the caller's position, and (for the statements only)
    the acknowledgments that took an identifier out of the tracker. *)
Record call_state : Type := mkCallState {
  cs_world : World;
  cs_batch_manager : BatchManager;
  cs_pc : pc;
  cs_acknowledged : list uuid
}.

Definition enter (w : World) : call_state :=
  {| cs_world := w; cs_batch_manager := BatchManager_new;
     cs_pc := Entered; cs_acknowledged := [] |}.

(** One step of the calling thread: the preparation, one turn of the loop
    of lines 294-312, or one turn of the wait loop of lines 314-316. *)
Definition caller_step (args : ProcessBatchesArgs) (s : call_state) : call_state :=
  match cs_pc s with
  | Entered =>
      let '(o, w) := prepare args (cs_world s) in
      {| cs_world := w; cs_batch_manager := cs_batch_manager s;
         cs_pc := match o with
                  | Returns l => Dispatching l 0
                  | Throws e => Failed e
                  | Undefined why => Crashed why
                  end;
         cs_acknowledged := cs_acknowledged s |}
  | Dispatching l batch_index =>
      match pb_batch_filename args !! batch_index with
      | Some batch_filename =>
          let task_id := random_generator batch_index in
          let pi := work_item args l task_id batch_filename in
          {| cs_world := record (ProcessorQueue_push pi)
                           (record (BatchManager_Add task_id) (cs_world s));
             cs_batch_manager := Add task_id (cs_batch_manager s);
             cs_pc := Dispatching l (S batch_index);
             cs_acknowledged := cs_acknowledged s |}
      | None =>
          {| cs_world := cs_world s; cs_batch_manager := cs_batch_manager s;
             cs_pc := Polling l; cs_acknowledged := cs_acknowledged s |}
      end
  | Polling l =>
      if IsEverythingProcessed (cs_batch_manager s) then
        {| cs_world := cs_world s; cs_batch_manager := cs_batch_manager s;
           cs_pc := Returned (collect args l);
           cs_acknowledged := cs_acknowledged s |}
      else s
  | Returned _ | Failed _ | Crashed _ => s
  end.

(** A worker acknowledges a work item through [Callback]. *)
Definition worker_step (task_id : uuid) (s : call_state) : call_state :=
  match cs_pc s with
  | Returned _ | Failed _ | Crashed _ => s
  | _ =>
      {| cs_world := cs_world s;
         cs_batch_manager := Callback task_id (cs_batch_manager s);
         cs_pc := cs_pc s;
         cs_acknowledged :=
           if bool_decide (task_id ∈ in_progress_ (cs_batch_manager s))
           then cs_acknowledged s ++ [task_id] else cs_acknowledged s |}
  end.

(** A schedule interleaves the caller with the workers. *)
Inductive turn : Type :=
  | Caller_runs
  | Worker_acknowledges (task_id : uuid).

Definition step (args : ProcessBatchesArgs) (s : call_state) (t : turn) : call_state :=
  match t with
  | Caller_runs => caller_step args s
  | Worker_acknowledges task_id => worker_step task_id s
  end.

Definition run (args : ProcessBatchesArgs) (schedule : list turn) (w : World)
  : call_state :=
  foldl (step args) (enter w) schedule.

(** What the journal says was registered with the tracker and enqueued. *)
Definition registered (j : list call) : list uuid :=
  omap (fun c => match c with BatchManager_Add id => Some id | _ => None end) j.

Definition enqueued (j : list call) : list ProcessorInput :=
  omap (fun c => match c with ProcessorQueue_push pi => Some pi | _ => None end) j.

Definition published (j : list call) : list (string * PhiMatrix) :=
  omap (fun c => match c with Merger_SetPhiMatrix n m => Some (n, m) | _ => None end) j.

End Dispatch.


(** ** Streams *)

(** Decimal text, as [operator<<] writes an unsigned size. *)
Fixpoint bytes_of_uint (d : Decimal.uint) : list byte :=
  match d with
  | Decimal.Nil => []
  | Decimal.D0 d => x30 :: bytes_of_uint d
  | Decimal.D1 d => x31 :: bytes_of_uint d
  | Decimal.D2 d => x32 :: bytes_of_uint d
  | Decimal.D3 d => x33 :: bytes_of_uint d
  | Decimal.D4 d => x34 :: bytes_of_uint d
  | Decimal.D5 d => x35 :: bytes_of_uint d
  | Decimal.D6 d => x36 :: bytes_of_uint d
  | Decimal.D7 d => x37 :: bytes_of_uint d
  | Decimal.D8 d => x38 :: bytes_of_uint d
  | Decimal.D9 d => x39 :: bytes_of_uint d
  end.

Definition decimal (n : N) : list byte := bytes_of_uint (N.to_uint n).

(** Decimal text of a signed [int], for messages. *)
Definition decimal_int (z : Z) : string :=
  string_of_list_byte
    (match z with
     | Zneg p => x2d :: decimal (Npos p)
     | _ => decimal (Z.to_N z)
     end).

(** A [char] is signed on the platforms the engine targets. *)
Definition signed_char (b : byte) : Z :=
  let n := Z.of_N (Byte.to_N b) in if n <? 128 then n else n - 256.

Definition isspace (b : byte) : bool :=
  match b with
  | x09 | x0a | x0b | x0c | x0d | x20 => true
  | _ => false
  end.

Definition isdigit (b : byte) : bool :=
  match b with
  | x30 | x31 | x32 | x33 | x34 | x35 | x36 | x37 | x38 | x39 => true
  | _ => false
  end.

Definition digit_value (b : byte) : Z := Z.of_N (Byte.to_N b) - 48.

Fixpoint skip_whitespace (bs : list byte) : list byte :=
  match bs with
  | b :: bs' => if isspace b then skip_whitespace bs' else bs
  | [] => []
  end.

(** The longest run of digits at the head of the input, accumulated. *)
Fixpoint scan_digits (acc : Z) (bs : list byte) : Z * list byte :=
  match bs with
  | b :: bs' => if isdigit b then scan_digits (10 * acc + digit_value b) bs' else (acc, bs)
  | [] => (acc, [])
  end.

(** An input file stream: what is left to read and the state bits. *)
Record ifstream : Type := mkIfstream {
  rdbuf : list byte;
  eofbit : bool;
  failbit : bool
}.

Definition ifstream_open (content : list byte) : ifstream :=
  {| rdbuf := content; eofbit := false; failbit := false |}.

(** The sentry of a formatted extraction: a stream that is not good fails;
    otherwise whitespace is skipped, and meeting the end fails with eof. *)
Definition sentry (s : ifstream) : bool * ifstream :=
  if eofbit s || failbit s then
    (false, {| rdbuf := rdbuf s; eofbit := eofbit s; failbit := true |})
  else
    match skip_whitespace (rdbuf s) with
    | [] => (false, {| rdbuf := []; eofbit := true; failbit := true |})
    | bs => (true, {| rdbuf := bs; eofbit := false; failbit := false |})
    end.

(** [fin >> c] for a [char]: [None] when nothing is stored into [c]. *)
Definition extract_char (s : ifstream) : option byte * ifstream :=
  let '(ok, s) := sentry s in
  if ok then
    match rdbuf s with
    | b :: bs => (Some b, {| rdbuf := bs; eofbit := false; failbit := false |})
    | [] => (None, s)
    end
  else (None, s).

(** An optional sign at the head of the input. *)
Definition strip_sign (bs : list byte) : bool * list byte :=
  match bs with
  | b :: bs' =>
      if Byte.eqb b x2d then (true, bs')
      else if Byte.eqb b x2b then (false, bs')
      else (false, bs)
  | [] => (false, [])
  end.

(** The conversion of an [int] field: an optional sign and the longest run
    of digits are consumed.  The result is the value stored, whether the
    conversion failed, and the input left: no digit stores 0 and fails, a
    value outside [int] stores the nearest bound and fails. *)
Definition scan_int (bs : list byte) : Z * bool * list byte :=
  let '(negative, digits) := strip_sign bs in
  let has_digit := match digits with b :: _ => isdigit b | [] => false end in
  let '(v, rest) := scan_digits 0 digits in
  let v := if negative then - v else v in
  if negb has_digit then (0, true, rest)
  else if INT_MAX <? v then (INT_MAX, true, rest)
  else if v <? INT_MIN then (INT_MIN, true, rest)
  else (v, false, rest).

(** [fin >> n] for an [int]: [None] when nothing is stored into [n] (the
    sentry failed).  Otherwise the field is converted; reaching the end of
    the input while scanning sets eof. *)
Definition extract_int (s : ifstream) : option Z * ifstream :=
  let '(ok, s) := sentry s in
  if ok then
    let '(v, failed, rest) := scan_int (rdbuf s) in
    (Some v,
     {| rdbuf := rest;
        eofbit := match rest with [] => true | _ => false end;
        failbit := failed |})
  else (None, s).

(** [std::string buffer(n, '\0'); fin.read(&buffer[0], n)]: the buffer
    afterwards.  A stream that is not good reads nothing; a short read
    leaves the rest of the buffer zero and sets eof and fail. *)
Definition read_buffer (n : nat) (s : ifstream) : list byte * ifstream :=
  if eofbit s || failbit s then
    (replicate n x00, {| rdbuf := rdbuf s; eofbit := eofbit s; failbit := true |})
  else if (n <=? length (rdbuf s))%nat then
    (take n (rdbuf s), {| rdbuf := drop n (rdbuf s); eofbit := false; failbit := false |})
  else
    (rdbuf s ++ replicate (n - length (rdbuf s)) x00,
     {| rdbuf := []; eofbit := true; failbit := true |}).

(** ** The persistence codec: ExportModel (lines 88-138), ImportModel (lines 140-187) *)

Record ExportModelArgs : Type := mkExportModelArgs {
  em_file_name : string;
  em_model_name : string
}.

Record ImportModelArgs : Type := mkImportModelArgs {
  im_file_name : string;
  im_model_name : string
}.

Definition add_token (t : Token) (a : GetTopicModelArgs) : GetTopicModelArgs :=
  {| gtm_model_name := gtm_model_name a;
     gtm_request_type := gtm_request_type a;
     gtm_use_sparse_format := gtm_use_sparse_format a;
     gtm_token := gtm_token a ++ [keyword t];
     gtm_class_id := gtm_class_id a ++ [class_id t] |}.

Definition clear_tokens (a : GetTopicModelArgs) : GetTopicModelArgs :=
  {| gtm_model_name := gtm_model_name a;
     gtm_request_type := gtm_request_type a;
     gtm_use_sparse_format := gtm_use_sparse_format a;
     gtm_token := [];
     gtm_class_id := [] |}.

Definition file_exists (name : string) : M bool :=
  fun w => (Returns (bool_decide (is_Some (disk w !! name))), w).

(** [fout << bytes]: append to the file being written. *)
Definition ofstream_write (name : string) (bs : list byte) : M unit :=
  fun w => (Returns tt,
            {| topic_model_ := topic_model_ w; phi_matrix_ := phi_matrix_ w;
               disk := <[name := default [] (disk w !! name) ++ bs]> (disk w);
               journal := journal w |}).

(** The protobuf library and the file system, as the codec meets them. *)
Class Codec : Type := {
  (** [SerializeAsString] and [ParseFromArray] of the chunk message. *)
  SerializeAsString : TopicModelMsg -> list byte;
  ParseFromArray : list byte -> option TopicModelMsg;
  (** Whether the file system lets a file be created under a name. *)
  can_create : string -> bool
}.

Section Codec.

Context {codec : Codec}.

(** [std::ofstream fout(name, binary)] followed by [is_open]. *)
Definition ofstream_open (name : string) : M bool :=
  fun w =>
    if can_create name then
      (Returns true,
       {| topic_model_ := topic_model_ w; phi_matrix_ := phi_matrix_ w;
          disk := <[name := []]> (disk w); journal := journal w |})
    else (Returns false, w).

(** The loop of lines 119-133 over the tokens still to visit. *)
Fixpoint export_loop (file : string) (n_wt : PhiMatrix) (tokens_per_chunk : Z)
    (get_topic_model_args : GetTopicModelArgs) (todo : list Token) : M unit :=
  match todo with
  | [] => mret tt
  | token :: todo' =>
      let get_topic_model_args := add_token token get_topic_model_args in
      if match todo' with [] => true | _ => false end
         || (tokens_per_chunk <=? Z.of_nat (length (gtm_token get_topic_model_args)))
      then
        let external_topic_model :=
          RetrieveExternalTopicModel n_wt get_topic_model_args in
        let str := SerializeAsString external_topic_model in
        ofstream_write file (decimal (N.of_nat (length str)));;
        ofstream_write file str;;
        export_loop file n_wt tokens_per_chunk
          (clear_tokens get_topic_model_args) todo'
      else
        export_loop file n_wt tokens_per_chunk get_topic_model_args todo'
  end.

(** [ExportModel] with the byte budget of a chunk as a parameter. *)
Definition ExportModel_with (budget : Z) (args : ExportModelArgs) : M unit :=
  existing ← file_exists (em_file_name args);
  if (existing : bool) then
    BOOST_THROW_EXCEPTION (DiskWriteException
      ("File already exists: " +:+ em_file_name args))
  else
    is_open ← ofstream_open (em_file_name args);
    if negb is_open then
      BOOST_THROW_EXCEPTION (DiskReadException
        ("Unable to create file " +:+ em_file_name args))
    else
      topic_model ← GetLatestTopicModel (em_model_name args);
      phi_matrix ← GetPhiMatrix (em_model_name args);
      let continue (n_wt : PhiMatrix) : M unit :=
        let token_size := token_size n_wt in
        if token_size =? 0 then
          BOOST_THROW_EXCEPTION (InvalidOperation
            ("Model " +:+ em_model_name args +:+ " has no tokens, export failed"))
        else if topic_size n_wt =? 0 then
          undefined_behaviour "integer division by zero"
        else
          let tokens_per_chunk := Z.min token_size (Z.quot budget (topic_size n_wt)) in
          let get_topic_model_args :=
            {| gtm_model_name := em_model_name args;
               gtm_request_type := RequestType_Nwt;
               gtm_use_sparse_format := true;
               gtm_token := []; gtm_class_id := [] |} in
          let version := x00 in
          ofstream_write (em_file_name args) [version];;
          export_loop (em_file_name args) n_wt tokens_per_chunk
            get_topic_model_args (tokens n_wt) in
      match topic_model, phi_matrix with
      | None, None =>
          BOOST_THROW_EXCEPTION (InvalidOperation
            ("Model " +:+ em_model_name args +:+ " does not exist"))
      | Some tm, _ => continue (GetPwt tm)
      | None, Some pm => continue pm
      end.

(** Line 108: the budget is [100 * 1024 * 1024]. *)
Definition ExportModel (args : ExportModelArgs) : M unit :=
  ExportModel_with (100 * 1024 * 1024) args.

Definition corrupted (args : ImportModelArgs) : exception :=
  CorruptedMessageException ("Unable to read from " +:+ im_file_name args).

(** How one turn of the loop of lines 156-177 ends. *)
Inductive turn_end : Type :=
  | Loop_exits
  | Turn_throws (e : exception)
  | Turn_undefined (why : string)
  | Loop_continues (fin : ifstream) (target : PhiMatrix).

(** One turn of the loop of lines 156-177, entered with the stream not at
    eof. *)
Definition import_turn (args : ImportModelArgs) (fin : ifstream)
    (target : option PhiMatrix) : turn_end :=
  let '(length, fin) := extract_int fin in
  if eofbit fin then Loop_exits
  else
    match length with
    | None => Turn_undefined "length is read uninitialised"
    | Some length =>
        if length <=? 0 then Turn_throws (corrupted args)
        else
          let '(buffer, fin) := read_buffer (Z.to_nat length) fin in
          match ParseFromArray buffer with
          | None => Turn_throws (corrupted args)
          | Some topic_model =>
              let topic_model := set_name (im_model_name args) topic_model in
              let target :=
                match target with
                | None =>
                    DensePhiMatrix (im_model_name args) (tm_topic_name topic_model)
                | Some t => t
                end in
              let target := ApplyTopicModelOperation topic_model 1%Qc target in
              Loop_continues fin target
          end
    end.

(** The loop of lines 156-177; [None] when the turns allowed run out. *)
Fixpoint import_loop (turns : nat) (args : ImportModelArgs) (fin : ifstream)
    (target : option PhiMatrix) : option (outcome (option PhiMatrix)) :=
  match turns with
  | O => None
  | S turns =>
      if eofbit fin then Some (Returns target)
      else
        match import_turn args fin target with
        | Loop_exits => Some (Returns target)
        | Turn_throws e => Some (Throws e)
        | Turn_undefined why => Some (Undefined why)
        | Loop_continues fin target => import_loop turns args fin (Some target)
        end
  end.

Definition ImportModel (args : ImportModelArgs) : M unit :=
  fun w =>
    match disk w !! im_file_name args with
    | None =>
        (Throws (DiskReadException ("Unable to open file " +:+ im_file_name args)), w)
    | Some content =>
        let fin := ifstream_open content in
        let '(version, fin) := extract_char fin in
        match version with
        | None => (Undefined "version is read uninitialised", w)
        | Some version =>
            if negb (signed_char version =? 0) then
              (Throws (DiskReadException
                 ("Unsupported fromat version: " +:+ decimal_int (signed_char version))), w)
            else
              match import_loop (length content + 2) args fin None with
              | None => (Undefined "the loop does not end", w)
              | Some (Returns None) => (Throws (corrupted args), w)
              | Some (Returns (Some target)) =>
                  SetPhiMatrix (im_model_name args) target w
              | Some (Throws e) => (Throws e, w)
              | Some (Undefined why) => (Undefined why, w)
              end
        end
    end.

End Codec.

(** ** NormalizeModel (lines 412-443) *)

Record NormalizeModelArgs : Type := mkNormalizeModelArgs {
  nm_pwt_target_name : option string;
  nm_nwt_source_name : option string;
  nm_rwt_source_name : option string
}.

Section Normalize.

(** The two overloads of [PhiMatrixOperations::FindPwt], external
    collaborators: from the counts, and in the second overload the
    regularizer matrix, they fill the target. *)
Variable FindPwt : PhiMatrix -> PhiMatrix -> PhiMatrix.
Variable FindPwt_rwt : PhiMatrix -> PhiMatrix -> PhiMatrix -> PhiMatrix.

Definition NormalizeModel (args : NormalizeModelArgs) : M unit :=
  let pwt_target_name := default "" (nm_pwt_target_name args) in
  let nwt_source_name := default "" (nm_nwt_source_name args) in
  let rwt_source_name := default "" (nm_rwt_source_name args) in
  if negb (bool_decide (is_Some (nm_pwt_target_name args))) then
    BOOST_THROW_EXCEPTION (InvalidOperation "NormalizeModelArgs.pwt_target_name is missing")
  else if negb (bool_decide (is_Some (nm_nwt_source_name args))) then
    (* line 421 repeats the message of line 419 *)
    BOOST_THROW_EXCEPTION (InvalidOperation "NormalizeModelArgs.pwt_target_name is missing")
  else
    nwt_topic_model ← GetLatestTopicModel nwt_source_name;
    nwt_phi_matrix ← GetPhiMatrix nwt_source_name;
    match
      match nwt_topic_model, nwt_phi_matrix with
      | None, None => None
      | Some tm, _ => Some (GetPwt tm)
      | None, Some pm => Some pm
      end
    with
    | None =>
        BOOST_THROW_EXCEPTION (InvalidOperation
          ("Model " +:+ nwt_source_name +:+ " does not exist"))
    | Some n_wt =>
        rwt_topic_model ← GetLatestTopicModel rwt_source_name;
        rwt_phi_matrix ← GetPhiMatrix rwt_source_name;
        let normalize (r_wt : option PhiMatrix) : M unit :=
          let pwt_target := DensePhiMatrix pwt_target_name (topic_name n_wt) in
          let pwt_target := Reshape n_wt pwt_target in
          let pwt_target :=
            match r_wt with
            | None => FindPwt n_wt pwt_target
            | Some r_wt => FindPwt_rwt n_wt r_wt pwt_target
            end in
          SetPhiMatrix pwt_target_name pwt_target in
        if bool_decide (is_Some (nm_rwt_source_name args)) then
          match rwt_topic_model, rwt_phi_matrix with
          | None, None =>
              BOOST_THROW_EXCEPTION (InvalidOperation
                ("Model " +:+ rwt_source_name +:+ " does not exist"))
          | Some tm, _ => normalize (Some (GetPwt tm))
          | None, Some pm => normalize (Some pm)
          end
        else normalize None
    end.

End Normalize.

(** ** Construction, Reconfigure and ValidateConfig (lines 35-42, 194-213, 497-505) *)

(** [MasterComponentConfig], the fields the file reads or writes. *)
Record MasterComponentConfig : Type := mkMasterComponentConfig {
  mcc_disk_path : string;
  mcc_processors_count : Z;
  mcc_processor_queue_max_size : option Z;
  mcc_cache_theta : bool;
  mcc_score_config : list string
}.

Definition set_processor_queue_max_size (n : Z) (c : MasterComponentConfig)
  : MasterComponentConfig :=
  {| mcc_disk_path := mcc_disk_path c;
     mcc_processors_count := mcc_processors_count c;
     mcc_processor_queue_max_size := Some n;
     mcc_cache_theta := mcc_cache_theta c;
     mcc_score_config := mcc_score_config c |}.

(** The owned [Instance] (instance.h is not part of the sources): its
    constructor and its [Reconfigure], either of which may throw. *)
Class InstanceOps : Type := {
  instance : Type;
  new_Instance : MasterComponentConfig -> outcome instance;
  Instance_Reconfigure : MasterComponentConfig -> instance -> outcome unit * instance
}.

Section Configuration.

Context {instance_ops : InstanceOps}.

(** The data members of [MasterComponent]; [instance_] is null until the
    first configuration. *)
Record MasterComponent : Type := mkMasterComponent {
  is_configured_ : bool;
  master_id_ : Z;
  config_ : MasterComponentConfig;
  instance_ : option instance
}.

Definition ValidateConfig (config : MasterComponentConfig) (this : MasterComponent)
  : outcome unit :=
  if is_configured_ this then
    let current_config := config_ this in
    if negb (bool_decide (mcc_disk_path current_config = mcc_disk_path config)) then
      let message := "Changing disk_path is not supported." in
      Throws (InvalidOperation message)
    else Returns tt
  else Returns tt.

Definition Reconfigure (user_config : MasterComponentConfig) (this : MasterComponent)
  : outcome unit * MasterComponent :=
  match ValidateConfig user_config this with
  | Throws e => (Throws e, this)
  | Undefined why => (Undefined why, this)
  | Returns _ =>
      let config :=
        if negb (bool_decide (is_Some (mcc_processor_queue_max_size user_config)))
        then set_processor_queue_max_size (mcc_processors_count user_config) user_config
        else user_config in
      let this :=
        {| is_configured_ := is_configured_ this; master_id_ := master_id_ this;
           config_ := config; instance_ := instance_ this |} in
      if negb (is_configured_ this) then
        match new_Instance config with
        | Returns i =>
            (Returns tt,
             {| is_configured_ := true; master_id_ := master_id_ this;
                config_ := config_ this; instance_ := Some i |})
        | Throws e => (Throws e, this)
        | Undefined why => (Undefined why, this)
        end
      else
        match instance_ this with
        | None => (Undefined "instance_ is null", this)
        | Some i =>
            let '(o, i) := Instance_Reconfigure config i in
            (o,
             {| is_configured_ := is_configured_ this; master_id_ := master_id_ this;
                config_ := config_ this; instance_ := Some i |})
        end
  end.

(** The constructor: the members are initialised, then [Reconfigure] runs;
    an exception leaves no object behind. *)
Definition MasterComponent_new (id : Z) (config : MasterComponentConfig)
  : outcome MasterComponent :=
  let this :=
    {| is_configured_ := false; master_id_ := id;
       config_ := config; instance_ := None |} in
  match Reconfigure config this with
  | (Returns _, this) => Returns this
  | (Throws e, _) => Throws e
  | (Undefined why, _) => Undefined why
  end.

(** [id()]. *)
Definition MasterComponent_id (this : MasterComponent) : Z := master_id_ this.

End Configuration.

(** * The vocabulary of the statements *)

Definition sample_matrix : PhiMatrix :=
  {| model_name := "M";
     topic_name := ["t0"; "t1"];
     rows := [ (mkToken "@default_class" "a", [1%Qc; 0%Qc]);
               (mkToken "@default_class" "b", [0%Qc; 2%Qc]) ] |}.

Definition sample_model : TopicModel :=
  {| GetPwt := sample_matrix; GetNwt := sample_matrix |}.

Definition empty_world : World :=
  {| topic_model_ := ∅; phi_matrix_ := ∅; disk := ∅; journal := [] |}.

(** A world whose only model is the raw matrix [M]. *)
Definition raw_world : World :=
  {| topic_model_ := ∅; phi_matrix_ := {[ "M" := sample_matrix ]};
     disk := ∅; journal := [] |}.

(** A world whose only model is the versioned model [V]. *)
Definition versioned_world : World :=
  {| topic_model_ := {[ "V" := sample_model ]}; phi_matrix_ := ∅;
     disk := ∅; journal := [] |}.

Definition sample_config (sparse : bool) : ModelConfig :=
  {| mc_name := "M"; mc_topics_count := 2; mc_topic_name := ["t0"; "t1"];
     mc_inner_iterations_count := 10; mc_stream_name := "@global";
     mc_regularizer_name := []; mc_regularizer_tau := [];
     mc_class_id := ["@default_class"]; mc_class_weight := [1%Qc];
     mc_reuse_theta := false; mc_opt_for_avx := true;
     mc_use_sparse_bow := sparse |}.

(** The arguments [WaitIdle] hands to the second wait. *)
Definition second_wait_args (env : WaitEnv) (args : WaitIdleArgs) : WaitIdleArgs :=
  let timeout := timeout_milliseconds args in
  let elapsed := total_milliseconds (time_end env - time_start env) in
  {| timeout_milliseconds := if timeout =? -1 then -1 else wrap32 (timeout - elapsed) |}.

(** [WaitIdle(1000)] whose first wait lasts 400 ms. *)
Definition sample_wait_env : WaitEnv :=
  {| data_loader_WaitIdle := fun _ => true;
     merger_WaitIdle := fun a => 0 <=? timeout_milliseconds a;
     time_start := 5000000; time_end := 5400000 |}.

(** The keywords and the weights of a matrix, as plain fractions. *)
Definition counts_of (m : PhiMatrix) : list (string * list Q) :=
  (fun r : Token * list weight => (keyword r.1, (fun v : Qc => this v) <$> r.2)) <$> rows m.

(** The world after further calls were journalled. *)
Definition journal_add (j : list call) (w : World) : World :=
  {| topic_model_ := topic_model_ w; phi_matrix_ := phi_matrix_ w;
     disk := disk w; journal := journal w ++ j |}.

(** The counts a name resolves to: the versioned model when there is one,
    the raw matrix otherwise. *)
Definition nwt_source (w : World) (name : string) : option PhiMatrix :=
  match topic_model_ w !! name with
  | Some tm => Some (GetNwt tm)
  | None => phi_matrix_ w !! name
  end.

(** What one located source contributes (lines 360-370). *)
Definition merge_one (args : MergeModelArgs) (nwt_target : option PhiMatrix)
    (n_wt : PhiMatrix) (weight : weight) : PhiMatrix :=
  let t :=
    match nwt_target with
    | Some t => t
    | None =>
        DensePhiMatrix (mm_nwt_target_name args)
          (if negb (length (mm_topic_name args) =? 0)%nat
           then mm_topic_name args else topic_name n_wt)
    end in
  if 0 <? token_size n_wt
  then ApplyTopicModelOperation
         (RetrieveExternalTopicModel n_wt default_GetTopicModelArgs) weight t
  else t.

(** The target the loop ends with, its list of names, and its journal. *)
Fixpoint merged (w : World) (args : MergeModelArgs) (srcs : list (string * weight))
    (nwt_target : option PhiMatrix) : option PhiMatrix :=
  match srcs with
  | [] => nwt_target
  | (name, weight) :: srcs' =>
      match nwt_source w name with
      | None => merged w args srcs' nwt_target
      | Some n_wt => merged w args srcs' (Some (merge_one args nwt_target n_wt weight))
      end
  end.

Fixpoint merge_names (i : nat) (names : list string) (ss : string) : string :=
  match names with
  | [] => ss
  | name :: names' =>
      merge_names (S i) names' (ss +:+ (if (i =? 0)%nat then "" else ", ") +:+ name)
  end.

Definition missing_warning (name : string) : call :=
  LOG_WARNING ("Model " +:+ name +:+ " does not exist").

Fixpoint merge_journal (w : World) (names : list string) : list call :=
  match names with
  | [] => []
  | name :: names' =>
      [Merger_GetLatestTopicModel name; Merger_GetPhiMatrix name]
      ++ (if model_exists w name then [] else [missing_warning name])
      ++ merge_journal w names'
  end.

Definition merge_args (names : list string) (weights : list weight) : MergeModelArgs :=
  {| mm_nwt_source_name := names; mm_source_weight := weights;
     mm_nwt_target_name := "T"; mm_topic_name := [] |}.

(** The arguments without the sources that do not exist. *)
Definition existing_only (w : World) (args : MergeModelArgs) : MergeModelArgs :=
  let srcs := filter (fun p => model_exists w p.1 = true)
                     (zip (mm_nwt_source_name args) (mm_source_weight args)) in
  {| mm_nwt_source_name := srcs.*1; mm_source_weight := srcs.*2;
     mm_nwt_target_name := mm_nwt_target_name args;
     mm_topic_name := mm_topic_name args |}.

Definition warnings (j : list call) : list string :=
  omap (fun c => match c with LOG_WARNING msg => Some msg | _ => None end) j.

(** The counts of the first source, in argument order, that exists. *)
Definition first_located (w : World) (names : list string) : option PhiMatrix :=
  head (omap (nwt_source w) names).

Definition regularize_args (pwt nwt rwt : string) : RegularizeModelArgs :=
  {| rm_pwt_source_name := Some pwt; rm_nwt_source_name := Some nwt;
     rm_rwt_target_name := Some rwt; rm_regularizer_settings := [] |}.

(** The probabilities a name resolves to: the versioned model when there
    is one, the raw matrix otherwise. *)
Definition pwt_source (w : World) (name : string) : option PhiMatrix :=
  match topic_model_ w !! name with
  | Some tm => Some (GetPwt tm)
  | None => phi_matrix_ w !! name
  end.

Definition zero_matrix (m : PhiMatrix) : Prop :=
  Forall (fun r => r.2 = replicate (length (topic_name m)) 0%Qc) (rows m).

(** Collaborators for the examples: every configuration validates, the
    theta cache is off, the identifiers drawn are 1000, 1001, ... *)
Definition sample_collaborators : Collaborators :=
  {| ScoreData := Z;
     ThetaMatrix := bool;
     default_ModelConfig := sample_config true;
     FixAndValidate := Returns;
     cache_theta := false;
     random_generator := fun k => (1000 + N.of_nat k)%N;
     score_config := ["perplexity"];
     RequestScore := fun _ _ => Some 0;
     RequestThetaMatrix := fun _ sparse => sparse |}.

(** Collaborators whose validation rejects every configuration. *)
Definition strict_collaborators : Collaborators :=
  {| ScoreData := Z;
     ThetaMatrix := bool;
     default_ModelConfig := sample_config true;
     FixAndValidate := fun _ => Throws (InvalidOperation "invalid configuration");
     cache_theta := false;
     random_generator := fun k => (1000 + N.of_nat k)%N;
     score_config := [];
     RequestScore := fun _ _ => None;
     RequestThetaMatrix := fun _ sparse => sparse |}.

(** A request against the model [M]. *)
Definition process_args (target : option string) (batches : list string)
  : ProcessBatchesArgs :=
  {| pb_pwt_source_name := "M";
     pb_nwt_target_name := target;
     pb_batch_filename := batches;
     pb_inner_iterations_count := None;
     pb_stream_name := None;
     pb_regularizer_name := [];
     pb_regularizer_tau := [];
     pb_class_id := [];
     pb_class_weight := [];
     pb_reuse_theta := None;
     pb_opt_for_avx := None;
     pb_use_sparse_bow := None;
     pb_reset_scores := true;
     pb_theta_matrix_type := ThetaMatrixType_Dense |}.

(** Two batches; the first is acknowledged while the second is still to be
    dispatched, the caller polls once in vain, the second is acknowledged,
    the caller polls again. *)
Definition sample_schedule : list turn :=
  [Caller_runs; Caller_runs; Worker_acknowledges 1000%N; Caller_runs;
   Caller_runs; Caller_runs; Worker_acknowledges 1001%N; Caller_runs].

(** ** The call of RequestProcessBatches as a state machine *)

Section DispatchVocabulary.

Context {collaborators : Collaborators}.
Variable args : ProcessBatchesArgs.

Let source := pb_pwt_source_name args.
Let batches := pb_batch_filename args.

(** What lines 261-293 do once the source [p_wt] is found, from the
    world [w'] in which the target, if any, is published. *)
Definition after_publication (p_wt : PhiMatrix) (w' : World) : outcome locals * World :=
  match FixAndValidate (with_topics p_wt (initial_model_config args)) with
  | Returns model_config =>
      (Returns {| l_model_config := model_config;
                  l_cache_manager_ptr :=
                    (theta_destination (pb_theta_matrix_type args)).1;
                  l_return_theta :=
                    (theta_destination (pb_theta_matrix_type args)).2 |},
       if pb_reset_scores args
       then record (ScoresMerger_ResetScores source) w' else w')
  | Throws e => (Throws e, w')
  | Undefined why => (Undefined why, w')
  end.

(** The matrix lines 266-267 build for the target. *)
Definition fresh_target (nwt_target_name : string) (p_wt : PhiMatrix) : PhiMatrix :=
  Reshape p_wt (DensePhiMatrix nwt_target_name (topic_name p_wt)).

(** What the loop of lines 294-312 has journalled after [i] turns. *)
Fixpoint dispatch_journal (l : locals) (i : nat) : list call :=
  match i with
  | O => []
  | S k =>
      dispatch_journal l k
      ++ match batches !! k with
         | Some batch_filename =>
             [BatchManager_Add (random_generator k);
              ProcessorQueue_push
                (work_item args l (random_generator k) batch_filename)]
         | None => []
         end
  end.

(** Every identifier registered so far is outstanding or acknowledged. *)
Definition tracked (i : nat) (s : call_state) : Prop :=
  forall k, (k < i)%nat ->
    random_generator k ∈ in_progress_ (cs_batch_manager s)
    ∨ random_generator k ∈ cs_acknowledged s.

Definition invariant (w : World) (s : call_state) : Prop :=
  match cs_pc s with
  | Entered => cs_world s = w
  | Dispatching l i =>
      (prepare args w).1 = Returns l
      ∧ (i <= length batches)%nat
      ∧ cs_world s = journal_add (dispatch_journal l i) (prepare args w).2
      ∧ tracked i s
  | Polling l =>
      (prepare args w).1 = Returns l
      ∧ cs_world s
        = journal_add (dispatch_journal l (length batches)) (prepare args w).2
      ∧ tracked (length batches) s
  | Returned r =>
      ∃ l, (prepare args w).1 = Returns l
      ∧ r = collect args l
      ∧ cs_world s
        = journal_add (dispatch_journal l (length batches)) (prepare args w).2
      ∧ tracked (length batches) s
      ∧ in_progress_ (cs_batch_manager s) = ∅
  | Failed e =>
      (prepare args w).1 = Throws e ∧ cs_world s = (prepare args w).2
  | Crashed why =>
      (prepare args w).1 = Undefined why ∧ cs_world s = (prepare args w).2
  end.

(** The two lookups of lines 255-256. *)
Definition source_lookups : list call :=
  [Merger_GetLatestTopicModel source; Merger_GetPhiMatrix source].

(** The identifiers drawn for the batches of the call. *)
Definition identifiers : list uuid := random_generator <$> seq 0 (length batches).

(** The locals of a call whose configuration validates to [model_config]. *)
Definition locals_of (model_config : ModelConfig) : locals :=
  {| l_model_config := model_config;
     l_cache_manager_ptr := (theta_destination (pb_theta_matrix_type args)).1;
     l_return_theta := (theta_destination (pb_theta_matrix_type args)).2 |}.

(** The caller dispatches every batch, the workers acknowledge every
    identifier, the caller polls once more. *)
Definition fair_schedule : list turn :=
  Caller_runs :: replicate (length batches) Caller_runs
  ++ [Caller_runs]
  ++ (Worker_acknowledges <$> identifiers)
  ++ [Caller_runs].

End DispatchVocabulary.

(** The caller is past the loop of lines 294-312; the caller is past the
    wait loop of lines 314-316. *)
Definition has_dispatched {collaborators : Collaborators} (p : pc) : bool :=
  match p with Polling _ | Returned _ => true | _ => false end.

Definition has_returned {collaborators : Collaborators} (p : pc) : bool :=
  match p with Returned _ => true | _ => false end.

Definition sample_request : ProcessBatchesArgs := process_args (Some "T") ["b0"; "b1"].

Definition sample_validated : ModelConfig :=
  with_topics sample_matrix
    (initial_model_config (collaborators := sample_collaborators) sample_request).

Definition sample_locals : locals :=
  locals_of (collaborators := sample_collaborators) sample_request sample_validated.

Definition sample_result : ProcessBatchesResult (collaborators := sample_collaborators) :=
  collect sample_request sample_locals.

(** ** The persistence codec *)

(** A chunk as [ExportModel] frames it: the decimal length, then the bytes. *)
Definition frame (chunk : list byte) : list byte :=
  decimal (N.of_nat (length chunk)) ++ chunk.

(** The arguments [ExportModel] has accumulated for a group of tokens. *)
Definition chunk_args (name : string) (group : list Token) : GetTopicModelArgs :=
  {| gtm_model_name := name;
     gtm_request_type := RequestType_Nwt;
     gtm_use_sparse_format := true;
     gtm_token := keyword <$> group;
     gtm_class_id := class_id <$> group |}.

(** The groups the loop of lines 119-133 cuts the tokens into: [pending]
    are the tokens added since the last chunk. *)
Fixpoint chunk_groups (tokens_per_chunk : Z) (pending todo : list Token)
  : list (list Token) :=
  match todo with
  | [] => []
  | token :: todo' =>
      let pending := pending ++ [token] in
      if match todo' with [] => true | _ => false end
         || (tokens_per_chunk <=? Z.of_nat (length pending))
      then pending :: chunk_groups tokens_per_chunk [] todo'
      else chunk_groups tokens_per_chunk pending todo'
  end.

Definition tokens_per_chunk (budget : Z) (n_wt : PhiMatrix) : Z :=
  Z.min (token_size n_wt) (Z.quot budget (topic_size n_wt)).

(** The chunk messages an export of [n_wt] consists of. *)
Definition export_messages (budget : Z) (name : string) (n_wt : PhiMatrix)
  : list TopicModelMsg :=
  (fun group => RetrieveExternalTopicModel n_wt (chunk_args name group))
    <$> chunk_groups (tokens_per_chunk budget n_wt) [] (tokens n_wt).

(** How many turns the import loop may still take from a stream state. *)
Definition turns_needed (fin : ifstream) : nat :=
  if eofbit fin || failbit fin then 1 else length (rdbuf fin) + 2.

(** A matrix is well formed when its tokens are distinct and every row
    has one weight per topic. *)
Definition well_formed (m : PhiMatrix) : Prop :=
  NoDup (tokens m)
  ∧ Forall (fun r => length r.2 = length (topic_name m)) (rows m).

(** The value of a decimal numeral read on top of an accumulator. *)
Fixpoint horner (acc : Z) (d : Decimal.uint) : Z :=
  match d with
  | Decimal.Nil => acc
  | Decimal.D0 d => horner (10 * acc + 0) d
  | Decimal.D1 d => horner (10 * acc + 1) d
  | Decimal.D2 d => horner (10 * acc + 2) d
  | Decimal.D3 d => horner (10 * acc + 3) d
  | Decimal.D4 d => horner (10 * acc + 4) d
  | Decimal.D5 d => horner (10 * acc + 5) d
  | Decimal.D6 d => horner (10 * acc + 6) d
  | Decimal.D7 d => horner (10 * acc + 7) d
  | Decimal.D8 d => horner (10 * acc + 8) d
  | Decimal.D9 d => horner (10 * acc + 9) d
  end.

(** The row of a token in a list of rows, empty for an unknown token. *)
Fixpoint row_of (t : Token) (rs : list (Token * list weight)) : list weight :=
  match rs with
  | [] => []
  | (t', r) :: rs' => if decide (t = t') then r else row_of t rs'
  end.

(** The world after bytes were appended to a file. *)
Definition disk_append (name : string) (bs : list byte) (w : World) : World :=
  {| topic_model_ := topic_model_ w; phi_matrix_ := phi_matrix_ w;
     disk := <[name := default [] (disk w !! name) ++ bs]> (disk w);
     journal := journal w |}.

(** What one turn of the import loop makes of a chunk message, and what
    the loop makes of a list of them. *)
Definition import_message (args : ImportModelArgs) (target : option PhiMatrix)
    (topic_model : TopicModelMsg) : PhiMatrix :=
  let topic_model := set_name (im_model_name args) topic_model in
  ApplyTopicModelOperation topic_model 1%Qc
    match target with
    | None => DensePhiMatrix (im_model_name args) (tm_topic_name topic_model)
    | Some t => t
    end.

Definition import_messages (args : ImportModelArgs) (target : option PhiMatrix)
    (msgs : list TopicModelMsg) : option PhiMatrix :=
  foldl (fun t m => Some (import_message args t m)) target msgs.

(** The chunk can be framed and read back: it is not empty, its first byte
    is no decimal digit, and its length fits an [int]. *)
Definition framable (chunk : list byte) : Prop :=
  match chunk with
  | [] => False
  | b :: _ => isdigit b = false ∧ Z.of_nat (length chunk) <= INT_MAX
  end.

(** A codec for the examples.  It knows the chunks of [sample_matrix]: a
    chunk is written as the tag byte 0x0a followed by the keywords of its
    tokens, and read back from the list of known chunks. *)
Definition message_key (m : TopicModelMsg) : string :=
  String.concat "" ((fun r => keyword r.1) <$> tm_rows m).

Definition known_chunks : list TopicModelMsg :=
  (fun group => RetrieveExternalTopicModel sample_matrix (chunk_args "M" group))
    <$> [tokens sample_matrix; take 1 (tokens sample_matrix); drop 1 (tokens sample_matrix)].

Definition sample_codec : Codec :=
  {| SerializeAsString := fun m => x0a :: list_byte_of_string (message_key m);
     ParseFromArray := fun bs =>
       match bs with
       | x0a :: key =>
           List.find (fun m => String.eqb (message_key m) (string_of_list_byte key))
                     known_chunks
       | _ => None
       end;
     can_create := fun _ => true |}.

Definition export_args : ExportModelArgs :=
  {| em_file_name := "model.bin"; em_model_name := "M" |}.

Definition import_args : ImportModelArgs :=
  {| im_file_name := "model.bin"; im_model_name := "M3" |}.

Definition export_empty_args : ExportModelArgs :=
  {| em_file_name := "model.bin"; em_model_name := "E" |}.

(** A world whose disk holds one file. *)
Definition world_with_file (content : list byte) : World :=
  {| topic_model_ := ∅; phi_matrix_ := ∅;
     disk := {[ "model.bin" := content ]}; journal := [] |}.

(** A world whose only model is the raw matrix [E], without tokens. *)
Definition empty_matrix_world : World :=
  {| topic_model_ := ∅;
     phi_matrix_ := {[ "E" := DensePhiMatrix "E" ["t0"; "t1"] ]};
     disk := ∅; journal := [] |}.

Section CodecVocabulary.

Context {codec : Codec}.

(** The states the import loop passes through: from the head of a turn
    to the head of a later turn. *)
Inductive reaches (args : ImportModelArgs)
  : ifstream -> option PhiMatrix -> ifstream -> option PhiMatrix -> Prop :=
  | reaches_here fin target : reaches args fin target fin target
  | reaches_turn fin target fin1 target1 fin' target' :
      eofbit fin = false ->
      import_turn args fin target = Loop_continues fin1 target1 ->
      reaches args fin1 (Some target1) fin' target' ->
      reaches args fin target fin' target'.

End CodecVocabulary.

(** ** Further vocabulary *)

(** The first of the three names of a [RegularizeModel] call that is not
    set, in the order the guards of lines 386-391 ask for them. *)
Definition first_missing_name (args : RegularizeModelArgs) : option string :=
  match rm_pwt_source_name args, rm_nwt_source_name args, rm_rwt_target_name args with
  | None, _, _ => Some "pwt_source_name"
  | Some _, None, _ => Some "nwt_source_name"
  | Some _, Some _, None => Some "rwt_target_name"
  | Some _, Some _, Some _ => None
  end.

(** [WaitIdle] whose first wait lasts 400 ms and whose second wait answers
    whether it was given a budget or the sentinel. *)
Definition overrun_wait_env : WaitEnv :=
  {| data_loader_WaitIdle := fun _ => true;
     merger_WaitIdle := fun a => timeout_milliseconds a =? -1;
     time_start := 5000000; time_end := 5400000 |}.

(** The regularizer matrix a [NormalizeModel] call resolves: none when no
    name is given ([Some None]), the matrix of the name when it exists,
    and [None] when the name is given and nothing is stored under it. *)
Definition rwt_source (w : World) (args : NormalizeModelArgs) : option (option PhiMatrix) :=
  match nm_rwt_source_name args with
  | None => Some None
  | Some rwt => Some <$> pwt_source w rwt
  end.

(** The four lookups of lines 423-431. *)
Definition normalize_lookups (args : NormalizeModelArgs) : list call :=
  [Merger_GetLatestTopicModel (default "" (nm_nwt_source_name args));
   Merger_GetPhiMatrix (default "" (nm_nwt_source_name args));
   Merger_GetLatestTopicModel (default "" (nm_rwt_source_name args));
   Merger_GetPhiMatrix (default "" (nm_rwt_source_name args))].

Definition normalize_args (pwt nwt : string) (rwt : option string) : NormalizeModelArgs :=
  {| nm_pwt_target_name := Some pwt; nm_nwt_source_name := Some nwt;
     nm_rwt_source_name := rwt |}.

(** An instance for the examples: it remembers the configurations it was
    constructed and reconfigured with, and accepts every one. *)
Definition sample_instance_ops : InstanceOps :=
  {| instance := list MasterComponentConfig;
     new_Instance := fun config => Returns [config];
     Instance_Reconfigure := fun config i => (Returns tt, i ++ [config]) |}.

Definition sample_master_config (disk_path : string) : MasterComponentConfig :=
  {| mcc_disk_path := disk_path; mcc_processors_count := 4;
     mcc_processor_queue_max_size := None; mcc_cache_theta := false;
     mcc_score_config := ["perplexity"] |}.

(** The configuration [Reconfigure] stores for the one it is given: the
    queue size defaults to the number of processors. *)
Definition stored_config (user_config : MasterComponentConfig) : MasterComponentConfig :=
  {| mcc_disk_path := mcc_disk_path user_config;
     mcc_processors_count := mcc_processors_count user_config;
     mcc_processor_queue_max_size :=
       Some (default (mcc_processors_count user_config)
                     (mcc_processor_queue_max_size user_config));
     mcc_cache_theta := mcc_cache_theta user_config;
     mcc_score_config := mcc_score_config user_config |}.

(** The master component after a sequence of [Reconfigure] calls whose
    exceptions the caller caught. *)
Definition reconfigured {instance_ops : InstanceOps}
    (this : MasterComponent) (configs : list MasterComponentConfig) : MasterComponent :=
  foldl (fun this config => (Reconfigure config this).2) this configs.

(** A world whose only model is the raw matrix [E], with a token and no
    topic. *)
Definition topicless_world : World :=
  {| topic_model_ := ∅;
     phi_matrix_ := {[ "E" := {| model_name := "E"; topic_name := [];
                                 rows := [(mkToken "c" "a", [])] |} ]};
     disk := ∅; journal := [] |}.

(** A request against the model [M] with no batch. *)
Definition idle_request : ProcessBatchesArgs := process_args (Some "T") [].

(** ** A chunk codec that writes everything *)

(** A serializer and parser for the examples that writes the whole of a
    chunk message and reads it back.  A number is its decimal text closed
    by a semicolon, a string its length and its bytes, a list its length
    and its items, a weight its numerator with a sign and its
    denominator; a message starts with the tag byte 0x0a. *)
Definition put_N (n : N) : list byte := decimal n ++ [x3b].

Definition get_N (bs : list byte) : option (N * list byte) :=
  match bs with
  | b :: _ =>
      if isdigit b then
        match scan_digits 0 bs with
        | (v, b' :: rest) => if Byte.eqb b' x3b then Some (Z.to_N v, rest) else None
        | (_, []) => None
        end
      else None
  | [] => None
  end.

Definition put_string (s : string) : list byte :=
  put_N (N.of_nat (length (list_byte_of_string s))) ++ list_byte_of_string s.

Definition get_string (bs : list byte) : option (string * list byte) :=
  '(n, rest) ← get_N bs;
  if (N.to_nat n <=? length rest)%nat
  then Some (string_of_list_byte (take (N.to_nat n) rest), drop (N.to_nat n) rest)
  else None.

Fixpoint get_items {A} (get : list byte -> option (A * list byte)) (n : nat)
    (bs : list byte) : option (list A * list byte) :=
  match n with
  | O => Some ([], bs)
  | S n =>
      '(a, rest) ← get bs;
      '(l, rest) ← get_items get n rest;
      Some (a :: l, rest)
  end.

Definition put_list {A} (put : A -> list byte) (l : list A) : list byte :=
  put_N (N.of_nat (length l)) ++ concat (put <$> l).

Definition get_list {A} (get : list byte -> option (A * list byte)) (bs : list byte)
  : option (list A * list byte) :=
  '(n, rest) ← get_N bs; get_items get (N.to_nat n) rest.

Definition put_Z (z : Z) : list byte :=
  (if z <? 0 then x2d else x2b) :: put_N (Z.abs_N z).

Definition get_Z (bs : list byte) : option (Z * list byte) :=
  match bs with
  | b :: rest =>
      '(n, rest) ← get_N rest;
      if Byte.eqb b x2d then Some (- Z.of_N n, rest)
      else if Byte.eqb b x2b then Some (Z.of_N n, rest)
      else None
  | [] => None
  end.

Definition put_weight (v : weight) : list byte :=
  put_Z (Qnum (this v)) ++ put_N (Npos (Qden (this v))).

Definition get_weight (bs : list byte) : option (weight * list byte) :=
  '(n, rest) ← get_Z bs;
  '(d, rest) ← get_N rest;
  match d with
  | Npos d => Some (Q2Qc (n # d), rest)
  | N0 => None
  end.

Definition put_pair (p : nat * weight) : list byte :=
  put_N (N.of_nat p.1) ++ put_weight p.2.

Definition get_pair (bs : list byte) : option ((nat * weight) * list byte) :=
  '(i, rest) ← get_N bs;
  '(v, rest) ← get_weight rest;
  Some ((N.to_nat i, v), rest).

Definition put_row (r : Token * list (nat * weight)) : list byte :=
  put_string (class_id r.1) ++ put_string (keyword r.1) ++ put_list put_pair r.2.

Definition get_row (bs : list byte) : option ((Token * list (nat * weight)) * list byte) :=
  '(c, rest) ← get_string bs;
  '(k, rest) ← get_string rest;
  '(pairs, rest) ← get_list get_pair rest;
  Some ((mkToken c k, pairs), rest).

Definition put_message (m : TopicModelMsg) : list byte :=
  x0a :: put_string (tm_name m) ++ put_list put_string (tm_topic_name m)
      ++ put_list put_row (tm_rows m).

Definition get_message (bs : list byte) : option TopicModelMsg :=
  match bs with
  | b :: rest =>
      if Byte.eqb b x0a then
        '(name, rest) ← get_string rest;
        '(topics, rest) ← get_list get_string rest;
        '(rows, rest) ← get_list get_row rest;
        match rest with
        | [] => Some {| tm_name := name; tm_topic_name := topics; tm_rows := rows |}
        | _ :: _ => None
        end
      else None
  | [] => None
  end.

Definition wire_codec : Codec :=
  {| SerializeAsString := put_message;
     ParseFromArray := get_message;
     can_create := fun _ => true |}.

(** A matrix with weights other than those of [sample_matrix], among them
    a negative one and a fraction, and a world that holds it. *)
Definition other_matrix : PhiMatrix :=
  {| model_name := "M";
     topic_name := ["t0"; "t1"];
     rows := [ (mkToken "@default_class" "a", [Q2Qc (7 # 2); Q2Qc (-3)]);
               (mkToken "@default_class" "b", [0%Qc; Q2Qc (1 # 3)]) ] |}.

Definition other_world : World :=
  {| topic_model_ := ∅; phi_matrix_ := {[ "M" := other_matrix ]};
     disk := ∅; journal := [] |}.

(** * Properties *)

(** ** Sample data *)

(** ** CreateOrReconfigureModel *)

(** C8: a configuration that sets per-class weights while dense mode is
    selected makes [CreateOrReconfigureModel] throw invalid-operation, and
    the state, journal of collaborator calls included, is as before the
    call: the instance was never reached. *)
Theorem CreateOrReconfigureModel_rejects_class_weights_in_dense_mode
    (config : ModelConfig) (w : World) :
  mc_class_weight config ≠ [] ->
  mc_use_sparse_bow config = false ->
  ∃ what, CreateOrReconfigureModel config w = (Throws (InvalidOperation what), w).
Proof.
  intros Hweights Hdense. unfold CreateOrReconfigureModel.
  rewrite Hdense. destruct (mc_class_weight config) as [|x l]; [done|].
  simpl. eauto.
Qed.

Lemma CreateOrReconfigureModel_rejects_class_weights_in_dense_mode_witness :
  ∃ what, CreateOrReconfigureModel (sample_config false) empty_world
          = (Throws (InvalidOperation what), empty_world).
Proof.
  apply (CreateOrReconfigureModel_rejects_class_weights_in_dense_mode
           (sample_config false) empty_world); [discriminate | reflexivity].
Defined.

(** In sparse mode the same configuration reaches the instance. *)
Example CreateOrReconfigureModel_sparse_reaches_instance :
  CreateOrReconfigureModel (sample_config true) empty_world
  = (Returns tt, record (Instance_CreateOrReconfigureModel (sample_config true)) empty_world).
Proof. reflexivity. Qed.

(** ** WaitIdle *)

Lemma wrap32_in_int (z : Z) : in_int z -> wrap32 z = z.
Proof.
  unfold in_int, INT_MIN, INT_MAX, wrap32. intros H.
  rewrite Z.mod_small by lia. lia.
Qed.

(** C7: when the first wait (pending batches) answers not idle, [WaitIdle]
    returns false and the second wait is never called.  Otherwise the
    second wait is called once, with the elapsed milliseconds of the first
    wait subtracted from the timeout (in [int] arithmetic), except that a
    timeout of -1 is handed over as it is. *)
Theorem WaitIdle_shares_the_budget (env : WaitEnv) (args : WaitIdleArgs) (w : World) :
  let timeout := timeout_milliseconds args in
  let elapsed := total_milliseconds (time_end env - time_start env) in
  let warning :=
    if timeout =? 0 then [LOG_WARNING "WaitIdleArgs.timeout_milliseconds == 0"] else [] in
  let new_args := second_wait_args env args in
  (data_loader_WaitIdle env args = false ->
     (WaitIdle env args w).1 = Returns false
     ∧ journal (WaitIdle env args w).2
       = journal w ++ warning ++ [DataLoader_WaitIdle args])
  ∧ (data_loader_WaitIdle env args = true ->
     (WaitIdle env args w).1 = Returns (merger_WaitIdle env new_args)
     ∧ journal (WaitIdle env args w).2
       = journal w ++ warning ++ [DataLoader_WaitIdle args; Merger_WaitIdle new_args])
  ∧ (timeout = -1 -> timeout_milliseconds new_args = -1)
  ∧ (timeout ≠ -1 -> in_int (timeout - elapsed) ->
     timeout_milliseconds new_args = timeout - elapsed).
Proof.
  intros timeout elapsed warning new_args.
  assert (Hargs : new_args = if negb (timeout =? -1)
                             then {| timeout_milliseconds := wrap32 (timeout - elapsed) |}
                             else args).
  { unfold new_args, second_wait_args. fold timeout. fold elapsed.
    destruct (Z.eqb_spec timeout (-1)) as [E|E]; simpl; [|done].
    destruct args as [t]. simpl in *. unfold timeout in E. simpl in E. by subst. }
  split; [|split; [|split]].
  - intros Hfirst. unfold WaitIdle. fold timeout. subst warning.
    unfold mbind, M_bind, log_warning, invoke, mret, M_ret.
    destruct (timeout =? 0); simpl; rewrite Hfirst; simpl;
      rewrite <- ?app_assoc; done.
  - intros Hfirst. unfold WaitIdle. fold timeout. fold elapsed. subst warning.
    rewrite <- Hargs.
    unfold mbind, M_bind, log_warning, invoke, mret, M_ret.
    destruct (timeout =? 0); simpl; rewrite Hfirst; simpl;
      rewrite <- ?app_assoc; done.
  - intros E. unfold new_args, second_wait_args. fold timeout. by rewrite E.
  - intros E Hrange. unfold new_args, second_wait_args. fold timeout. fold elapsed.
    simpl. destruct (Z.eqb_spec timeout (-1)); [done|]. by apply wrap32_in_int.
Qed.

Lemma WaitIdle_shares_the_budget_witness :
  timeout_milliseconds (second_wait_args sample_wait_env {| timeout_milliseconds := 1000 |})
  = 600
  ∧ (WaitIdle sample_wait_env {| timeout_milliseconds := 1000 |} empty_world).1
    = Returns true.
Proof.
  destruct (WaitIdle_shares_the_budget sample_wait_env
              {| timeout_milliseconds := 1000 |} empty_world)
    as (_ & Hsecond & _ & Hbudget).
  split.
  - rewrite Hbudget; [reflexivity | discriminate | ].
    unfold in_int, INT_MIN, INT_MAX. vm_compute. split; discriminate.
  - rewrite (proj1 (Hsecond eq_refl)). reflexivity.
Defined.

(** [WaitIdle(-1)] hands -1 to the second wait whatever the clock says. *)
Example WaitIdle_unbounded_is_kept :
  journal (WaitIdle sample_wait_env {| timeout_milliseconds := -1 |} empty_world).2
  = [DataLoader_WaitIdle {| timeout_milliseconds := -1 |};
     Merger_WaitIdle {| timeout_milliseconds := -1 |}].
Proof. reflexivity. Qed.

(** ** Journals and frames *)

Lemma record_journal_add c w : record c w = journal_add [c] w.
Proof. reflexivity. Qed.

Lemma journal_add_add j1 j2 w : journal_add j2 (journal_add j1 w) = journal_add (j1 ++ j2) w.
Proof. unfold journal_add. simpl. by rewrite app_assoc. Qed.

Lemma topic_model_journal_add j w : topic_model_ (journal_add j w) = topic_model_ w.
Proof. reflexivity. Qed.

Lemma phi_matrix_journal_add j w : phi_matrix_ (journal_add j w) = phi_matrix_ w.
Proof. reflexivity. Qed.

Lemma disk_journal_add j w : disk (journal_add j w) = disk w.
Proof. reflexivity. Qed.

Lemma journal_add_nil w : journal_add [] w = w.
Proof. destruct w. unfold journal_add. simpl. by rewrite app_nil_r. Qed.

Lemma string_app_assoc (a b c : string) : (a +:+ b) +:+ c = a +:+ b +:+ c.
Proof.
  induction a as [|x a IH]; [done|].
  change (String x ((a +:+ b) +:+ c) = String x (a +:+ b +:+ c)). by f_equal.
Qed.

Lemma string_app_nil_r (a : string) : a +:+ "" = a.
Proof.
  induction a as [|x a IH]; [done|].
  change (String x (a +:+ "") = String x a). by f_equal.
Qed.

(** ** MergeModel *)

Lemma model_exists_nwt_source w name :
  model_exists w name = true <-> is_Some (nwt_source w name).
Proof.
  unfold model_exists, nwt_source.
  destruct (topic_model_ w !! name) as [tm|]; simpl.
  - split; [eauto | done].
  - rewrite bool_decide_eq_true. done.
Qed.

Lemma model_exists_false w name :
  model_exists w name = false <-> nwt_source w name = None.
Proof.
  rewrite <- not_true_iff_false, model_exists_nwt_source.
  rewrite <- eq_None_not_Some. done.
Qed.

Lemma nwt_source_journal_add j w name :
  nwt_source (journal_add j w) name = nwt_source w name.
Proof. reflexivity. Qed.

Lemma merged_journal_add j w args srcs t :
  merged (journal_add j w) args srcs t = merged w args srcs t.
Proof.
  revert t. induction srcs as [|[name weight] srcs IH]; intros t; simpl; [done|].
  rewrite nwt_source_journal_add. destruct (nwt_source w name); apply IH.
Qed.

Lemma merge_journal_journal_add j w names :
  merge_journal (journal_add j w) names = merge_journal w names.
Proof. induction names as [|n names IH]; simpl; [done | by rewrite IH]. Qed.

(** The loop as a whole: it always returns, and only the journal changes. *)
Lemma merge_loop_eq args srcs : forall i nwt_target ss w,
  merge_loop args i srcs nwt_target ss w
  = (Returns (merged w args srcs nwt_target, merge_names i srcs.*1 ss),
     journal_add (merge_journal w srcs.*1) w).
Proof.
  induction srcs as [|[name weight] srcs IH]; intros i t ss w.
  - simpl. by rewrite journal_add_nil.
  - cbn [merge_loop merged merge_names merge_journal fmap list_fmap fst].
    unfold mbind, M_bind, GetLatestTopicModel, GetPhiMatrix, log_warning.
    rewrite !record_journal_add, !journal_add_add.
    rewrite ?topic_model_journal_add, ?phi_matrix_journal_add.
    unfold nwt_source, model_exists, merge_one.
    destruct (topic_model_ w !! name) as [tm|] eqn:Etm;
      [|destruct (phi_matrix_ w !! name) as [pm|] eqn:Epm].
    + rewrite IH. rewrite merged_journal_add, merge_journal_journal_add.
      rewrite journal_add_add. simpl. reflexivity.
    + rewrite IH. rewrite merged_journal_add, merge_journal_journal_add.
      rewrite journal_add_add. simpl. reflexivity.
    + rewrite !record_journal_add, journal_add_add. rewrite IH.
      rewrite merged_journal_add, merge_journal_journal_add.
      rewrite journal_add_add. simpl. reflexivity.
Qed.

Lemma merge_names_app i names ss :
  merge_names (S i) names ss
  = ss +:+ foldr (fun n acc => ", " +:+ n +:+ acc) "" names.
Proof.
  revert i ss. induction names as [|n names IH]; intros i ss; simpl.
  - by rewrite string_app_nil_r.
  - rewrite IH. by rewrite !string_app_assoc.
Qed.

Lemma concat_cons (n : string) (names : list string) :
  String.concat ", " (n :: names)
  = n +:+ foldr (fun n acc => ", " +:+ n +:+ acc) "" names.
Proof.
  revert n. induction names as [|n' names IH]; intros n.
  - simpl. by rewrite string_app_nil_r.
  - change (String.concat ", " (n :: n' :: names))
      with (n +:+ ", " +:+ String.concat ", " (n' :: names)).
    by rewrite IH.
Qed.

Lemma merge_names_concat names : merge_names 0 names "" = String.concat ", " names.
Proof.
  destruct names as [|n names]; [done|].
  rewrite concat_cons. simpl. by rewrite merge_names_app.
Qed.

Lemma merged_None w args srcs t :
  merged w args srcs t = None
  <-> t = None ∧ Forall (fun name => model_exists w name = false) srcs.*1.
Proof.
  revert t. induction srcs as [|[name weight] srcs IH]; intros t; simpl.
  - split; [intros ->; by split | by intros [-> _]].
  - rewrite Forall_cons, model_exists_false.
    destruct (nwt_source w name) as [n_wt|]; rewrite IH.
    + split; [by intros [? _] | by intros (_ & ? & _)].
    + split; [intros [? ?]; auto | intros (? & _ & ?); auto].
Qed.

(** Sources that do not exist contribute nothing. *)
Lemma merged_existing_only w args srcs t :
  merged w args (filter (fun p => model_exists w p.1 = true) srcs) t
  = merged w args srcs t.
Proof.
  revert t. induction srcs as [|[name weight] srcs IH]; intros t; [done|].
  rewrite filter_cons. simpl.
  destruct (nwt_source w name) as [n_wt|] eqn:E.
  - assert (model_exists w name = true) as Hex
      by (apply model_exists_nwt_source; rewrite E; eauto).
    rewrite decide_True by done. simpl. rewrite E. apply IH.
  - assert (model_exists w name = false) as Hex by (by apply model_exists_false).
    rewrite decide_False by (rewrite Hex; discriminate). apply IH.
Qed.

(** [MergeModel] once its arguments pass the checks of lines 338-342. *)
Lemma MergeModel_eq args w :
  mm_nwt_source_name args ≠ [] ->
  length (mm_nwt_source_name args) = length (mm_source_weight args) ->
  MergeModel args w
  = let w' := journal_add (merge_journal w (mm_nwt_source_name args)) w in
    match merged w args (zip (mm_nwt_source_name args) (mm_source_weight args)) None with
    | None =>
        (Throws (InvalidOperation
           ("ArtmMergeModel() have not found any models to merge. "
            +:+ "Verify that at least one of the following models exist: "
            +:+ String.concat ", " (mm_nwt_source_name args))), w')
    | Some t => SetPhiMatrix (mm_nwt_target_name args) t w'
    end.
Proof.
  intros Hne Hlen. unfold MergeModel.
  destruct (mm_nwt_source_name args) as [|n names] eqn:En; [done|].
  rewrite <- En in *.
  replace (length (mm_nwt_source_name args) =? 0)%nat with false
    by (rewrite En; reflexivity).
  rewrite Hlen, Nat.eqb_refl. cbn [negb].
  unfold mbind, M_bind. rewrite merge_loop_eq.
  rewrite fst_zip by lia. rewrite merge_names_concat.
  by destruct (merged w args _ None).
Qed.

Lemma MergeModel_needs_matching_lists args w :
  length (mm_nwt_source_name args) ≠ length (mm_source_weight args) ->
  returns (MergeModel args w).1 = false.
Proof.
  intros H. unfold MergeModel.
  destruct (length (mm_nwt_source_name args) =? 0)%nat eqn:E0; [done|].
  apply Nat.eqb_neq in H. by rewrite H.
Qed.

(** C10: with an empty list of source names, or with a number of source
    weights other than the number of source names, [MergeModel] throws
    invalid-operation and the state, journal included, is as before the
    call: no matrix was read or published. *)
Theorem MergeModel_rejects_malformed_source_lists (args : MergeModelArgs) (w : World) :
  mm_nwt_source_name args = []
  ∨ length (mm_nwt_source_name args) ≠ length (mm_source_weight args) ->
  ∃ what, MergeModel args w = (Throws (InvalidOperation what), w).
Proof.
  intros [Hempty|Hlen]; unfold MergeModel.
  - rewrite Hempty. simpl. eauto.
  - destruct (mm_nwt_source_name args) as [|n names]; simpl; [eauto|].
    destruct (mm_source_weight args) as [|x weights]; simpl; [eauto|].
    simpl in Hlen. destruct (Nat.eqb_spec (length names) (length weights)) as [E|E].
    + by rewrite E in Hlen.
    + simpl. eauto.
Qed.

Lemma MergeModel_rejects_malformed_source_lists_witness :
  ∃ what, MergeModel (merge_args ["M"] []) raw_world
          = (Throws (InvalidOperation what), raw_world).
Proof.
  apply (MergeModel_rejects_malformed_source_lists (merge_args ["M"] []) raw_world).
  right. simpl. discriminate.
Defined.

(** The claim that a call with a non-empty source list fails exactly when
    no source exists does not hold as it stands: here the only source
    exists and the call fails all the same, for want of a weight. *)
Lemma MergeModel_fails_although_its_source_exists :
  mm_nwt_source_name (merge_args ["M"] []) ≠ []
  ∧ model_exists raw_world "M" = true
  ∧ is_invalid_operation (MergeModel (merge_args ["M"] []) raw_world).1 = true.
Proof. split; [discriminate | split; reflexivity]. Qed.

Lemma warnings_app j1 j2 : warnings (j1 ++ j2) = warnings j1 ++ warnings j2.
Proof. unfold warnings. by rewrite omap_app. Qed.

Lemma warnings_merge_journal w names :
  warnings (merge_journal w names)
  = (fun name => "Model " +:+ name +:+ " does not exist")
      <$> filter (fun name => model_exists w name = false) names.
Proof.
  induction names as [|n names IH]; [done|].
  rewrite filter_cons. cbn [merge_journal]. unfold warnings in *.
  rewrite !omap_app. cbn [omap list_omap app].
  destruct (model_exists w n) eqn:E.
  - rewrite decide_False by discriminate. apply IH.
  - rewrite decide_True by done. cbn. by rewrite IH.
Qed.

Lemma merged_independent_of_names w a1 a2 srcs t :
  mm_nwt_target_name a1 = mm_nwt_target_name a2 ->
  mm_topic_name a1 = mm_topic_name a2 ->
  merged w a1 srcs t = merged w a2 srcs t.
Proof.
  intros Ht Hn. revert t.
  induction srcs as [|[name weight] srcs IH]; intros t; simpl; [done|].
  destruct (nwt_source w name); [|apply IH].
  unfold merge_one. rewrite Ht, Hn. apply IH.
Qed.

(** C5, as amended: for a call with a non-empty source list and as many
    weights as names, (1) the call fails exactly when no named source
    exists, and then with invalid-operation, its message listing every
    requested name, and nothing is published; (2) otherwise it returns, each
    missing source is logged as a warning, and the matrices published are
    those of the same call without the missing sources. *)
Theorem MergeModel_skips_missing_sources (args : MergeModelArgs) (w : World) :
  mm_nwt_source_name args ≠ [] ->
  length (mm_nwt_source_name args) = length (mm_source_weight args) ->
  let none_exists :=
    Forall (fun name => model_exists w name = false) (mm_nwt_source_name args) in
  (none_exists <-> returns (MergeModel args w).1 = false)
  ∧ (none_exists ->
       (MergeModel args w).1
       = Throws (InvalidOperation
           ("ArtmMergeModel() have not found any models to merge. "
            +:+ "Verify that at least one of the following models exist: "
            +:+ String.concat ", " (mm_nwt_source_name args)))
       ∧ phi_matrix_ (MergeModel args w).2 = phi_matrix_ w)
  ∧ (¬ none_exists ->
       (MergeModel args w).1 = Returns tt
       ∧ phi_matrix_ (MergeModel args w).2
         = phi_matrix_ (MergeModel (existing_only w args) w).2)
  ∧ warnings (journal (MergeModel args w).2)
    = warnings (journal w)
      ++ ((fun name => "Model " +:+ name +:+ " does not exist")
            <$> filter (fun name => model_exists w name = false)
                       (mm_nwt_source_name args)).
Proof.
  intros Hne Hlen none_exists.
  rewrite (MergeModel_eq args w Hne Hlen). cbv zeta.
  pose proof (merged_None w args
                (zip (mm_nwt_source_name args) (mm_source_weight args)) None) as HN.
  rewrite fst_zip in HN by lia. fold none_exists in HN.
  destruct (merged w args _ None) as [t|] eqn:Em.
  - assert (¬ none_exists) as Hsome.
    { intros Hnone. destruct HN as [_ HN]. by specialize (HN (conj eq_refl Hnone)). }
    split; [|split; [|split]].
    + simpl. split; [done | discriminate].
    + done.
    + intros _. split; [reflexivity|].
      (* the same call without the missing sources *)
      set (srcs := filter (fun p => model_exists w p.1 = true)
                     (zip (mm_nwt_source_name args) (mm_source_weight args))).
      assert (Hm' : merged w (existing_only w args) srcs None = Some t).
      { rewrite (merged_independent_of_names w _ args) by done.
        unfold srcs. by rewrite merged_existing_only. }
      assert (Hzip : zip srcs.*1 srcs.*2 = srcs) by apply zip_fst_snd.
      assert (Hne' : mm_nwt_source_name (existing_only w args) ≠ []).
      { intros Hnil. unfold existing_only in Hnil. simpl in Hnil. fold srcs in Hnil.
        apply fmap_nil_inv in Hnil. rewrite Hnil in Hm'. done. }
      rewrite (MergeModel_eq (existing_only w args) w Hne')
        by (unfold existing_only; simpl; by rewrite !length_fmap).
      cbv zeta. unfold existing_only at 2 3. simpl mm_nwt_source_name.
      simpl mm_source_weight. fold srcs. rewrite Hzip, Hm'. reflexivity.
    + cbn [SetPhiMatrix record journal_add journal snd].
      rewrite !warnings_app, warnings_merge_journal. cbn. by rewrite app_nil_r.
  - assert (none_exists) as Hnone by (by apply HN).
    split; [|split; [|split]].
    + done.
    + done.
    + done.
    + cbn [journal_add journal snd]. by rewrite warnings_app, warnings_merge_journal.
Qed.

Lemma MergeModel_skips_missing_sources_witness :
  (MergeModel (merge_args ["M"; "X"] [2%Qc; 1%Qc]) raw_world).1 = Returns tt
  ∧ warnings (journal (MergeModel (merge_args ["M"; "X"] [2%Qc; 1%Qc]) raw_world).2)
    = ["Model X does not exist"].
Proof.
  destruct (MergeModel_skips_missing_sources
              (merge_args ["M"; "X"] [2%Qc; 1%Qc]) raw_world)
    as (_ & _ & Hsome & Hwarn); [discriminate | reflexivity |].
  split.
  - apply Hsome. intros Hnone. apply Forall_cons in Hnone as [HM _]. discriminate HM.
  - rewrite Hwarn. reflexivity.
Defined.

(** When no source exists the message names every requested source. *)
Example MergeModel_names_all_requested_sources :
  (MergeModel (merge_args ["X"; "Y"; "Z"] [1%Qc; 1%Qc; 1%Qc]) raw_world).1
  = Throws (InvalidOperation
      ("ArtmMergeModel() have not found any models to merge. "
       +:+ "Verify that at least one of the following models exist: X, Y, Z")).
Proof. reflexivity. Qed.

(** *** Topic names of the target *)

Lemma AddToken_topic_name t m : topic_name (AddToken t m) = topic_name m.
Proof. unfold AddToken. by destruct (token_index m t). Qed.

Lemma AddToken_model_name t m : model_name (AddToken t m) = model_name m.
Proof. unfold AddToken. by destruct (token_index m t). Qed.

Lemma foldl_invariant {A B} (P : A -> Prop) (f : A -> B -> A) (l : list B) (a : A) :
  (forall a b, P a -> P (f a b)) -> P a -> P (foldl f a l).
Proof.
  intros Hf. revert a. induction l as [|b l IH]; intros a Ha; simpl; [done|].
  apply IH. by apply Hf.
Qed.

Lemma apply_row_topic_name w m r : topic_name (apply_row w m r) = topic_name m.
Proof.
  unfold apply_row. destruct (token_index (AddToken r.1 m) r.1) as [id|].
  - rewrite <- (AddToken_topic_name r.1 m).
    apply (foldl_invariant (fun acc => topic_name acc = topic_name (AddToken r.1 m)));
      [|done].
    intros a b Ha. exact Ha.
  - apply AddToken_topic_name.
Qed.

Lemma ApplyTopicModelOperation_topic_name tm w m :
  topic_name (ApplyTopicModelOperation tm w m) = topic_name m.
Proof.
  unfold ApplyTopicModelOperation.
  apply (foldl_invariant (fun acc => topic_name acc = topic_name m)); [|done].
  intros a b Ha. by rewrite apply_row_topic_name.
Qed.

Lemma merge_one_topic_name_Some args t n_wt weight :
  topic_name (merge_one args (Some t) n_wt weight) = topic_name t.
Proof.
  unfold merge_one. destruct (0 <? token_size n_wt); [|done].
  apply ApplyTopicModelOperation_topic_name.
Qed.

Lemma merge_one_topic_name_None args n_wt weight :
  topic_name (merge_one args None n_wt weight)
  = match mm_topic_name args with [] => topic_name n_wt | names => names end.
Proof.
  unfold merge_one.
  assert (E : (if negb (length (mm_topic_name args) =? 0)%nat
               then mm_topic_name args else topic_name n_wt)
              = match mm_topic_name args with [] => topic_name n_wt | names => names end)
    by (by destruct (mm_topic_name args)).
  destruct (0 <? token_size n_wt);
    [rewrite ApplyTopicModelOperation_topic_name|]; simpl; exact E.
Qed.

Lemma merged_Some_topic_name w args srcs t0 :
  ∃ t, merged w args srcs (Some t0) = Some t ∧ topic_name t = topic_name t0.
Proof.
  revert t0. induction srcs as [|[name weight] srcs IH]; intros t0; simpl; [eauto|].
  destruct (nwt_source w name) as [n_wt|]; [|apply IH].
  destruct (IH (merge_one args (Some t0) n_wt weight)) as (t & Ht & Hn).
  exists t. split; [done|]. by rewrite Hn, merge_one_topic_name_Some.
Qed.

Lemma merged_first_located w args srcs t :
  merged w args srcs None = Some t ->
  ∃ first, first_located w srcs.*1 = Some first
    ∧ topic_name t
      = match mm_topic_name args with [] => topic_name first | names => names end.
Proof.
  induction srcs as [|[name weight] srcs IH]; simpl; [done|].
  unfold first_located. simpl.
  destruct (nwt_source w name) as [n_wt|] eqn:E.
  - intros Hm. exists n_wt. split; [done|].
    destruct (merged_Some_topic_name w args srcs (merge_one args None n_wt weight))
      as (t' & Ht' & Hn).
    rewrite Ht' in Hm. injection Hm as <-.
    by rewrite Hn, merge_one_topic_name_None.
  - apply IH.
Qed.

(** C6: when at least one named source exists, the call (given as many
    weights as names) returns, and whenever it returns the matrix published
    under the target name carries the topic names of the explicit override
    if one is given, and otherwise those of the first source, in argument
    order, that exists. *)
Theorem MergeModel_target_topic_names (args : MergeModelArgs) (w : World) :
  Exists (fun name => model_exists w name = true) (mm_nwt_source_name args) ->
  (length (mm_nwt_source_name args) = length (mm_source_weight args) ->
     (MergeModel args w).1 = Returns tt)
  ∧ ((MergeModel args w).1 = Returns tt ->
     ∃ t first,
       phi_matrix_ (MergeModel args w).2 !! mm_nwt_target_name args = Some t
       ∧ first_located w (mm_nwt_source_name args) = Some first
       ∧ topic_name t
         = match mm_topic_name args with
           | [] => topic_name first
           | names => names
           end).
Proof.
  intros Hex.
  assert (Hne : mm_nwt_source_name args ≠ [])
    by (intros E; rewrite E in Hex; by apply Exists_nil in Hex).
  assert (Hgood : length (mm_nwt_source_name args) = length (mm_source_weight args) ->
            ∃ t first,
              MergeModel args w
              = SetPhiMatrix (mm_nwt_target_name args) t
                  (journal_add (merge_journal w (mm_nwt_source_name args)) w)
              ∧ first_located w (mm_nwt_source_name args) = Some first
              ∧ topic_name t
                = match mm_topic_name args with
                  | [] => topic_name first
                  | names => names
                  end).
  { intros Hlen. rewrite (MergeModel_eq args w Hne Hlen). cbv zeta.
    destruct (merged w args _ None) as [t|] eqn:Em.
    - destruct (merged_first_located _ _ _ _ Em) as (first & Hfirst & Hn).
      rewrite fst_zip in Hfirst by lia. eauto.
    - apply merged_None in Em as [_ Hnone]. rewrite fst_zip in Hnone by lia.
      apply Exists_exists in Hex as (name & Hin & Htrue).
      rewrite Forall_forall in Hnone. specialize (Hnone name Hin). congruence. }
  split.
  - intros Hlen. destruct (Hgood Hlen) as (t & first & -> & _). reflexivity.
  - intros Hret.
    destruct (decide (length (mm_nwt_source_name args) = length (mm_source_weight args)))
      as [Hlen|Hlen].
    + destruct (Hgood Hlen) as (t & first & -> & Hfirst & Hn).
      exists t, first. split; [|done]. simpl. apply lookup_insert_eq.
    + pose proof (MergeModel_needs_matching_lists args w Hlen) as Hthrow.
      rewrite Hret in Hthrow. discriminate.
Qed.

Lemma MergeModel_target_topic_names_witness :
  ∃ t, phi_matrix_ (MergeModel (merge_args ["X"; "M"] [1%Qc; 2%Qc]) raw_world).2 !! "T"
       = Some t
       ∧ topic_name t = ["t0"; "t1"].
Proof.
  destruct (MergeModel_target_topic_names (merge_args ["X"; "M"] [1%Qc; 2%Qc]) raw_world)
    as [Hret Hnames].
  - apply Exists_cons_tl, Exists_cons_hd. reflexivity.
  - destruct (Hnames (Hret eq_refl)) as (t & first & Ht & Hfirst & Hn).
    exists t. split; [exact Ht|].
    rewrite Hn. simpl. injection Hfirst as <-. reflexivity.
Defined.

(** The scenario of the specification: merging [M], counts [1,0] and
    [0,2], with weight 2 gives counts [2,0] and [0,4]. *)
Example MergeModel_doubles_the_counts :
  counts_of
    <$> (phi_matrix_ (MergeModel (merge_args ["M"] [(1 + 1)%Qc]) raw_world).2 !! "T")
  = Some [("a", [2 # 1; 0 # 1]%Q); ("b", [0 # 1; 4 # 1]%Q)].
Proof. vm_compute. reflexivity. Qed.

(** An explicit override wins over the topic names of the sources. *)
Example MergeModel_topic_name_override :
  topic_name <$>
    (phi_matrix_
       (MergeModel {| mm_nwt_source_name := ["M"]; mm_source_weight := [2%Qc];
                      mm_nwt_target_name := "T"; mm_topic_name := ["u"] |}
          raw_world).2 !! "T")
  = Some ["u"].
Proof. vm_compute. reflexivity. Qed.

(** ** RegularizeModel *)

(** C9 fails on the code: when the counts source exists as a versioned
    model only, both sources exist and the three names are given, yet lines
    405-406 dereference the null [nwt_phi_matrix] instead of using [n_wt];
    the call ends in undefined behaviour and publishes nothing. *)
Theorem RegularizeModel_dereferences_null_raw_matrix
    (InvokePhiRegularizers :
       list RegularizerSettings -> PhiMatrix -> PhiMatrix -> PhiMatrix -> PhiMatrix)
    (args : RegularizeModelArgs) (w : World) (pwt nwt rwt : string) :
  rm_pwt_source_name args = Some pwt ->
  rm_nwt_source_name args = Some nwt ->
  rm_rwt_target_name args = Some rwt ->
  model_exists w pwt = true ->
  is_Some (topic_model_ w !! nwt) ->
  phi_matrix_ w !! nwt = None ->
  (RegularizeModel InvokePhiRegularizers args w).1
  = Undefined "nwt_phi_matrix is null"
  ∧ phi_matrix_ (RegularizeModel InvokePhiRegularizers args w).2 = phi_matrix_ w.
Proof.
  intros Hp Hn Hr Hex [tm Htm] Hphi.
  unfold RegularizeModel. rewrite Hp, Hn, Hr. cbn [default bool_decide negb].
  rewrite !bool_decide_eq_true_2 by eauto. cbn [negb].
  unfold mbind, M_bind, GetPhiMatrix, GetLatestTopicModel, id.
  rewrite !record_journal_add, ?journal_add_add,
    ?topic_model_journal_add, ?phi_matrix_journal_add.
  rewrite Hphi, Htm.
  rewrite !record_journal_add, ?journal_add_add,
    ?topic_model_journal_add, ?phi_matrix_journal_add.
  apply model_exists_nwt_source in Hex as [m Hm]. unfold nwt_source in Hm.
  destruct (topic_model_ w !! pwt) as [ptm|]; [done|].
  rewrite Hm. done.
Qed.

Lemma RegularizeModel_dereferences_null_raw_matrix_witness :
  (RegularizeModel (fun _ _ _ target => target) (regularize_args "V" "V" "R")
     versioned_world).1
  = Undefined "nwt_phi_matrix is null".
Proof.
  apply (RegularizeModel_dereferences_null_raw_matrix
           (fun _ _ _ target => target) (regularize_args "V" "V" "R")
           versioned_world "V" "V" "R");
    try reflexivity.
  exists sample_model. reflexivity.
Defined.

(** With the counts stored as a raw matrix the same call publishes the
    target, reshaped from the counts. *)
Example RegularizeModel_raw_counts :
  tokens <$>
    (phi_matrix_
       (RegularizeModel (fun _ _ _ target => target) (regularize_args "M" "M" "R")
          raw_world).2 !! "R")
  = Some (tokens sample_matrix).
Proof. vm_compute. reflexivity. Qed.

(** ** RequestProcessBatches *)

Lemma model_exists_pwt_source w name :
  model_exists w name = true <-> is_Some (pwt_source w name).
Proof.
  unfold model_exists, pwt_source.
  destruct (topic_model_ w !! name) as [tm|]; simpl.
  - split; [eauto | done].
  - rewrite bool_decide_eq_true. done.
Qed.

(** *** Reshape gives a zero matrix *)

Lemma find_token_None t rs : find_token t rs = None <-> t ∉ rs.*1.
Proof.
  induction rs as [|[t' r] rs IH]; simpl.
  - split; [intros _; apply not_elem_of_nil | done].
  - rewrite not_elem_of_cons. destruct (decide (t = t')) as [->|Hne].
    + split; [done | by intros [? _]].
    + rewrite fmap_None, IH. tauto.
Qed.

Lemma AddToken_zero t m : zero_matrix m -> zero_matrix (AddToken t m).
Proof.
  unfold zero_matrix, AddToken. intros Hz.
  destruct (token_index m t); [done|]. simpl.
  apply Forall_app. split; [done|]. by apply Forall_singleton.
Qed.

Lemma AddToken_tokens t m :
  tokens (AddToken t m) = if decide (t ∈ tokens m) then tokens m else tokens m ++ [t].
Proof.
  unfold AddToken, token_index, tokens.
  destruct (find_token t (rows m)) as [i|] eqn:E.
  - rewrite decide_True; [done|].
    destruct (decide (t ∈ (rows m).*1)) as [|Hn]; [done|].
    apply find_token_None in Hn. congruence.
  - apply find_token_None in E. rewrite decide_False by done.
    simpl. by rewrite fmap_app.
Qed.

Lemma Reshape_topic_name src m : topic_name (Reshape src m) = topic_name m.
Proof.
  unfold Reshape.
  apply (foldl_invariant (fun acc => topic_name acc = topic_name m)); [|done].
  intros a t Ha. by rewrite AddToken_topic_name.
Qed.

Lemma Reshape_zero src m : zero_matrix (Reshape src m).
Proof.
  unfold Reshape. apply (foldl_invariant zero_matrix).
  - intros a t Ha. by apply AddToken_zero.
  - unfold zero_matrix. simpl. constructor.
Qed.

Lemma Reshape_tokens_aux ts : forall acc,
  NoDup (tokens acc ++ ts) ->
  tokens (foldl (fun acc t => AddToken t acc) acc ts) = tokens acc ++ ts.
Proof.
  induction ts as [|t ts IH]; intros acc Hnd; simpl.
  - by rewrite app_nil_r.
  - rewrite IH.
    + rewrite AddToken_tokens. apply NoDup_app in Hnd as (_ & Hdisj & _).
      rewrite decide_False; [by rewrite <- app_assoc|].
      intros Hin. apply (Hdisj t Hin). apply elem_of_cons. by left.
    + rewrite AddToken_tokens. apply NoDup_app in Hnd as (Ha & Hdisj & Hts).
      rewrite decide_False
        by (intros Hin; apply (Hdisj t Hin); apply elem_of_cons; by left).
      rewrite <- app_assoc. simpl. apply NoDup_app. split; [done|]. split; [|done].
      intros x Hx. by apply Hdisj.
Qed.

(** The reshaped matrix has the tokens of the source, in order. *)
Lemma Reshape_tokens src m : NoDup (tokens src) -> tokens (Reshape src m) = tokens src.
Proof. intros Hnd. unfold Reshape. by rewrite Reshape_tokens_aux. Qed.

Section DispatchProperties.

Context {collaborators : Collaborators}.

Variable args : ProcessBatchesArgs.


Lemma prepare_eq w :
  prepare args w
  = match pwt_source w (pb_pwt_source_name args) with
    | None =>
        (Throws (InvalidOperation ("Model " +:+ (pb_pwt_source_name args) +:+ " does not exist")),
         journal_add (source_lookups args) w)
    | Some p_wt =>
        match pb_nwt_target_name args with
        | Some nwt_target_name =>
            if bool_decide (nwt_target_name = (pb_pwt_source_name args)) then
              (Throws (InvalidOperation
                 "ProcessBatchesArgs.pwt_source_name == ProcessBatchesArgs.nwt_target_name"),
               journal_add (source_lookups args) w)
            else
              after_publication args p_wt
                (SetPhiMatrix nwt_target_name (fresh_target nwt_target_name p_wt)
                   (journal_add (source_lookups args) w)).2
        | None => after_publication args p_wt (journal_add (source_lookups args) w)
        end
    end.
Proof.
  unfold prepare, pwt_source, after_publication, fresh_target.
  unfold mbind, M_bind, GetLatestTopicModel, GetPhiMatrix, lift, invoke.
  change (phi_matrix_ (record (Merger_GetLatestTopicModel (pb_pwt_source_name args)) w))
    with (phi_matrix_ w).
  assert (Hlookups : record (Merger_GetPhiMatrix (pb_pwt_source_name args))
                       (record (Merger_GetLatestTopicModel (pb_pwt_source_name args)) w)
                     = journal_add (source_lookups args) w)
    by (by rewrite !record_journal_add, journal_add_add).
  rewrite Hlookups.
  destruct (topic_model_ w !! (pb_pwt_source_name args)) as [tm|];
    [|destruct (phi_matrix_ w !! (pb_pwt_source_name args)) as [pm|]; [|reflexivity]];
    (destruct (pb_nwt_target_name args) as [t|];
     [destruct (bool_decide (t = (pb_pwt_source_name args))); [reflexivity|]|]);
    cbn [SetPhiMatrix snd];
    destruct (FixAndValidate _); try reflexivity;
    destruct (theta_destination (pb_theta_matrix_type args));
    destruct (pb_reset_scores args); reflexivity.
Qed.

(** *** The call as a state machine *)


Lemma invariant_enter w : invariant args w (enter w).
Proof. reflexivity. Qed.

Lemma invariant_caller_step w s : invariant args w s -> invariant args w (caller_step args s).
Proof.
  unfold invariant, caller_step.
  destruct s as [sw bm p acked]. cbn [cs_pc cs_world cs_batch_manager cs_acknowledged].
  destruct p as [|l i|l|r|e|why]; try done.
  - intros ->. destruct (prepare args w) as [[l|e|why] w1] eqn:E;
      cbn [cs_pc cs_world fst snd]; [|done|done].
    repeat split; [lia | by rewrite journal_add_nil | intros k Hk; lia].
  - intros (Hl & Hi & Hw & Htr).
    destruct ((pb_batch_filename args) !! i) as [f|] eqn:Ef; cbn [cs_pc cs_world cs_batch_manager
                                                  cs_acknowledged].
    + apply lookup_lt_Some in Ef as Hlt. repeat split; [done | lia | |].
      * rewrite Hw, !record_journal_add, !journal_add_add.
        cbn [dispatch_journal]. rewrite Ef. reflexivity.
      * intros k Hk. cbn [cs_batch_manager cs_acknowledged Add in_progress_].
        destruct (decide (k = i)) as [->|Hne]; [left; set_solver|].
        destruct (Htr k ltac:(lia)) as [Hin|Hin]; [left; set_solver | by right].
    + apply lookup_ge_None in Ef. assert (i = length (pb_batch_filename args)) as -> by lia. done.
  - intros (Hl & Hw & Htr).
    unfold IsEverythingProcessed. case_bool_decide as Hempty;
      cbn [cs_pc cs_world cs_batch_manager cs_acknowledged]; [|done].
    exists l. done.
Qed.

Lemma invariant_worker_step w task_id s :
  invariant args w s -> invariant args w (worker_step task_id s).
Proof.
  unfold invariant, worker_step.
  destruct s as [sw bm p acked]. cbn [cs_pc cs_world cs_batch_manager cs_acknowledged].
  assert (Htracked : forall i,
    tracked i {| cs_world := sw; cs_batch_manager := bm; cs_pc := p;
                 cs_acknowledged := acked |} ->
    forall p',
    tracked i {| cs_world := sw; cs_batch_manager := Callback task_id bm; cs_pc := p';
                 cs_acknowledged :=
                   if bool_decide (task_id ∈ in_progress_ bm)
                   then acked ++ [task_id] else acked |}).
  { intros i Htr p' k Hk. specialize (Htr k Hk).
    cbn [cs_batch_manager cs_acknowledged Callback in_progress_] in *.
    destruct Htr as [Hin|Hin].
    - destruct (decide (random_generator k = task_id)) as [<-|Hne].
      + right. rewrite bool_decide_eq_true_2 by done. set_solver.
      + left. set_solver.
    - right. case_bool_decide; set_solver. }
  destruct p as [|l i|l|r|e|why]; cbn [cs_pc cs_world cs_batch_manager cs_acknowledged];
    try done.
  - intros (Hl & Hi & Hw & Htr). repeat split; try done. by apply Htracked.
  - intros (Hl & Hw & Htr). repeat split; try done. by apply Htracked.
Qed.

Lemma invariant_run w schedule : invariant args w (run args schedule w).
Proof.
  unfold run.
  induction schedule as [|t schedule IH] using rev_ind.
  - apply invariant_enter.
  - rewrite foldl_app. cbn [foldl]. destruct t as [|task_id].
    + by apply invariant_caller_step.
    + by apply invariant_worker_step.
Qed.

Lemma registered_app j1 j2 : registered (j1 ++ j2) = registered j1 ++ registered j2.
Proof. unfold registered. by rewrite omap_app. Qed.

Lemma enqueued_app j1 j2 : enqueued (j1 ++ j2) = enqueued j1 ++ enqueued j2.
Proof. unfold enqueued. by rewrite omap_app. Qed.

Lemma published_app j1 j2 : published (j1 ++ j2) = published j1 ++ published j2.
Proof. unfold published. by rewrite omap_app. Qed.

Lemma registered_dispatch_journal l i :
  (i <= length (pb_batch_filename args))%nat ->
  registered (dispatch_journal args l i) = random_generator <$> seq 0 i.
Proof.
  induction i as [|i IH]; intros Hi; [done|].
  cbn [dispatch_journal]. rewrite registered_app, IH by lia.
  destruct (lookup_lt_is_Some_2 (pb_batch_filename args) i ltac:(lia)) as [f ->].
  rewrite seq_S, fmap_app. reflexivity.
Qed.

Lemma enqueued_dispatch_journal l i :
  (i <= length (pb_batch_filename args))%nat ->
  enqueued (dispatch_journal args l i)
  = imap (fun k batch_filename =>
            work_item args l (random_generator k) batch_filename)
         (take i (pb_batch_filename args)).
Proof.
  induction i as [|i IH]; intros Hi; [done|].
  cbn [dispatch_journal]. rewrite enqueued_app, IH by lia.
  destruct (lookup_lt_is_Some_2 (pb_batch_filename args) i ltac:(lia)) as [f Hf]. rewrite Hf.
  rewrite (take_S_r _ _ _ Hf), imap_app. cbn [enqueued omap list_omap imap app].
  rewrite length_take, Nat.min_l by lia. by rewrite Nat.add_0_r.
Qed.

Lemma published_dispatch_journal l i : published (dispatch_journal args l i) = [].
Proof.
  induction i as [|i IH]; [done|].
  cbn [dispatch_journal]. rewrite published_app, IH.
  by destruct ((pb_batch_filename args) !! i).
Qed.

(** The journal of the preparation holds no registration and no work
    item. *)
Lemma prepare_journal w :
  ∃ j, journal (prepare args w).2 = journal w ++ j
       ∧ registered j = [] ∧ enqueued j = [].
Proof.
  rewrite prepare_eq. unfold after_publication.
  destruct (pwt_source w (pb_pwt_source_name args)) as [p_wt|]; [|by exists (source_lookups args)].
  destruct (pb_nwt_target_name args) as [t|];
    [destruct (bool_decide (t = (pb_pwt_source_name args))); [by exists (source_lookups args)|]|];
    destruct (FixAndValidate _); cbn [snd SetPhiMatrix];
    try destruct (pb_reset_scores args);
    rewrite ?record_journal_add, ?journal_add_add;
    cbn [journal journal_add]; rewrite <- ?app_assoc;
    eexists; (split; [reflexivity|]); done.
Qed.

Lemma step_leaves_Entered s t :
  cs_pc s ≠ Entered -> cs_pc (step args s t) ≠ Entered.
Proof.
  destruct s as [sw bm p acked], t as [|task_id];
    unfold step, caller_step, worker_step;
    cbn [cs_pc cs_world cs_batch_manager cs_acknowledged];
    destruct p as [|l i|l|r|e|why]; try done.
  - by destruct (pb_batch_filename args !! i).
  - intros _. by destruct (IsEverythingProcessed bm).
Qed.

Lemma caller_step_leaves_Entered s : cs_pc (caller_step args s) ≠ Entered.
Proof.
  destruct (cs_pc s) as [|l i|l|r|e|why] eqn:E;
    [|by apply (step_leaves_Entered s Caller_runs); rewrite E ..].
  unfold caller_step. rewrite E.
  by destruct (prepare args (cs_world s)) as [[l|e|why] w1].
Qed.

(** Once the caller has run, the call is past its entry. *)
Lemma run_started w schedule :
  Caller_runs ∈ schedule -> cs_pc (run args schedule w) ≠ Entered.
Proof.
  unfold run.
  induction schedule as [|t schedule IH] using rev_ind;
    [by intros ?%elem_of_nil|].
  rewrite foldl_app. cbn [foldl]. intros [Hin|Hin%list_elem_of_singleton]%elem_of_app.
  - by apply step_leaves_Entered, IH.
  - subst t. apply caller_step_leaves_Entered.
Qed.

(** A call whose preparation throws ends there, having journalled the
    preparation only. *)
Lemma run_failed w schedule e :
  (prepare args w).1 = Throws e ->
  Caller_runs ∈ schedule ->
  cs_pc (run args schedule w) = Failed e
  ∧ cs_world (run args schedule w) = (prepare args w).2.
Proof.
  intros He Hin. pose proof (invariant_run w schedule) as Hinv.
  pose proof (run_started w schedule Hin) as Hst.
  unfold invariant in Hinv.
  destruct (cs_pc (run args schedule w)) as [|l i|l|r|e'|why]; try done.
  - destruct Hinv as [Hl _]. congruence.
  - destruct Hinv as [Hl _]. congruence.
  - destruct Hinv as (l & Hl & _). congruence.
  - destruct Hinv as [He' Hw]. split; [congruence | done].
  - destruct Hinv as [Hy _]. congruence.
Qed.

(** Whatever the schedule, past the entry the world is the world the
    preparation left, with the journal of the dispatch so far. *)
Lemma run_world w schedule :
  Caller_runs ∈ schedule ->
  ∃ j, cs_world (run args schedule w) = journal_add j (prepare args w).2
       ∧ published j = [].
Proof.
  intros Hin. pose proof (invariant_run w schedule) as Hinv.
  pose proof (run_started w schedule Hin) as Hst.
  unfold invariant in Hinv.
  destruct (cs_pc (run args schedule w)) as [|l i|l|r|e'|why]; try done.
  - destruct Hinv as (_ & _ & Hw & _). eexists. split; [exact Hw|].
    apply published_dispatch_journal.
  - destruct Hinv as (_ & Hw & _). eexists. split; [exact Hw|].
    apply published_dispatch_journal.
  - destruct Hinv as (l & _ & _ & Hw & _). eexists. split; [exact Hw|].
    apply published_dispatch_journal.
  - destruct Hinv as [_ Hw]. exists []. by rewrite journal_add_nil.
  - destruct Hinv as [_ Hw]. exists []. by rewrite journal_add_nil.
Qed.

Lemma enqueued_lookups j : enqueued (j ++ (source_lookups args)) = enqueued j.
Proof. rewrite enqueued_app. cbn. by rewrite app_nil_r. Qed.

Lemma published_lookups j : published (j ++ (source_lookups args)) = published j.
Proof. rewrite published_app. cbn. by rewrite app_nil_r. Qed.

(** C2: for every schedule in which the caller has run: (1) when the
    source does not exist the call has failed with invalid-operation and
    has enqueued and published nothing; (2) when a target is named and
    equals the source, likewise; (3) otherwise, when a target is named,
    the first thing the call does after looking the source up is to
    publish, under the target name, a zero matrix with the topic names
    (and tokens) of the source: the publication precedes whatever the call
    journals later, every work item included. *)
Theorem RequestProcessBatches_validates_before_dispatch
    (w : World) (schedule : list turn) :
  Caller_runs ∈ schedule ->
  let s := run args schedule w in
  match pwt_source w (pb_pwt_source_name args) with
  | None =>
      cs_pc s = Failed (InvalidOperation
                  ("Model " +:+ pb_pwt_source_name args +:+ " does not exist"))
      ∧ enqueued (journal (cs_world s)) = enqueued (journal w)
      ∧ published (journal (cs_world s)) = published (journal w)
  | Some p_wt =>
      match pb_nwt_target_name args with
      | None => True
      | Some nwt_target_name =>
          if bool_decide (nwt_target_name = pb_pwt_source_name args) then
            cs_pc s = Failed (InvalidOperation
              "ProcessBatchesArgs.pwt_source_name == ProcessBatchesArgs.nwt_target_name")
            ∧ enqueued (journal (cs_world s)) = enqueued (journal w)
            ∧ published (journal (cs_world s)) = published (journal w)
          else
            let target := fresh_target nwt_target_name p_wt in
            (∃ later, journal (cs_world s)
                      = journal w ++ source_lookups args
                        ++ [Merger_SetPhiMatrix nwt_target_name target] ++ later)
            ∧ phi_matrix_ (cs_world s) !! nwt_target_name = Some target
            ∧ topic_name target = topic_name p_wt
            ∧ zero_matrix target
            ∧ (NoDup (tokens p_wt) -> tokens target = tokens p_wt)
      end
  end.
Proof.
  intros Hin s.
  pose proof (prepare_eq w) as Hprep.
  destruct (pwt_source w (pb_pwt_source_name args)) as [p_wt|] eqn:Esrc.
  - destruct (pb_nwt_target_name args) as [t|] eqn:Et; [|done].
    destruct (bool_decide (t = (pb_pwt_source_name args))) eqn:Esame.
    + destruct (run_failed w schedule _ (f_equal fst Hprep) Hin) as [Hpc Hw].
      fold s in Hpc, Hw. rewrite Hw, Hprep. cbn [snd journal journal_add].
      by rewrite enqueued_lookups, published_lookups.
    + destruct (run_world w schedule Hin) as (j & Hw & _).
      fold s in Hw. rewrite Hw, Hprep. unfold after_publication.
      repeat split.
      * destruct (FixAndValidate _); try destruct (pb_reset_scores args);
          cbn [snd SetPhiMatrix]; rewrite ?record_journal_add, ?journal_add_add;
          cbn [journal journal_add]; rewrite <- ?app_assoc; eexists; reflexivity.
      * destruct (FixAndValidate _); try destruct (pb_reset_scores args);
          cbn [snd SetPhiMatrix record journal_add phi_matrix_];
          apply lookup_insert_eq.
      * unfold fresh_target. by rewrite Reshape_topic_name.
      * apply Reshape_zero.
      * apply Reshape_tokens.
  - destruct (run_failed w schedule _ (f_equal fst Hprep) Hin) as [Hpc Hw].
    fold s in Hpc, Hw. rewrite Hw, Hprep. cbn [snd journal journal_add].
    by rewrite enqueued_lookups, published_lookups.
Qed.

(** *** Registration and the wait *)

Lemma prepare_returns w p_wt model_config :
  pwt_source w (pb_pwt_source_name args) = Some p_wt ->
  pb_nwt_target_name args ≠ Some (pb_pwt_source_name args) ->
  FixAndValidate (with_topics p_wt (initial_model_config args)) = Returns model_config ->
  (prepare args w).1 = Returns (locals_of args model_config).
Proof.
  intros Hsrc Htarget Hvalid. rewrite prepare_eq, Hsrc. unfold after_publication.
  destruct (pb_nwt_target_name args) as [t|].
  - rewrite bool_decide_eq_false_2 by congruence. by rewrite Hvalid.
  - by rewrite Hvalid.
Qed.

Lemma dispatched_state w l schedule :
  (prepare args w).1 = Returns l ->
  has_dispatched (cs_pc (run args schedule w)) = true ->
  let s := run args schedule w in
  registered (journal (cs_world s)) = registered (journal w) ++ (identifiers args)
  ∧ enqueued (journal (cs_world s))
    = enqueued (journal w)
      ++ imap (fun k batch_filename =>
                 work_item args l (random_generator k) batch_filename)
              (pb_batch_filename args).
Proof.
  intros Hl Hpc s. pose proof (invariant_run w schedule) as Hinv.
  unfold invariant in Hinv. fold s in Hinv, Hpc.
  assert (Hw : cs_world s
               = journal_add (dispatch_journal args l (length (pb_batch_filename args)))
                   (prepare args w).2).
  { destruct (cs_pc s) as [|l' i|l'|r|e|why]; try done.
    - destruct Hinv as (Hl' & Hw & _). by assert (l' = l) as -> by congruence.
    - destruct Hinv as (l' & Hl' & _ & Hw & _).
      by assert (l' = l) as -> by congruence. }
  destruct (prepare_journal w) as (jp & Hjp & Hreg & Henq).
  rewrite Hw. cbn [journal journal_add]. rewrite Hjp.
  rewrite !registered_app, !enqueued_app, Hreg, Henq, !app_nil_r.
  rewrite registered_dispatch_journal, enqueued_dispatch_journal by done.
  by rewrite firstn_all.
Qed.

Lemma returned_state w schedule :
  has_returned (cs_pc (run args schedule w)) = true ->
  let s := run args schedule w in
  in_progress_ (cs_batch_manager s) = ∅
  ∧ Forall (fun task_id => task_id ∈ cs_acknowledged s) (identifiers args).
Proof.
  intros Hpc s. pose proof (invariant_run w schedule) as Hinv.
  unfold invariant in Hinv. fold s in Hinv, Hpc.
  destruct (cs_pc s) as [|l' i|l'|r|e|why]; try done.
  destruct Hinv as (l & _ & _ & _ & Htr & Hempty).
  split; [done|].
  apply Forall_forall. intros task_id Hin.
  apply list_elem_of_fmap in Hin as (k & -> & Hk).
  apply elem_of_seq in Hk. destruct (Htr k ltac:(lia)) as [Hout|Hack]; [|done].
  rewrite Hempty in Hout. set_solver.
Qed.

(** *** The call does return once every identifier is acknowledged *)

Lemma dispatch_turns l : forall k s i,
  cs_pc s = Dispatching l i ->
  (i + k <= length (pb_batch_filename args))%nat ->
  let s' := foldl (step args) s (replicate k Caller_runs) in
  cs_pc s' = Dispatching l (i + k)
  ∧ in_progress_ (cs_batch_manager s')
    = in_progress_ (cs_batch_manager s)
      ∪ list_to_set (random_generator <$> seq i k).
Proof.
  induction k as [|k IH]; intros s i Hpc Hik.
  - cbn. rewrite Nat.add_0_r. split; [done | by rewrite (right_id_L ∅ (∪))].
  - cbn [replicate foldl].
    destruct (lookup_lt_is_Some_2 (pb_batch_filename args) i ltac:(lia)) as [f Hf].
    assert (Hstep : cs_pc (step args s Caller_runs) = Dispatching l (S i)
              ∧ in_progress_ (cs_batch_manager (step args s Caller_runs))
                = {[random_generator i]} ∪ in_progress_ (cs_batch_manager s)).
    { unfold step, caller_step. rewrite Hpc.
      rewrite Hf. done. }
    destruct Hstep as [Hpc' Hin'].
    destruct (IH (step args s Caller_runs) (S i) Hpc' ltac:(lia)) as [Hpc'' Hin''].
    cbv zeta in *. split.
    + rewrite Hpc''. f_equal. lia.
    + rewrite Hin'', Hin'. cbn [seq fmap list_fmap list_to_set].
      rewrite (comm_L (∪) {[random_generator i]}). by rewrite <- (assoc_L (∪)).
Qed.

Lemma acknowledgment_turns l : forall ids s,
  cs_pc s = Polling l ->
  let s' := foldl (step args) s (Worker_acknowledges <$> ids) in
  cs_pc s' = Polling l
  ∧ in_progress_ (cs_batch_manager s')
    = in_progress_ (cs_batch_manager s) ∖ list_to_set ids.
Proof.
  induction ids as [|task_id ids IH]; intros s Hpc.
  - cbn. split; [done | by rewrite difference_empty_L].
  - cbn [fmap list_fmap foldl].
    assert (Hstep : cs_pc (step args s (Worker_acknowledges task_id)) = Polling l
              ∧ in_progress_ (cs_batch_manager (step args s (Worker_acknowledges task_id)))
                = in_progress_ (cs_batch_manager s) ∖ {[task_id]}).
    { unfold step, worker_step. rewrite Hpc. done. }
    destruct Hstep as [Hpc' Hin'].
    destruct (IH _ Hpc') as [Hpc'' Hin'']. cbv zeta in *.
    split; [done|]. rewrite Hin'', Hin'. cbn [list_to_set].
    by rewrite difference_difference_l_L.
Qed.

Lemma RequestProcessBatches_returns w l :
  (prepare args w).1 = Returns l ->
  cs_pc (run args (fair_schedule args) w) = Returned (collect args l).
Proof.
  intros Hl. unfold run, fair_schedule. cbn [foldl].
  rewrite !foldl_app.
  set (s0 := step args (enter w) Caller_runs).
  assert (Hs0 : cs_pc s0 = Dispatching l 0
                ∧ in_progress_ (cs_batch_manager s0) = ∅).
  { unfold s0, step, caller_step, enter.
    cbn [cs_pc cs_world cs_batch_manager].
    destruct (prepare args w) as [o w1]. cbn [fst] in Hl. subst o. done. }
  destruct Hs0 as [Hpc0 Hin0].
  destruct (dispatch_turns l (length (pb_batch_filename args)) s0 0 Hpc0 ltac:(lia)) as [Hpc1 Hin1].
  cbv zeta in Hpc1, Hin1.
  set (s1 := foldl (step args) s0 (replicate (length (pb_batch_filename args)) Caller_runs)) in *.
  cbn [foldl].
  set (s2 := step args s1 Caller_runs).
  assert (Hs2 : cs_pc s2 = Polling l
                ∧ in_progress_ (cs_batch_manager s2) = in_progress_ (cs_batch_manager s1)).
  { unfold s2, step, caller_step. rewrite Hpc1.
    rewrite (lookup_ge_None_2 (pb_batch_filename args)) by lia. done. }
  destruct Hs2 as [Hpc2 Hin2].
  destruct (acknowledgment_turns l (identifiers args) s2 Hpc2) as [Hpc3 Hin3].
  cbv zeta in Hpc3, Hin3.
  set (s3 := foldl (step args) s2 (Worker_acknowledges <$> (identifiers args))) in *.
  unfold step, caller_step. rewrite Hpc3.
  unfold IsEverythingProcessed. rewrite bool_decide_eq_true_2; [done|].
  rewrite Hin3, Hin2, Hin1, Hin0. unfold identifiers.
  by rewrite (left_id_L ∅ (∪)), difference_diag_L.
Qed.

(** C1, as amended: for a call against an existing source whose target,
    if any, differs from the source and whose configuration validates,
    and for every interleaving with the workers: (1) once the caller is
    past its dispatch loop it has registered with the tracker exactly the
    identifiers drawn for its N batches (N distinct identifiers, the
    generator's draws being distinct) and has enqueued exactly N work items
    carrying them in order; (2) when the call has returned no identifier
    is outstanding: each of the N was acknowledged; (3) the call does
    return when the workers acknowledge every identifier. *)
Theorem RequestProcessBatches_registers_and_waits
    (w : World) (p_wt : PhiMatrix) (model_config : ModelConfig)
    (schedule : list turn) :
  pwt_source w (pb_pwt_source_name args) = Some p_wt ->
  pb_nwt_target_name args ≠ Some (pb_pwt_source_name args) ->
  FixAndValidate (with_topics p_wt (initial_model_config args)) = Returns model_config ->
  NoDup (identifiers args) ->
  let s := run args schedule w in
  (has_dispatched (cs_pc s) = true ->
     registered (journal (cs_world s)) = registered (journal w) ++ (identifiers args)
     ∧ length (identifiers args) = length (pb_batch_filename args)
     ∧ size (list_to_set (identifiers args) : gset uuid) = length (pb_batch_filename args)
     ∧ enqueued (journal (cs_world s))
       = enqueued (journal w)
         ++ imap (fun k batch_filename =>
                    work_item args (locals_of args model_config)
                      (random_generator k) batch_filename) (pb_batch_filename args))
  ∧ (has_returned (cs_pc s) = true ->
     in_progress_ (cs_batch_manager s) = ∅
     ∧ Forall (fun task_id => task_id ∈ cs_acknowledged s) (identifiers args))
  ∧ cs_pc (run args (fair_schedule args) w)
    = Returned (collect args (locals_of args model_config)).
Proof.
  intros Hsrc Htarget Hvalid Hfresh s.
  pose proof (prepare_returns w p_wt model_config Hsrc Htarget Hvalid) as Hl.
  assert (Hlen : length (identifiers args) = length (pb_batch_filename args))
    by (unfold identifiers; by rewrite length_fmap, length_seq).
  split; [|split].
  - intros Hpc.
    destruct (dispatched_state w _ schedule Hl Hpc) as [Hreg Henq].
    repeat split; try done.
    by rewrite size_list_to_set, Hlen.
  - intros Hpc. by apply returned_state.
  - by apply RequestProcessBatches_returns.
Qed.

End DispatchProperties.


Lemma RequestProcessBatches_registers_and_waits_witness :
  registered (journal (cs_world
    (run (collaborators := sample_collaborators)
       sample_request sample_schedule raw_world)))
  = [1000%N; 1001%N]
  ∧ in_progress_ (cs_batch_manager
      (run (collaborators := sample_collaborators)
         sample_request sample_schedule raw_world))
    = ∅.
Proof.
  destruct (RequestProcessBatches_registers_and_waits
              (collaborators := sample_collaborators)
              sample_request raw_world sample_matrix sample_validated
              sample_schedule)
    as (Hdispatched & Hreturned & _).
  - reflexivity.
  - discriminate.
  - reflexivity.
  - apply (bool_decide_unpack _). vm_compute. exact I.
  - split.
    + apply Hdispatched. vm_compute. reflexivity.
    + apply Hreturned. vm_compute. reflexivity.
Defined.

Lemma RequestProcessBatches_validates_before_dispatch_witness :
  phi_matrix_ (cs_world
    (run (collaborators := sample_collaborators)
       sample_request sample_schedule raw_world)) !! "T"
  = Some (fresh_target "T" sample_matrix)
  ∧ zero_matrix (fresh_target "T" sample_matrix).
Proof.
  pose proof (RequestProcessBatches_validates_before_dispatch
                (collaborators := sample_collaborators)
                sample_request raw_world sample_schedule) as Hcall.
  cbv zeta in Hcall.
  change (pwt_source raw_world (pb_pwt_source_name sample_request))
    with (Some sample_matrix) in Hcall.
  cbn [sample_request process_args pb_nwt_target_name pb_pwt_source_name] in Hcall.
  rewrite bool_decide_eq_false_2 in Hcall by discriminate.
  destruct Hcall as (_ & Hpublished & _ & Hzero & _).
  - apply elem_of_cons. by left.
  - split; [exact Hpublished | exact Hzero].
Defined.

(** While an identifier is outstanding the caller stays in the wait loop. *)
Example RequestProcessBatches_keeps_polling :
  cs_pc (run (collaborators := sample_collaborators)
           (process_args (Some "T") ["b0"; "b1"])
           [Caller_runs; Caller_runs; Caller_runs; Caller_runs;
            Worker_acknowledges 1001%N; Caller_runs; Caller_runs] raw_world)
  = Polling sample_locals.
Proof. vm_compute. reflexivity. Qed.

(** The claim that every call with N batches against an existing source
    registers N identifiers does not hold as it stands: this call names an
    existing source and one batch, fails on its target name and registers
    nothing. *)
Lemma RequestProcessBatches_same_name_registers_nothing :
  model_exists raw_world (pb_pwt_source_name (process_args (Some "M") ["b0"])) = true
  ∧ length (pb_batch_filename (process_args (Some "M") ["b0"])) = 1%nat
  ∧ cs_pc (run (collaborators := sample_collaborators)
             (process_args (Some "M") ["b0"]) [Caller_runs; Caller_runs] raw_world)
    = Failed (InvalidOperation
        "ProcessBatchesArgs.pwt_source_name == ProcessBatchesArgs.nwt_target_name")
  ∧ registered (journal (cs_world
      (run (collaborators := sample_collaborators)
         (process_args (Some "M") ["b0"]) [Caller_runs; Caller_runs] raw_world)))
    = [].
Proof. repeat split; vm_compute; reflexivity. Qed.

(** The target is published before the configuration is validated: a call
    whose configuration is rejected has published it and enqueued nothing. *)
Example RequestProcessBatches_publishes_before_validation :
  cs_pc (run (collaborators := strict_collaborators)
           (process_args (Some "T") ["b0"]) [Caller_runs; Caller_runs] raw_world)
  = Failed (InvalidOperation "invalid configuration")
  ∧ tokens <$>
      (phi_matrix_ (cs_world
         (run (collaborators := strict_collaborators)
            (process_args (Some "T") ["b0"]) [Caller_runs; Caller_runs] raw_world))
       !! "T")
    = Some (tokens sample_matrix)
  ∧ enqueued (journal (cs_world
      (run (collaborators := strict_collaborators)
         (process_args (Some "T") ["b0"]) [Caller_runs; Caller_runs] raw_world)))
    = [].
Proof. repeat split; vm_compute; reflexivity. Qed.

(** ** Streams *)

Lemma skip_whitespace_length bs : (length (skip_whitespace bs) <= length bs)%nat.
Proof.
  induction bs as [|b bs IH]; simpl; [done|].
  destruct (isspace b); simpl; lia.
Qed.

Lemma skip_whitespace_no_space b bs : isspace b = false -> skip_whitespace (b :: bs) = b :: bs.
Proof. intros H. simpl. by rewrite H. Qed.

Lemma scan_digits_length acc bs : (length (scan_digits acc bs).2 <= length bs)%nat.
Proof.
  revert acc. induction bs as [|b bs IH]; intros acc; simpl; [done|].
  destruct (isdigit b); simpl; [|done]. specialize (IH (10 * acc + digit_value b)). lia.
Qed.

Lemma scan_digits_consumes acc b bs :
  isdigit b = true -> (length (scan_digits acc (b :: bs)).2 < length (b :: bs))%nat.
Proof.
  intros H. simpl. rewrite H.
  pose proof (scan_digits_length (10 * acc + digit_value b) bs). lia.
Qed.

Lemma strip_sign_length bs : (length (strip_sign bs).2 <= length bs)%nat.
Proof.
  destruct bs as [|b bs]; simpl; [done|].
  destruct (Byte.eqb b x2d); [simpl; lia|]. destruct (Byte.eqb b x2b); simpl; lia.
Qed.

(** A conversion never gives input back, and one that succeeds consumes
    some. *)
Lemma scan_int_length bs :
  (length (scan_int bs).2 <= length bs)%nat
  ∧ ((scan_int bs).1.2 = false -> (length (scan_int bs).2 < length bs)%nat).
Proof.
  unfold scan_int. pose proof (strip_sign_length bs) as Hsign.
  destruct (strip_sign bs) as [negative digits]. cbn [snd] in Hsign.
  pose proof (scan_digits_length 0 digits) as Hscan.
  destruct digits as [|d digits'].
  { cbn [scan_digits negb snd fst]. split; [lia | done]. }
  destruct (isdigit d) eqn:Hd; cbn [negb].
  2:{ destruct (scan_digits 0 (d :: digits')) as [v rest]. cbn [snd fst] in *.
      split; [lia | done]. }
  pose proof (scan_digits_consumes 0 d digits' Hd) as Hlt.
  destruct (scan_digits 0 (d :: digits')) as [v rest]. cbn [snd] in Hlt, Hscan.
  destruct (INT_MAX <? _); [cbn [snd fst]; split; [lia | done]|].
  destruct (_ <? INT_MIN); cbn [snd fst]; split; (lia || done).
Qed.

Lemma signed_char_zero b : (signed_char b =? 0) = true <-> b = x00.
Proof.
  split; [|intros ->; reflexivity].
  destruct b; vm_compute; intros H; (reflexivity || discriminate H).
Qed.

(** ** ImportModel *)

Section CodecProperties.

Context {codec : Codec}.

(** A turn that continues leaves fewer turns to take. *)
Lemma import_turn_progress args fin target fin1 target1 :
  eofbit fin = false ->
  import_turn args fin target = Loop_continues fin1 target1 ->
  (turns_needed fin1 < turns_needed fin)%nat.
Proof.
  intros Heof. unfold import_turn, extract_int, sentry, turns_needed.
  rewrite Heof. cbn [orb].
  destruct (failbit fin) eqn:Hfail; [done|].
  pose proof (skip_whitespace_length (rdbuf fin)) as Hws.
  destruct (skip_whitespace (rdbuf fin)) as [|b bs] eqn:Ews; [done|].
  cbn [rdbuf].
  pose proof (scan_int_length (b :: bs)) as [Hle Hlt].
  destruct (scan_int (b :: bs)) as [[v failed] rest]. cbn [fst snd] in Hle, Hlt.
  cbn [eofbit]. destruct rest as [|r rest']; [done|].
  destruct (v <=? 0); [done|].
  destruct (read_buffer _ _) as [buffer fin2] eqn:Eread.
  destruct (ParseFromArray buffer); [|done].
  intros [= <- _].
  unfold read_buffer in Eread. cbn [eofbit failbit rdbuf orb] in Eread.
  destruct failed.
  - injection Eread as _ <-. cbn [eofbit failbit orb]. lia.
  - specialize (Hlt eq_refl).
    destruct (_ <=? _)%nat; injection Eread as _ <-; cbn [eofbit failbit rdbuf orb].
    + rewrite length_drop. simpl length in *. lia.
    + lia.
Qed.

Lemma turns_needed_positive fin : (1 <= turns_needed fin)%nat.
Proof. unfold turns_needed. destruct (eofbit fin || failbit fin); lia. Qed.

(** With turns enough, the loop from one state is the loop from any state
    it reaches. *)
Lemma import_loop_reaches args fin target fin' target' :
  reaches args fin target fin' target' ->
  forall turns, (turns_needed fin <= turns)%nat ->
  ∃ turns', (turns_needed fin' <= turns')%nat
    ∧ import_loop turns args fin target = import_loop turns' args fin' target'.
Proof.
  induction 1 as [fin target|fin target fin1 target1 fin' target' Heof Hturn _ IH];
    intros turns Hturns.
  - eauto.
  - pose proof (import_turn_progress _ _ _ _ _ Heof Hturn) as Hlt.
    destruct turns as [|turns]; [pose proof (turns_needed_positive fin); lia|].
    destruct (IH turns ltac:(lia)) as (turns' & Hturns' & Hloop).
    exists turns'. split; [done|].
    cbn [import_loop]. by rewrite Heof, Hturn.
Qed.

(** The turn that ends the loop decides its outcome. *)
Lemma import_loop_ends args fin target turns :
  (turns_needed fin <= turns)%nat ->
  eofbit fin = false ->
  import_loop turns args fin target
  = match import_turn args fin target with
    | Loop_exits => Some (Returns target)
    | Turn_throws e => Some (Throws e)
    | Turn_undefined why => Some (Undefined why)
    | Loop_continues fin1 target1 => import_loop (pred turns) args fin1 (Some target1)
    end.
Proof.
  intros Hturns Heof.
  destruct turns as [|turns]; [pose proof (turns_needed_positive fin); lia|].
  cbn [import_loop pred]. by rewrite Heof.
Qed.

(** [ImportModel] on a file whose first byte past the whitespace is
    [version]. *)
Lemma ImportModel_eq args w content version rest :
  disk w !! im_file_name args = Some content ->
  skip_whitespace content = version :: rest ->
  ImportModel args w
  = if negb (signed_char version =? 0) then
      (Throws (DiskReadException
         ("Unsupported fromat version: " +:+ decimal_int (signed_char version))), w)
    else
      match import_loop (length content + 2) args (ifstream_open rest) None with
      | None => (Undefined "the loop does not end", w)
      | Some (Returns None) => (Throws (corrupted args), w)
      | Some (Returns (Some target)) => SetPhiMatrix (im_model_name args) target w
      | Some (Throws e) => (Throws e, w)
      | Some (Undefined why) => (Undefined why, w)
      end.
Proof.
  intros Hfile Hws. unfold ImportModel. rewrite Hfile.
  unfold extract_char, sentry, ifstream_open. cbn [eofbit failbit rdbuf orb].
  rewrite Hws. cbn [rdbuf]. reflexivity.
Qed.

Lemma ImportModel_turns content version rest :
  skip_whitespace content = version :: rest ->
  (turns_needed (ifstream_open rest) <= length content + 2)%nat.
Proof.
  intros Hws. pose proof (skip_whitespace_length content) as H.
  rewrite Hws in H. unfold turns_needed, ifstream_open. simpl in *. lia.
Qed.

(** An import that reaches a turn which throws fails with what the turn
    throws, and leaves the world as it was. *)
Lemma ImportModel_throws_at args w content rest fin target e :
  disk w !! im_file_name args = Some content ->
  skip_whitespace content = x00 :: rest ->
  reaches args (ifstream_open rest) None fin target ->
  eofbit fin = false ->
  import_turn args fin target = Turn_throws e ->
  ImportModel args w = (Throws e, w).
Proof.
  intros Hfile Hws Hreach Heof Hturn.
  rewrite (ImportModel_eq args w content x00 rest Hfile Hws).
  change (negb (signed_char x00 =? 0)) with false. cbn iota.
  destruct (import_loop_reaches _ _ _ _ _ Hreach (length content + 2)
              (ImportModel_turns _ _ _ Hws)) as (turns' & Hturns' & ->).
  by rewrite (import_loop_ends _ _ _ _ Hturns' Heof), Hturn.
Qed.

(** C4, as amended: [ImportModel] fails, leaving the world (and with it
    the published matrices) as it was, (1) with the disk-read error class
    when the first byte of the file past leading whitespace, the version,
    is not zero; (2) with the corrupted-message error class when, after
    any number of chunks read, a length token is read that does not end
    the input (at least one more byte follows it) and either is not
    positive (or is no number) or is followed by bytes that the message
    parser rejects; (3) with the corrupted-message error class when the
    version byte is zero and the input ends before a first chunk is read
    (nothing but whitespace follows the version byte, or the first length
    token ends the input).  The chunk at which the import fails decides
    the outcome whatever follows it in the file. *)
Theorem ImportModel_rejects_corrupted_files
    (args : ImportModelArgs) (w : World) (content : list byte) :
  disk w !! im_file_name args = Some content ->
  (forall version rest,
     skip_whitespace content = version :: rest ->
     version ≠ x00 ->
     is_disk_read (ImportModel args w).1 = true ∧ (ImportModel args w).2 = w)
  ∧ (forall rest fin target n fin',
       skip_whitespace content = x00 :: rest ->
       reaches args (ifstream_open rest) None fin target ->
       eofbit fin = false ->
       extract_int fin = (Some n, fin') ->
       eofbit fin' = false ->
       n <= 0 ∨ ParseFromArray (read_buffer (Z.to_nat n) fin').1 = None ->
       ImportModel args w = (Throws (corrupted args), w))
  ∧ (forall rest,
       skip_whitespace content = x00 :: rest ->
       eofbit (extract_int (ifstream_open rest)).2 = true ->
       ImportModel args w = (Throws (corrupted args), w)).
Proof.
  intros Hfile. split; [|split].
  - intros version rest Hws Hversion.
    rewrite (ImportModel_eq args w content version rest Hfile Hws).
    destruct (signed_char version =? 0) eqn:E.
    + apply signed_char_zero in E. done.
    + done.
  - intros rest fin target n fin' Hws Hreach Heof Hint Heof' Hbad.
    apply (ImportModel_throws_at args w content rest fin target); try done.
    unfold import_turn. rewrite Hint, Heof'.
    destruct (Z.leb_spec n 0) as [Hn|Hn]; [done|].
    destruct Hbad as [Hbad|Hbad]; [lia|].
    destruct (read_buffer (Z.to_nat n) fin') as [buffer fin2].
    cbn [fst] in Hbad. by rewrite Hbad.
  - intros rest Hws Hend.
    rewrite (ImportModel_eq args w content x00 rest Hfile Hws).
    change (negb (signed_char x00 =? 0)) with false. cbn iota.
    rewrite (import_loop_ends args (ifstream_open rest) None (length content + 2)
               (ImportModel_turns _ _ _ Hws) eq_refl).
    unfold import_turn.
    destruct (extract_int (ifstream_open rest)) as [n fin']. cbn [snd] in Hend.
    by rewrite Hend.
Qed.

End CodecProperties.

Lemma ImportModel_rejects_corrupted_files_witness :
  is_disk_read
    (ImportModel (codec := sample_codec) import_args (world_with_file [x01; x33])).1
  = true
  ∧ ImportModel (codec := sample_codec) import_args (world_with_file [x00; x30; x0a])
    = (Throws (corrupted import_args), world_with_file [x00; x30; x0a])
  ∧ ImportModel (codec := sample_codec) import_args (world_with_file [x00])
    = (Throws (corrupted import_args), world_with_file [x00]).
Proof.
  split; [|split].
  - destruct (ImportModel_rejects_corrupted_files (codec := sample_codec)
                import_args (world_with_file [x01; x33]) [x01; x33] eq_refl)
      as (Hversion & _ & _).
    apply (Hversion x01 [x33]); [reflexivity | discriminate].
  - destruct (ImportModel_rejects_corrupted_files (codec := sample_codec)
                import_args (world_with_file [x00; x30; x0a]) [x00; x30; x0a] eq_refl)
      as (_ & Hchunk & _).
    apply (Hchunk [x30; x0a] (ifstream_open [x30; x0a]) None 0
             {| rdbuf := [x0a]; eofbit := false; failbit := false |});
      [reflexivity | apply reaches_here | reflexivity | reflexivity | reflexivity |].
    left. lia.
  - destruct (ImportModel_rejects_corrupted_files (codec := sample_codec)
                import_args (world_with_file [x00]) [x00] eq_refl)
      as (_ & _ & Hnone).
    apply (Hnone []); reflexivity.
Defined.

(** The claim that a non-zero version byte fails as a corrupted message
    does not hold as it stands: line 152 throws the disk-read exception. *)
Lemma ImportModel_bad_version_is_a_disk_read_error :
  is_corrupted_message
    (ImportModel (codec := sample_codec) import_args (world_with_file [x01; x33])).1
  = false
  ∧ (ImportModel (codec := sample_codec) import_args (world_with_file [x01; x33])).1
    = Throws (DiskReadException "Unsupported fromat version: 1").
Proof. split; vm_compute; reflexivity. Qed.

(** What the amended statement leaves out.  An empty file leaves [version]
    uninitialised, and line 149 reads it. *)
Example ImportModel_empty_file :
  (ImportModel (codec := sample_codec) import_args (world_with_file [])).1
  = Undefined "version is read uninitialised".
Proof. reflexivity. Qed.

(** A length token that ends the file sets eof while it is scanned, and
    line 159 takes that for the end of the chunks: after a first chunk the
    truncated file is imported without an error. *)
Example ImportModel_dangling_length_token :
  (ImportModel (codec := sample_codec) import_args
     (world_with_file ([x00] ++ [x33; x0a; x61; x62] ++ [x37]))).1
  = Returns tt.
Proof. vm_compute. reflexivity. Qed.

(** So does a length token that is not positive: when it ends the file,
    after a first chunk, eof is set and the import returns; when a byte
    follows it the import throws. *)
Example ImportModel_non_positive_token_at_the_end :
  (ImportModel (codec := sample_codec) import_args
     (world_with_file ([x00] ++ [x33; x0a; x61; x62] ++ [x30]))).1
  = Returns tt
  ∧ (ImportModel (codec := sample_codec) import_args
       (world_with_file ([x00] ++ [x33; x0a; x61; x62] ++ [x2d; x35]))).1
    = Returns tt
  ∧ (ImportModel (codec := sample_codec) import_args
       (world_with_file ([x00] ++ [x33; x0a; x61; x62] ++ [x30; x0a]))).1
    = Throws (corrupted import_args).
Proof. repeat split; vm_compute; reflexivity. Qed.

(** A truncated chunk reaches the parser padded with zero bytes; whether
    the import fails is up to the parser. *)
Example ImportModel_truncated_chunk :
  (ImportModel (codec := sample_codec) import_args
     (world_with_file ([x00] ++ [x35; x0a; x61]))).1
  = Throws (corrupted import_args)
  ∧ (read_buffer 5 (ifstream_open [x0a; x61])).1 = [x0a; x61; x00; x00; x00].
Proof. split; vm_compute; reflexivity. Qed.

(** Whitespace before the version byte is skipped. *)
Example ImportModel_leading_whitespace :
  (ImportModel (codec := sample_codec) import_args
     (world_with_file ([x20; x00] ++ [x33; x0a; x61; x62]))).1
  = Returns tt.
Proof. vm_compute. reflexivity. Qed.

(** ** Decimal length tokens *)

Lemma horner_of_uint_acc d : forall p,
  horner (Zpos p) d = Zpos (Pos.of_uint_acc d p).
Proof.
  induction d as [|d IH|d IH|d IH|d IH|d IH|d IH|d IH|d IH|d IH|d IH];
    intros p; cbn [horner Pos.of_uint_acc]; [done|..];
    rewrite <- IH; f_equal; lia.
Qed.

Lemma horner_of_uint d : horner 0 d = Z.of_N (Pos.of_uint d).
Proof.
  induction d as [|d IH|d IH|d IH|d IH|d IH|d IH|d IH|d IH|d IH|d IH];
    cbn [horner Pos.of_uint]; [done | exact IH | ..];
    cbn [Z.mul Z.add Z.of_N]; apply horner_of_uint_acc.
Qed.

Lemma horner_to_uint n : horner 0 (N.to_uint n) = Z.of_N n.
Proof.
  rewrite horner_of_uint. f_equal. apply (DecimalN.Unsigned.of_to n).
Qed.

Lemma scan_digits_stops v rest :
  match rest with b :: _ => isdigit b = false | [] => True end ->
  scan_digits v rest = (v, rest).
Proof. destruct rest as [|b rest]; simpl; [done|]. by intros ->. Qed.

Lemma scan_digits_uint d : forall acc rest,
  scan_digits acc (bytes_of_uint d ++ rest) = scan_digits (horner acc d) rest.
Proof.
  induction d as [|d IH|d IH|d IH|d IH|d IH|d IH|d IH|d IH|d IH|d IH];
    intros acc rest; [done|..];
    cbn [bytes_of_uint app scan_digits isdigit horner]; rewrite IH; f_equal.
Qed.

(** A length token is read back as the length, and no further. *)
Lemma scan_digits_decimal n rest :
  match rest with b :: _ => isdigit b = false | [] => True end ->
  scan_digits 0 (decimal n ++ rest) = (Z.of_N n, rest).
Proof.
  intros Hrest. unfold decimal.
  by rewrite scan_digits_uint, horner_to_uint, scan_digits_stops.
Qed.

Lemma bytes_of_uint_digits d : Forall (fun b => isdigit b = true) (bytes_of_uint d).
Proof.
  induction d as [|d IH|d IH|d IH|d IH|d IH|d IH|d IH|d IH|d IH|d IH];
    cbn [bytes_of_uint]; [constructor|..]; by constructor.
Qed.

Lemma decimal_head n : ∃ b bs, decimal n = b :: bs ∧ isdigit b = true.
Proof.
  unfold decimal. pose proof (bytes_of_uint_digits (N.to_uint n)) as Hd.
  destruct (bytes_of_uint (N.to_uint n)) as [|b bs] eqn:E.
  - exfalso. destruct n as [|p]; [discriminate E|].
    simpl in E. pose proof (DecimalPos.Unsigned.to_uint_nonnil p) as Hnn.
    destruct (Pos.to_uint p); (done || discriminate E).
  - apply Forall_cons in Hd as [Hb _]. eauto.
Qed.

Lemma isdigit_not_space b : isdigit b = true -> isspace b = false.
Proof. destruct b; (reflexivity || discriminate). Qed.

Lemma isdigit_not_sign b :
  isdigit b = true -> Byte.eqb b x2d = false ∧ Byte.eqb b x2b = false.
Proof. destruct b; (discriminate || (split; reflexivity)). Qed.

(** Reading a frame: the length token, then the chunk, and the stream is
    good at what follows. *)
Lemma extract_int_frame chunk rest :
  framable chunk ->
  extract_int (ifstream_open (frame chunk ++ rest))
  = (Some (Z.of_nat (length chunk)), ifstream_open (chunk ++ rest)).
Proof.
  intros Hframable. unfold framable in Hframable.
  destruct chunk as [|c chunk]; [done|]. destruct Hframable as [Hc Hmax].
  unfold frame. rewrite <- app_assoc.
  destruct (decimal_head (N.of_nat (length (c :: chunk)))) as (b & bs & Hdec & Hb).
  pose proof (isdigit_not_space b Hb) as Hspace.
  pose proof (isdigit_not_sign b Hb) as [Hminus Hplus].
  assert (Hscan : scan_int (decimal (N.of_nat (length (c :: chunk))) ++ (c :: chunk) ++ rest)
                  = (Z.of_nat (length (c :: chunk)), false, (c :: chunk) ++ rest)).
  { unfold scan_int.
    assert (Hsign : strip_sign (decimal (N.of_nat (length (c :: chunk)))
                                ++ (c :: chunk) ++ rest)
                    = (false, decimal (N.of_nat (length (c :: chunk)))
                                ++ (c :: chunk) ++ rest)).
    { rewrite Hdec. cbn [app strip_sign]. by rewrite Hminus, Hplus. }
    rewrite Hsign. rewrite scan_digits_decimal by exact Hc.
    rewrite Hdec at 1. cbn [app]. rewrite Hb. cbn [negb].
    rewrite nat_N_Z.
    destruct (Z.ltb_spec INT_MAX (Z.of_nat (length (c :: chunk)))); [lia|].
    destruct (Z.ltb_spec (Z.of_nat (length (c :: chunk))) INT_MIN);
      [unfold INT_MIN in *; lia|].
    done. }
  unfold extract_int, sentry, ifstream_open. cbn [eofbit failbit rdbuf orb].
  rewrite Hdec at 1. cbn [app]. rewrite (skip_whitespace_no_space _ _ Hspace).
  cbn [rdbuf].
  change (b :: bs ++ c :: chunk ++ rest) with ((b :: bs) ++ (c :: chunk) ++ rest).
  rewrite <- Hdec, Hscan. reflexivity.
Qed.

Lemma read_buffer_chunk chunk rest :
  read_buffer (length chunk) (ifstream_open (chunk ++ rest))
  = (chunk, ifstream_open rest).
Proof.
  unfold read_buffer, ifstream_open. cbn [eofbit failbit rdbuf orb].
  rewrite length_app. destruct (Nat.leb_spec (length chunk) (length chunk + length rest));
    [|lia].
  by rewrite take_app_length, drop_app_length.
Qed.

Section FramingProperties.

Context {codec : Codec}.

Lemma import_turn_frame args chunk msg rest target :
  framable chunk ->
  ParseFromArray chunk = Some msg ->
  import_turn args (ifstream_open (frame chunk ++ rest)) target
  = Loop_continues (ifstream_open rest) (import_message args target msg).
Proof.
  intros Hframable Hparse. unfold import_turn.
  rewrite (extract_int_frame chunk rest Hframable).
  cbn [eofbit ifstream_open].
  assert (0 < Z.of_nat (length chunk)) as Hpos
    by (destruct chunk; [done | simpl length; lia]).
  destruct (Z.leb_spec (Z.of_nat (length chunk)) 0) as [|_]; [lia|].
  rewrite Nat2Z.id.
  change {| rdbuf := chunk ++ rest; eofbit := false; failbit := false |}
    with (ifstream_open (chunk ++ rest)).
  rewrite read_buffer_chunk, Hparse. reflexivity.
Qed.

Lemma import_loop_at_end args target turns :
  (1 <= turns)%nat ->
  import_loop turns args (ifstream_open []) target = Some (Returns target).
Proof. destruct turns as [|turns]; [lia|]. reflexivity. Qed.

(** The loop reads back the chunks that were framed, in order, and ends
    at the end of the file. *)
Lemma import_loop_frames args chunks msgs :
  Forall2 (fun chunk msg => framable chunk ∧ ParseFromArray chunk = Some msg)
          chunks msgs ->
  forall target turns,
  (turns_needed (ifstream_open (concat (frame <$> chunks))) <= turns)%nat ->
  import_loop turns args (ifstream_open (concat (frame <$> chunks))) target
  = Some (Returns (import_messages args target msgs)).
Proof.
  induction 1 as [|chunk msg chunks msgs [Hframable Hparse] _ IH]; intros target turns Hturns.
  - apply import_loop_at_end. unfold turns_needed in Hturns. simpl in Hturns. lia.
  - cbn [fmap list_fmap concat] in *.
    pose proof (import_turn_frame args chunk msg (concat (frame <$> chunks)) target
                  Hframable Hparse) as Hturn.
    rewrite (import_loop_ends args _ target turns Hturns eq_refl), Hturn.
    pose proof (import_turn_progress args (ifstream_open _) _ _ _ eq_refl Hturn) as Hlt.
    rewrite IH by lia. reflexivity.
Qed.

End FramingProperties.

(** ** ExportModel *)

Lemma add_token_chunk_args name pending token :
  add_token token (chunk_args name pending) = chunk_args name (pending ++ [token]).
Proof. unfold add_token, chunk_args. simpl. by rewrite !fmap_app. Qed.

Lemma clear_tokens_chunk_args name pending :
  clear_tokens (chunk_args name pending) = chunk_args name [].
Proof. reflexivity. Qed.

Section ExportProperties.

Context {codec : Codec}.

(** The bytes the loop of lines 119-133 appends to the file. *)
Lemma export_loop_eq file n_wt tpc name : forall todo pending w written,
  disk w !! file = Some written ->
  ∃ w', export_loop file n_wt tpc (chunk_args name pending) todo w = (Returns tt, w')
    ∧ topic_model_ w' = topic_model_ w
    ∧ phi_matrix_ w' = phi_matrix_ w
    ∧ disk w' !! file
      = Some (written
              ++ concat (frame <$> (SerializeAsString <$>
                   ((fun group => RetrieveExternalTopicModel n_wt (chunk_args name group))
                      <$> chunk_groups tpc pending todo)))).
Proof.
  induction todo as [|token todo IH]; intros pending w written Hfile.
  - exists w. cbn. by rewrite app_nil_r.
  - cbn [export_loop chunk_groups]. rewrite add_token_chunk_args.
    cbn [gtm_token chunk_args]. rewrite length_fmap.
    destruct (match todo with [] => true | _ => false end
              || (tpc <=? Z.of_nat (length (pending ++ [token])))) eqn:Eflush.
    + rewrite clear_tokens_chunk_args.
      set (str := SerializeAsString
                    (RetrieveExternalTopicModel n_wt (chunk_args name (pending ++ [token])))).
      unfold mbind, M_bind, ofstream_write. cbn [disk].
      rewrite Hfile. cbn [default from_option id]. unfold id.
      rewrite lookup_insert_eq. cbn [from_option].
      match goal with
      | |- context [export_loop _ _ _ _ _ ?w1] =>
          destruct (IH [] w1 ((written ++ decimal (N.of_nat (length str))) ++ str))
            as (w' & Hloop & Htm & Hphi & Hdisk)
      end.
      { cbn [disk]. apply lookup_insert_eq. }
      exists w'. rewrite Hloop. repeat split; try done.
      rewrite Hdisk. cbn [fmap list_fmap concat]. fold str. unfold frame.
      by rewrite <- !app_assoc.
    + destruct (IH (pending ++ [token]) w written Hfile)
        as (w' & Hloop & Htm & Hphi & Hdisk).
      exists w'. by rewrite Hloop.
Qed.

(** An export that passes the checks of lines 89-106 writes the version
    byte and then the framed chunks, and changes nothing else. *)
Lemma ExportModel_with_eq budget args w n_wt :
  disk w !! em_file_name args = None ->
  can_create (em_file_name args) = true ->
  pwt_source w (em_model_name args) = Some n_wt ->
  rows n_wt ≠ [] ->
  topic_name n_wt ≠ [] ->
  ∃ w', ExportModel_with budget args w = (Returns tt, w')
    ∧ topic_model_ w' = topic_model_ w
    ∧ phi_matrix_ w' = phi_matrix_ w
    ∧ disk w' !! em_file_name args
      = Some (x00 :: concat (frame <$> (SerializeAsString <$>
                export_messages budget (em_model_name args) n_wt))).
Proof.
  intros Hnew Hcreate Hsource Hrows Htopics.
  unfold ExportModel_with, mbind, M_bind, file_exists, ofstream_open.
  rewrite Hnew, Hcreate.
  rewrite bool_decide_eq_false_2 by (intros [? ?]; done). cbn [negb].
  unfold GetLatestTopicModel, GetPhiMatrix. cbn [topic_model_ phi_matrix_ record].
  unfold pwt_source in Hsource.
  assert (Hsize : (token_size n_wt =? 0) = false).
  { apply Z.eqb_neq. unfold token_size. destruct (rows n_wt); [done|].
    simpl length. lia. }
  assert (Htsize : (topic_size n_wt =? 0) = false).
  { apply Z.eqb_neq. unfold topic_size. destruct (topic_name n_wt); [done|].
    simpl length. lia. }
  assert (Hchunk : chunk_args (em_model_name args) []
                   = {| gtm_model_name := em_model_name args;
                        gtm_request_type := RequestType_Nwt;
                        gtm_use_sparse_format := true;
                        gtm_token := []; gtm_class_id := [] |}) by reflexivity.
  rewrite <- Hchunk.
  destruct (topic_model_ w !! em_model_name args) as [tm|] eqn:Etm;
    [injection Hsource as <- | rewrite Hsource];
    rewrite Hsize, Htsize; cbv beta;
    unfold ofstream_write; cbn [disk record];
    rewrite lookup_insert_eq; cbn [default from_option app]; unfold id;
    (match goal with
     | |- context [export_loop ?f ?n ?tpc _ ?todo ?w1] =>
         destruct (export_loop_eq f n tpc (em_model_name args) todo [] w1 [x00])
           as (w' & Hloop & Htm' & Hphi' & Hdisk);
         [cbn [disk]; apply lookup_insert_eq|]
     end);
    exists w'; rewrite Hloop; (split; [reflexivity|]);
    (split; [exact Htm'|]); (split; [exact Hphi' | exact Hdisk]).
Qed.

End ExportProperties.

(** ** Chunks and the matrix they rebuild *)

Lemma weight_is_zero_true (v : weight) : weight_is_zero v = true -> v = 0%Qc.
Proof.
  unfold weight_is_zero. intros H%Z.eqb_eq.
  apply Qc_is_canon. unfold Qeq. rewrite H. reflexivity.
Qed.

(** Adding the weights of a sparse row to a zero row gives the row back. *)
Lemma decode_pairs (r : list weight) : forall pre : list weight,
  foldl (fun acc p => alter (fun x => (x + 1 * p.2)%Qc) p.1 acc)
        (pre ++ replicate (length r) 0%Qc)
        (filter (fun p => weight_is_zero p.2 = false)
                (imap (fun i v => (length pre + i, v)%nat) r))
  = pre ++ r.
Proof.
  induction r as [|v r IH]; intros pre; [done|].
  cbn [imap length replicate].
  assert (Himap : imap ((fun i v0 => (length pre + i, v0)%nat) ∘ S) r
                  = imap (fun i v0 => (length (pre ++ [v]) + i, v0)%nat) r).
  { apply imap_ext. intros i x _. cbn. rewrite length_app. cbn. f_equal. lia. }
  rewrite Himap, filter_cons. cbn [snd].
  destruct (weight_is_zero v) eqn:Ez.
  - rewrite decide_False by discriminate.
    apply weight_is_zero_true in Ez. subst v.
    rewrite (cons_middle 0%Qc pre), app_assoc. rewrite IH.
    by rewrite <- app_assoc.
  - rewrite decide_True by done. cbn [foldl fst snd].
    rewrite (alter_app_r _ pre _ 0). cbn [alter list_alter].
    rewrite Qcmult_1_l, Qcplus_0_l.
    rewrite (cons_middle v pre), app_assoc. rewrite IH.
    by rewrite <- app_assoc.
Qed.

Lemma decode_sparse_pairs (r : list weight) :
  foldl (fun acc p => alter (fun x => (x + 1 * p.2)%Qc) p.1 acc)
        (replicate (length r) 0%Qc) (sparse_pairs r)
  = r.
Proof. exact (decode_pairs r []). Qed.

Lemma find_token_app_new t r rs :
  t ∉ rs.*1 -> find_token t (rs ++ [(t, r)]) = Some (length rs).
Proof.
  induction rs as [|[t' r'] rs IH]; intros Hnew; cbn.
  - by rewrite decide_True.
  - apply not_elem_of_cons in Hnew as [Hne Hnew].
    rewrite decide_False by done. by rewrite IH.
Qed.

Lemma alter_at_length {A} (f : A -> A) (l1 l2 : list A) :
  alter f (length l1) (l1 ++ l2) = l1 ++ alter f 0%nat l2.
Proof. rewrite <- (Nat.add_0_r (length l1)). apply alter_app_r. Qed.

(** Increases of one row leave the other rows alone. *)
Lemma increase_last_row name topics pre t w pairs : forall r,
  foldl (fun acc p => increase (length pre) p.1 (w * p.2)%Qc acc)
        {| model_name := name; topic_name := topics; rows := pre ++ [(t, r)] |}
        pairs
  = {| model_name := name; topic_name := topics;
       rows := pre ++ [(t, foldl (fun acc p => alter (fun x => (x + w * p.2)%Qc) p.1 acc)
                                 r pairs)] |}.
Proof.
  induction pairs as [|p pairs IH]; intros r; [done|].
  cbn [foldl]. unfold increase at 2. cbn [model_name topic_name rows].
  rewrite alter_at_length. cbn [alter list_alter fst snd].
  apply IH.
Qed.

(** A row for a token new to the target is appended to it. *)
Lemma apply_row_new (m : PhiMatrix) (t : Token) (r : list weight) :
  t ∉ tokens m ->
  length r = length (topic_name m) ->
  apply_row 1%Qc m (t, sparse_pairs r)
  = {| model_name := model_name m; topic_name := topic_name m;
       rows := rows m ++ [(t, r)] |}.
Proof.
  intros Hnew Hlen. unfold apply_row, AddToken, token_index. cbn [fst snd].
  rewrite (proj2 (find_token_None t (rows m))) by exact Hnew.
  cbn [rows]. rewrite find_token_app_new by exact Hnew.
  rewrite increase_last_row. unfold zero_row. cbn [topic_name].
  by rewrite <- Hlen, decode_sparse_pairs.
Qed.

Lemma apply_rows_new (group : list Token) (source : list (Token * list weight)) :
  forall m : PhiMatrix,
  NoDup group ->
  Forall (fun t => t ∉ tokens m) group ->
  Forall (fun t => length (row_of t source) = length (topic_name m)) group ->
  foldl (apply_row 1%Qc) m ((fun t => (t, sparse_pairs (row_of t source))) <$> group)
  = {| model_name := model_name m; topic_name := topic_name m;
       rows := rows m ++ ((fun t => (t, row_of t source)) <$> group) |}.
Proof.
  induction group as [|t group IH]; intros m Hnd Hnew Hlen.
  - cbn. rewrite app_nil_r. by destruct m.
  - apply NoDup_cons in Hnd as [Ht Hnd].
    apply Forall_cons in Hnew as [Hnew_t Hnew]. apply Forall_cons in Hlen as [Hlen_t Hlen].
    cbn [fmap list_fmap foldl]. rewrite apply_row_new by done.
    rewrite IH; [| done | | done].
    + cbn [model_name topic_name rows]. by rewrite <- app_assoc.
    + apply Forall_forall. intros t' Hin. unfold tokens. cbn [rows].
      rewrite fmap_app. cbn. rewrite elem_of_app, list_elem_of_singleton.
      intros [Hold| ->]; [|done].
      rewrite Forall_forall in Hnew. by apply (Hnew t').
Qed.

Lemma requested_tokens_chunk_args name group :
  requested_tokens (chunk_args name group) = group.
Proof.
  unfold requested_tokens, chunk_args. cbn [gtm_token gtm_class_id].
  induction group as [|[c k] group IH]; cbn; [done | by rewrite IH].
Qed.

Lemma find_token_row_of t rs :
  t ∈ rs.*1 ->
  (fun i => (t, default [] (snd <$> rs !! i))) <$> find_token t rs
  = Some (t, row_of t rs).
Proof.
  induction rs as [|[t' r] rs IH]; intros Hin; [by apply elem_of_nil in Hin|].
  cbn [find_token row_of].
  destruct (decide (t = t')) as [->|Hne]; [done|].
  cbn in Hin. apply elem_of_cons in Hin as [?|Hin]; [done|].
  rewrite <- (IH Hin). by destruct (find_token t rs).
Qed.

(** The chunk retrieved for a group of tokens of the matrix. *)
Lemma RetrieveExternalTopicModel_group (m : PhiMatrix) name group :
  group ≠ [] ->
  Forall (fun t => t ∈ tokens m) group ->
  RetrieveExternalTopicModel m (chunk_args name group)
  = {| tm_name := model_name m;
       tm_topic_name := topic_name m;
       tm_rows := (fun t => (t, sparse_pairs (row_of t (rows m)))) <$> group |}.
Proof.
  intros Hne Hknown. unfold RetrieveExternalTopicModel.
  rewrite requested_tokens_chunk_args. cbn [gtm_use_sparse_format gtm_token chunk_args].
  assert (Hmatch : forall X Y : list (Token * list weight),
            match keyword <$> group with [] => X | _ :: _ => Y end = Y)
    by (intros X Y; by destruct group).
  rewrite Hmatch. f_equal. unfold token_index. clear Hne Hmatch.
  induction group as [|t group IH]; [done|].
  apply Forall_cons in Hknown as [Ht Hknown].
  cbn [omap list_omap]. rewrite (find_token_row_of t (rows m) Ht).
  cbn [fmap list_fmap fst snd]. f_equal. by apply IH.
Qed.

(** The groups cut the tokens without losing or repeating any. *)
Lemma concat_chunk_groups tpc : forall todo pending,
  todo ≠ [] ->
  concat (chunk_groups tpc pending todo) = pending ++ todo
  ∧ Forall (fun group => group ≠ []) (chunk_groups tpc pending todo).
Proof.
  induction todo as [|token todo IH]; intros pending Hne; [done|].
  cbn [chunk_groups].
  destruct todo as [|token' todo'].
  - cbn. rewrite app_nil_r. split; [done|].
    apply Forall_singleton. by destruct pending.
  - cbn [orb].
    destruct (tpc <=? Z.of_nat (length (pending ++ [token]))).
    + destruct (IH [] ltac:(done)) as [Hconcat Hgroups].
      cbn [concat]. rewrite Hconcat. split; [by rewrite <- app_assoc|].
      apply Forall_cons. split; [by destruct pending | done].
    + destruct (IH (pending ++ [token]) ltac:(done)) as [Hconcat Hgroups].
      rewrite Hconcat. split; [by rewrite <- app_assoc | done].
Qed.

Lemma row_of_length (m : PhiMatrix) t :
  Forall (fun r => length r.2 = length (topic_name m)) (rows m) ->
  t ∈ tokens m ->
  length (row_of t (rows m)) = length (topic_name m).
Proof.
  unfold tokens. generalize (length (topic_name m)) as n. intros n.
  induction (rows m) as [|[t' r] rs IH]; intros Hwf Hin; [by apply elem_of_nil in Hin|].
  apply Forall_cons in Hwf as [Hr Hwf]. cbn [row_of].
  destruct (decide (t = t')) as [->|Hne]; [exact Hr|].
  cbn in Hin. apply elem_of_cons in Hin as [?|Hin]; [done|]. by apply IH.
Qed.

(** The rows of a matrix with distinct tokens, read token by token. *)
Lemma rows_row_of (rs : list (Token * list weight)) :
  NoDup rs.*1 -> (fun t => (t, row_of t rs)) <$> rs.*1 = rs.
Proof.
  induction rs as [|[t r] rs IH]; intros Hnd; [done|].
  cbn in Hnd. apply NoDup_cons in Hnd as [Ht Hnd].
  cbn [fmap list_fmap fst row_of]. rewrite decide_True by done. f_equal.
  rewrite <- (IH Hnd) at 2. apply list_fmap_ext.
  intros i t' Hlookup. cbn [row_of]. apply list_elem_of_lookup_2 in Hlookup.
  rewrite decide_False; [done|]. by intros ->.
Qed.

Lemma tokens_app_rows (m : PhiMatrix) (extra : list (Token * list weight)) :
  tokens {| model_name := model_name m; topic_name := topic_name m;
            rows := rows m ++ extra |}
  = tokens m ++ extra.*1.
Proof. unfold tokens. cbn [rows]. by rewrite fmap_app. Qed.

(** The chunks of an export, imported in order into a target that has none
    of their tokens yet, append the rows of those tokens to it. *)
Lemma import_messages_groups args (n_wt : PhiMatrix) name groups : forall target,
  Forall (fun group => group ≠ []) groups ->
  NoDup (concat groups) ->
  Forall (fun t => t ∈ tokens n_wt) (concat groups) ->
  Forall (fun r => length r.2 = length (topic_name n_wt)) (rows n_wt) ->
  topic_name target = topic_name n_wt ->
  Forall (fun t => t ∉ tokens target) (concat groups) ->
  import_messages args (Some target)
    ((fun group => RetrieveExternalTopicModel n_wt (chunk_args name group)) <$> groups)
  = Some {| model_name := model_name target; topic_name := topic_name target;
            rows := rows target
                    ++ ((fun t => (t, row_of t (rows n_wt))) <$> concat groups) |}.
Proof.
  induction groups as [|group groups IH];
    intros target Hne Hnd Hknown Hwf Htopics Hnew.
  - cbn. rewrite app_nil_r. by destruct target.
  - apply Forall_cons in Hne as [Hgroup Hne]. cbn [concat] in *.
    apply NoDup_app in Hnd as (Hnd_group & Hdisjoint & Hnd_rest).
    apply Forall_app in Hknown as [Hknown_group Hknown_rest].
    apply Forall_app in Hnew as [Hnew_group Hnew_rest].
    cbn [fmap list_fmap]. unfold import_messages. cbn [foldl].
    fold (import_messages args).
    assert (Hfirst : import_message args (Some target)
                       (RetrieveExternalTopicModel n_wt (chunk_args name group))
                     = {| model_name := model_name target;
                          topic_name := topic_name target;
                          rows := rows target
                                  ++ ((fun t => (t, row_of t (rows n_wt))) <$> group) |}).
    { unfold import_message, ApplyTopicModelOperation, set_name. cbn [tm_rows].
      rewrite (RetrieveExternalTopicModel_group n_wt name group Hgroup Hknown_group).
      cbn [tm_rows]. apply apply_rows_new; [done | done |].
      apply Forall_forall. intros t Hin. rewrite Htopics.
      apply row_of_length; [done|]. rewrite Forall_forall in Hknown_group.
      by apply Hknown_group. }
    rewrite Hfirst.
    change (foldl (fun t m => Some (import_message args t m)) ?t ?l)
      with (import_messages args t l).
    rewrite IH; try done.
    + cbn [model_name topic_name rows]. f_equal. f_equal.
      by rewrite fmap_app, <- app_assoc.
    + apply Forall_forall. intros t Hin. rewrite tokens_app_rows.
      rewrite <- list_fmap_compose. cbn. rewrite list_fmap_id.
      rewrite elem_of_app. intros [Hold|Hgrp].
      * rewrite Forall_forall in Hnew_rest. by apply (Hnew_rest t).
      * by apply (Hdisjoint t).
Qed.

Section RoundTrip.

Context {codec : Codec}.

(** C3, as amended: for every matrix with at least one token and one
    topic, with distinct tokens and one weight per topic in every row,
    whatever the byte budget of a chunk (so for one chunk as for many):
    exporting it to a new file succeeds, importing that file under any
    name succeeds, and the matrix published has the topic names and, token
    by token and topic by topic, the weights of the exported matrix.  The
    serializer and the parser of the chunk message (the protobuf library,
    outside the sources) are taken to read back the chunks the export
    writes, each chunk being non-empty, not starting with a decimal
    digit, and of a length that fits an [int]. *)
Theorem ExportModel_ImportModel_round_trip
    (budget : Z) (export : ExportModelArgs) (import : ImportModelArgs)
    (w : World) (n_wt : PhiMatrix) :
  disk w !! em_file_name export = None ->
  can_create (em_file_name export) = true ->
  pwt_source w (em_model_name export) = Some n_wt ->
  rows n_wt ≠ [] ->
  topic_name n_wt ≠ [] ->
  well_formed n_wt ->
  im_file_name import = em_file_name export ->
  Forall (fun msg => framable (SerializeAsString msg)
                     ∧ ParseFromArray (SerializeAsString msg) = Some msg)
         (export_messages budget (em_model_name export) n_wt) ->
  ∃ w1 w2 m,
    ExportModel_with budget export w = (Returns tt, w1)
    ∧ ImportModel import w1 = (Returns tt, w2)
    ∧ phi_matrix_ w2 !! im_model_name import = Some m
    ∧ model_name m = im_model_name import
    ∧ topic_name m = topic_name n_wt
    ∧ rows m = rows n_wt.
Proof.
  intros Hnew Hcreate Hsource Hrows Htopics [Hnd Hwf] Hfile Hcodec.
  destruct (ExportModel_with_eq budget export w n_wt Hnew Hcreate Hsource Hrows Htopics)
    as (w1 & Hexport & _ & _ & Hdisk).
  set (msgs := export_messages budget (em_model_name export) n_wt) in *.
  set (frames := concat (frame <$> (SerializeAsString <$> msgs))) in *.
  (* the chunks, as groups of tokens *)
  assert (Htokens : tokens n_wt ≠ [])
    by (unfold tokens; destruct (rows n_wt); done).
  destruct (concat_chunk_groups (tokens_per_chunk budget n_wt) (tokens n_wt) [] Htokens)
    as [Hconcat Hgroups]. cbn [app] in Hconcat.
  set (groups := chunk_groups (tokens_per_chunk budget n_wt) [] (tokens n_wt)) in *.
  assert (Hgroups_ne : groups ≠ []).
  { intros E. rewrite E in Hconcat. by symmetry in Hconcat. }
  (* what the import makes of them *)
  assert (Himport : import_messages import None msgs
                    = Some {| model_name := im_model_name import;
                              topic_name := topic_name n_wt;
                              rows := rows n_wt |}).
  { unfold msgs, export_messages. fold groups.
    destruct groups as [|group groups'] eqn:Egroups; [done|].
    assert (Hgroup : group ≠ []) by (by apply Forall_cons in Hgroups as [? _]).
    assert (Hknown : Forall (fun t => t ∈ tokens n_wt) (concat (group :: groups')))
      by (rewrite Hconcat; by apply Forall_forall).
    assert (Hstart : import_messages import None
                       ((fun g => RetrieveExternalTopicModel n_wt
                                    (chunk_args (em_model_name export) g))
                          <$> group :: groups')
                     = import_messages import
                         (Some (DensePhiMatrix (im_model_name import) (topic_name n_wt)))
                         ((fun g => RetrieveExternalTopicModel n_wt
                                      (chunk_args (em_model_name export) g))
                            <$> group :: groups')).
    { reflexivity. }
    rewrite Hstart.
    rewrite (import_messages_groups import n_wt (em_model_name export));
      [ | done | by rewrite Hconcat | done | done | done | ].
    - cbn [model_name topic_name rows DensePhiMatrix app].
      rewrite Hconcat. unfold tokens. by rewrite rows_row_of.
    - apply Forall_forall. intros t _. cbn. apply not_elem_of_nil. }
  (* the import reads the file back *)
  assert (Hws : skip_whitespace (x00 :: frames) = x00 :: frames) by reflexivity.
  assert (Hfile' : disk w1 !! im_file_name import = Some (x00 :: frames))
    by (by rewrite Hfile).
  assert (Hpairs : Forall2 (fun chunk msg => framable chunk
                                             ∧ ParseFromArray chunk = Some msg)
                           (SerializeAsString <$> msgs) msgs).
  { clear -Hcodec. induction msgs as [|msg msgs IH]; [constructor|].
    apply Forall_cons in Hcodec as [Hmsg Hcodec]. cbn [fmap list_fmap].
    constructor; [exact Hmsg | by apply IH]. }
  pose proof (import_loop_frames import _ _ Hpairs None (length (x00 :: frames) + 2)
                (ImportModel_turns _ _ _ Hws)) as Hloop.
  fold frames in Hloop.
  exists w1. eexists. eexists. split; [exact Hexport|].
  rewrite (ImportModel_eq import w1 _ x00 frames Hfile' Hws).
  change (negb (signed_char x00 =? 0)) with false. cbn iota.
  rewrite Hloop, Himport. split; [reflexivity|].
  split; [cbn; apply lookup_insert_eq|]. done.
Qed.

End RoundTrip.

(** ** The codec that writes everything reads it back *)

Lemma get_put_N n rest : get_N (put_N n ++ rest) = Some (n, rest).
Proof.
  unfold get_N, put_N. rewrite <- app_assoc.
  destruct (decimal_head n) as (b & bs & Hdec & Hb).
  rewrite Hdec at 1. cbn [app]. rewrite Hb.
  rewrite scan_digits_decimal by reflexivity.
  change (Byte.eqb x3b x3b) with true. cbv iota. by rewrite N2Z.id.
Qed.

Lemma get_put_string s rest : get_string (put_string s ++ rest) = Some (s, rest).
Proof.
  unfold get_string, put_string. rewrite <- app_assoc, get_put_N.
  cbn [mbind option_bind]. rewrite Nat2N.id, length_app.
  destruct (Nat.leb_spec (length (list_byte_of_string s))
              (length (list_byte_of_string s) + length rest)); [|lia].
  by rewrite take_app_length, drop_app_length, string_of_list_byte_of_string.
Qed.

Lemma get_put_items {A} (put : A -> list byte) (get : list byte -> option (A * list byte)) :
  (forall a rest, get (put a ++ rest) = Some (a, rest)) ->
  forall l rest, get_items get (length l) (concat (put <$> l) ++ rest) = Some (l, rest).
Proof.
  intros Hget. induction l as [|a l IH]; intros rest; [done|].
  cbn [length fmap list_fmap concat get_items]. rewrite <- app_assoc, Hget.
  cbn [mbind option_bind]. by rewrite IH.
Qed.

Lemma get_put_list {A} (put : A -> list byte) (get : list byte -> option (A * list byte)) :
  (forall a rest, get (put a ++ rest) = Some (a, rest)) ->
  forall l rest, get_list get (put_list put l ++ rest) = Some (l, rest).
Proof.
  intros Hget l rest. unfold get_list, put_list.
  rewrite <- app_assoc, get_put_N. cbn [mbind option_bind].
  rewrite Nat2N.id. by apply get_put_items.
Qed.

Lemma get_put_Z z rest : get_Z (put_Z z ++ rest) = Some (z, rest).
Proof.
  unfold get_Z, put_Z. cbn [app]. rewrite get_put_N. cbn [mbind option_bind].
  rewrite N2Z.inj_abs_N.
  destruct (Z.ltb_spec z 0); cbn; f_equal; f_equal; lia.
Qed.

Lemma get_put_weight v rest : get_weight (put_weight v ++ rest) = Some (v, rest).
Proof.
  unfold get_weight, put_weight. rewrite <- app_assoc, get_put_Z.
  cbn [mbind option_bind]. rewrite get_put_N. cbn [mbind option_bind].
  f_equal. f_equal. apply Qc_is_canon. destruct v as [[n d] Hcanon]. cbn.
  apply Qred_correct.
Qed.

Lemma get_put_pair p rest : get_pair (put_pair p ++ rest) = Some (p, rest).
Proof.
  unfold get_pair, put_pair. rewrite <- app_assoc, get_put_N.
  cbn [mbind option_bind]. rewrite get_put_weight. cbn [mbind option_bind].
  rewrite Nat2N.id. by destruct p.
Qed.

Lemma get_put_row r rest : get_row (put_row r ++ rest) = Some (r, rest).
Proof.
  unfold get_row, put_row. rewrite <- !app_assoc, get_put_string.
  cbn [mbind option_bind]. rewrite get_put_string. cbn [mbind option_bind].
  rewrite (get_put_list put_pair get_pair get_put_pair). cbn [mbind option_bind].
  by destruct r as [[c k] pairs].
Qed.

(** The parser reads back every message the serializer writes, and what
    the serializer writes can be framed as long as it fits an [int]. *)
Lemma wire_codec_reads_back (msg : TopicModelMsg) :
  ParseFromArray (Codec := wire_codec) (SerializeAsString (Codec := wire_codec) msg)
  = Some msg.
Proof.
  cbn [ParseFromArray SerializeAsString wire_codec]. unfold get_message, put_message.
  cbn [Byte.eqb]. change (Byte.eqb x0a x0a) with true. cbv iota.
  rewrite get_put_string. cbn [mbind option_bind].
  rewrite (get_put_list put_string get_string get_put_string). cbn [mbind option_bind].
  pose proof (get_put_list put_row get_row get_put_row (tm_rows msg) []) as Hrows.
  rewrite app_nil_r in Hrows. rewrite Hrows. cbn [mbind option_bind].
  by destruct msg.
Qed.

Lemma wire_codec_framable (msg : TopicModelMsg) :
  Z.of_nat (length (SerializeAsString (Codec := wire_codec) msg)) <= INT_MAX ->
  framable (SerializeAsString (Codec := wire_codec) msg).
Proof. intros Hlength. split; [reflexivity | exact Hlength]. Qed.

Lemma other_matrix_well_formed : well_formed other_matrix.
Proof.
  split.
  - apply (bool_decide_unpack _). vm_compute. exact I.
  - repeat constructor.
Qed.

Lemma ExportModel_ImportModel_round_trip_witness :
  ∃ w1 w2 m,
    ExportModel (codec := wire_codec) export_args other_world = (Returns tt, w1)
    ∧ ImportModel (codec := wire_codec) import_args w1 = (Returns tt, w2)
    ∧ phi_matrix_ w2 !! "M3" = Some m
    ∧ model_name m = "M3"
    ∧ topic_name m = topic_name other_matrix
    ∧ rows m = rows other_matrix.
Proof.
  apply (ExportModel_ImportModel_round_trip (codec := wire_codec)
           (100 * 1024 * 1024) export_args import_args other_world other_matrix).
  - reflexivity.
  - reflexivity.
  - reflexivity.
  - discriminate.
  - discriminate.
  - exact other_matrix_well_formed.
  - reflexivity.
  - apply Forall_cons. split; [|apply Forall_nil_2].
    split; [split; [reflexivity | vm_compute; discriminate]|].
    vm_compute. reflexivity.
Defined.

(** With the codec that writes everything, the weights of [other_matrix]
    come back from the file, from one chunk as from one chunk per token. *)
Example ExportModel_ImportModel_other_weights :
  counts_of <$>
    (phi_matrix_
       (ImportModel (codec := wire_codec) import_args
          (ExportModel (codec := wire_codec) export_args other_world).2).2
     !! "M3")
  = Some [("a", [7 # 2; -3 # 1]%Q); ("b", [0 # 1; 1 # 3]%Q)]
  ∧ counts_of <$>
      (phi_matrix_
         (ImportModel (codec := wire_codec) import_args
            (ExportModel_with (codec := wire_codec) 1 export_args other_world).2).2
       !! "M3")
    = Some [("a", [7 # 2; -3 # 1]%Q); ("b", [0 # 1; 1 # 3]%Q)]
  ∧ length (export_messages 1 "M" other_matrix) = 2%nat.
Proof. repeat split; vm_compute; reflexivity. Qed.

(** The claim that the round trip holds for a matrix whose export spans
    zero chunks does not hold as it stands: line 105 refuses to export a
    matrix without tokens, and the file it leaves behind cannot be
    imported. *)
Lemma ExportModel_refuses_a_matrix_without_tokens :
  pwt_source empty_matrix_world "E" = Some (DensePhiMatrix "E" ["t0"; "t1"])
  ∧ (ExportModel (codec := sample_codec) export_empty_args empty_matrix_world).1
    = Throws (InvalidOperation "Model E has no tokens, export failed")
  ∧ returns
      (ImportModel (codec := sample_codec) import_args
         (ExportModel (codec := sample_codec) export_empty_args empty_matrix_world).2).1
    = false.
Proof. repeat split; vm_compute; reflexivity. Qed.

(** With a budget of one byte every token is a chunk of its own: the file
    holds two frames, and the import rebuilds the matrix from both. *)
Example ExportModel_ImportModel_two_chunks :
  disk (ExportModel_with (codec := sample_codec) 1 export_args raw_world).2 !! "model.bin"
  = Some ([x00] ++ [x32; x0a; x61] ++ [x32; x0a; x62])
  ∧ counts_of <$>
      (phi_matrix_
         (ImportModel (codec := sample_codec) import_args
            (ExportModel_with (codec := sample_codec) 1 export_args raw_world).2).2
       !! "M3")
    = Some [("a", [1 # 1; 0 # 1]%Q); ("b", [0 # 1; 2 # 1]%Q)].
Proof. split; vm_compute; reflexivity. Qed.

(** A matrix with tokens and no topic: line 108 divides by zero. *)
Example ExportModel_without_topics :
  (ExportModel (codec := sample_codec) export_empty_args
     {| topic_model_ := ∅;
        phi_matrix_ := {[ "E" := {| model_name := "E"; topic_name := [];
                                    rows := [(mkToken "c" "a", [])] |} ]};
        disk := ∅; journal := [] |}).1
  = Undefined "integer division by zero".
Proof. vm_compute. reflexivity. Qed.

(** ** The import loop ends *)

(** The turns [ImportModel] allows its loop are enough: the loop never
    runs out of them. *)
Lemma import_loop_total {codec : Codec} (args : ImportModelArgs) :
  forall turns fin target,
  (turns_needed fin <= turns)%nat ->
  is_Some (import_loop turns args fin target).
Proof.
  induction turns as [|turns IH]; intros fin target Hturns.
  - pose proof (turns_needed_positive fin). lia.
  - cbn [import_loop]. destruct (eofbit fin) eqn:Heof; [eauto|].
    destruct (import_turn args fin target) as [| e | why | fin1 target1] eqn:Hturn;
      eauto.
    apply IH. pose proof (import_turn_progress args fin target fin1 target1 Heof Hturn).
    lia.
Qed.

Lemma ImportModel_loop_ends {codec : Codec} (args : ImportModelArgs)
    (content : list byte) (version : byte) (rest : list byte) :
  skip_whitespace content = version :: rest ->
  is_Some (import_loop (length content + 2) args (ifstream_open rest) None).
Proof. intros Hws. apply import_loop_total. by apply (ImportModel_turns content version). Qed.

(** * Further properties of the methods *)

(** ** CreateOrReconfigureModel *)

(** In dense mode a configuration naming classes or class weights is
    rejected before the instance is reached; every other configuration
    is handed to the instance, unchanged and once. *)
Theorem CreateOrReconfigureModel_forwards_or_rejects (config : ModelConfig) (w : World) :
  let class_fields := mc_class_weight config ≠ [] ∨ mc_class_id config ≠ [] in
  (class_fields ∧ mc_use_sparse_bow config = false ->
     ∃ what, CreateOrReconfigureModel config w = (Throws (InvalidOperation what), w))
  ∧ (¬ class_fields ∨ mc_use_sparse_bow config = true ->
     CreateOrReconfigureModel config w
     = (Returns tt, record (Instance_CreateOrReconfigureModel config) w)).
Proof.
  intros class_fields. subst class_fields. unfold CreateOrReconfigureModel.
  split.
  - intros [Hfields Hdense]. rewrite Hdense.
    destruct (mc_class_weight config) as [|x weights],
             (mc_class_id config) as [|c classes]; cbn; eauto.
    destruct Hfields; congruence.
  - intros [Hnone|Hsparse].
    + destruct (mc_class_weight config) as [|x weights]; [|exfalso; apply Hnone; by left].
      destruct (mc_class_id config) as [|c classes]; [|exfalso; apply Hnone; by right].
      reflexivity.
    + rewrite Hsparse. cbn. by rewrite andb_false_r.
Qed.

Lemma CreateOrReconfigureModel_forwards_or_rejects_witness :
  CreateOrReconfigureModel (sample_config true) empty_world
  = (Returns tt, record (Instance_CreateOrReconfigureModel (sample_config true)) empty_world).
Proof.
  apply (CreateOrReconfigureModel_forwards_or_rejects (sample_config true) empty_world).
  right. reflexivity.
Defined.

(** ** WaitIdle *)

Lemma WaitIdle_eq env args w :
  WaitIdle env args w
  = let warning :=
      if timeout_milliseconds args =? 0
      then [LOG_WARNING "WaitIdleArgs.timeout_milliseconds == 0"] else [] in
    if data_loader_WaitIdle env args then
      (Returns (merger_WaitIdle env (second_wait_args env args)),
       journal_add (warning ++ [DataLoader_WaitIdle args;
                                Merger_WaitIdle (second_wait_args env args)]) w)
    else (Returns false, journal_add (warning ++ [DataLoader_WaitIdle args]) w).
Proof.
  assert (Hargs : second_wait_args env args
                  = if negb (timeout_milliseconds args =? -1)
                    then {| timeout_milliseconds :=
                              wrap32 (timeout_milliseconds args
                                      - total_milliseconds (time_end env - time_start env)) |}
                    else args).
  { unfold second_wait_args.
    destruct (Z.eqb_spec (timeout_milliseconds args) (-1)) as [E|E]; simpl; [|done].
    destruct args as [t]. simpl in E. by subst. }
  unfold WaitIdle. rewrite <- Hargs.
  unfold mbind, M_bind, log_warning, invoke, mret, M_ret.
  destruct (timeout_milliseconds args =? 0); simpl;
    destruct (data_loader_WaitIdle env args); simpl;
    by rewrite !record_journal_add, ?journal_add_add.
Qed.

(** The budget left for the second wait is not clamped at zero.  When the
    first wait reports idle after lasting longer than a non-negative
    timeout, the second wait is called with the negative difference; when
    it lasted exactly one millisecond longer that is -1, the value
    [WaitIdle] itself takes to mean that there is no timeout. *)
Theorem WaitIdle_overrun_is_passed_on (env : WaitEnv) (args : WaitIdleArgs) (w : World) :
  let timeout := timeout_milliseconds args in
  let elapsed := total_milliseconds (time_end env - time_start env) in
  data_loader_WaitIdle env args = true ->
  0 <= timeout <= INT_MAX ->
  timeout < elapsed <= INT_MAX ->
  let remaining := {| timeout_milliseconds := timeout - elapsed |} in
  timeout - elapsed < 0
  ∧ (WaitIdle env args w).1 = Returns (merger_WaitIdle env remaining)
  ∧ last (journal (WaitIdle env args w).2) = Some (Merger_WaitIdle remaining)
  ∧ (elapsed = timeout + 1 -> remaining = {| timeout_milliseconds := -1 |}).
Proof.
  intros timeout elapsed Hfirst Htimeout Helapsed remaining.
  assert (Hsecond : second_wait_args env args = remaining).
  { unfold second_wait_args, remaining. fold timeout. fold elapsed.
    destruct (Z.eqb_spec timeout (-1)) as [E|E]; [lia|].
    rewrite wrap32_in_int; [done|]. unfold in_int, INT_MIN, INT_MAX in *. lia. }
  rewrite WaitIdle_eq. cbv zeta. rewrite Hfirst, Hsecond. cbn [fst snd journal_add journal].
  split; [lia|]. split; [done|]. split.
  - change [DataLoader_WaitIdle args; Merger_WaitIdle remaining]
      with ([DataLoader_WaitIdle args] ++ [Merger_WaitIdle remaining]).
    rewrite !app_assoc. apply last_snoc.
  - intros E. unfold remaining. f_equal. lia.
Qed.

Lemma WaitIdle_overrun_is_passed_on_witness :
  (WaitIdle overrun_wait_env {| timeout_milliseconds := 399 |} empty_world).1
  = Returns true.
Proof.
  destruct (WaitIdle_overrun_is_passed_on overrun_wait_env
              {| timeout_milliseconds := 399 |} empty_world)
    as (_ & Hresult & _ & _).
  - reflexivity.
  - unfold INT_MAX. simpl. lia.
  - unfold INT_MAX. vm_compute. split; [reflexivity | discriminate].
  - rewrite Hresult. reflexivity.
Defined.

(** ** MergeModel *)

(** Whatever its arguments and however it ends, [MergeModel] leaves the
    versioned models, the files and every raw matrix other than its
    target as they were, publishes at most one matrix, and publishes none
    when it throws. *)
Theorem MergeModel_touches_only_its_target (args : MergeModelArgs) (w : World) :
  let w' := (MergeModel args w).2 in
  topic_model_ w' = topic_model_ w
  ∧ disk w' = disk w
  ∧ (forall name, name ≠ mm_nwt_target_name args ->
       phi_matrix_ w' !! name = phi_matrix_ w !! name)
  ∧ (returns (MergeModel args w).1 = false ->
       phi_matrix_ w' = phi_matrix_ w
       ∧ published (journal w') = published (journal w))
  ∧ (returns (MergeModel args w).1 = true ->
       ∃ t, phi_matrix_ w' = <[mm_nwt_target_name args := t]> (phi_matrix_ w)
            ∧ published (journal w')
              = published (journal w) ++ [(mm_nwt_target_name args, t)]).
Proof.
  assert (Hpublished : forall names,
            published (journal w ++ merge_journal w names) = published (journal w)).
  { intros names. rewrite published_app.
    assert (H : published (merge_journal w names) = []).
    { induction names as [|n names IH]; [done|]. cbn [merge_journal].
      rewrite !published_app, IH. cbn. by destruct (model_exists w n). }
    by rewrite H, app_nil_r. }
  destruct (decide (mm_nwt_source_name args = [])) as [Hempty|Hne].
  { unfold MergeModel. rewrite Hempty. cbn. repeat split; try done; intros [=]. }
  destruct (decide (length (mm_nwt_source_name args) = length (mm_source_weight args)))
    as [Hlen|Hlen].
  2: { assert (H : ∃ what, MergeModel args w = (Throws (InvalidOperation what), w)).
       { unfold MergeModel.
         destruct (length (mm_nwt_source_name args) =? 0)%nat; [eauto|].
         apply Nat.eqb_neq in Hlen. rewrite Hlen. cbn. eauto. }
       destruct H as [what ->]. cbn. repeat split; try done; intros [=]. }
  rewrite (MergeModel_eq args w Hne Hlen). cbv zeta.
  destruct (merged w args _ None) as [t|];
    unfold SetPhiMatrix, record, journal_add;
    cbn [fst snd topic_model_ phi_matrix_ disk journal returns].
  - split; [done|]. split; [done|]. split; [|split].
    + intros name Hname. by rewrite lookup_insert_ne.
    + intros [=].
    + intros _. exists t. split; [done|].
      by rewrite published_app, Hpublished.
  - split; [done|]. split; [done|]. split; [done|]. split.
    + intros _. split; [done|]. apply Hpublished.
    + intros [=].
Qed.

(** ** RegularizeModel *)

Section RegularizeProperties.

Variable InvokePhiRegularizers :
  list RegularizerSettings -> PhiMatrix -> PhiMatrix -> PhiMatrix -> PhiMatrix.

Lemma RegularizeModel_eq args w pwt nwt rwt :
  rm_pwt_source_name args = Some pwt ->
  rm_nwt_source_name args = Some nwt ->
  rm_rwt_target_name args = Some rwt ->
  RegularizeModel InvokePhiRegularizers args w
  = let w1 := journal_add [Merger_GetPhiMatrix nwt; Merger_GetLatestTopicModel nwt] w in
    let w2 := journal_add [Merger_GetPhiMatrix nwt; Merger_GetLatestTopicModel nwt;
                           Merger_GetPhiMatrix pwt; Merger_GetLatestTopicModel pwt] w in
    match nwt_source w nwt with
    | None => (Throws (InvalidOperation ("Model " +:+ nwt +:+ " does not exist")), w1)
    | Some n_wt =>
        match pwt_source w pwt with
        | None => (Throws (InvalidOperation ("Model " +:+ pwt +:+ " does not exist")), w2)
        | Some p_wt =>
            match phi_matrix_ w !! nwt with
            | None => (Undefined "nwt_phi_matrix is null", w2)
            | Some nwt_phi =>
                SetPhiMatrix rwt
                  (InvokePhiRegularizers (rm_regularizer_settings args) p_wt n_wt
                     (fresh_target rwt nwt_phi)) w2
            end
        end
    end.
Proof.
  intros Hp Hn Hr.
  unfold RegularizeModel. rewrite Hp, Hn, Hr. cbn [default bool_decide negb].
  rewrite !bool_decide_eq_true_2 by eauto. cbn [negb].
  unfold mbind, M_bind, GetPhiMatrix, GetLatestTopicModel, id.
  rewrite !record_journal_add, ?journal_add_add,
    ?topic_model_journal_add, ?phi_matrix_journal_add.
  unfold nwt_source, pwt_source. cbv zeta. cbn [app].
  destruct (topic_model_ w !! nwt) as [ntm|], (phi_matrix_ w !! nwt) as [npm|];
    try done;
    rewrite !record_journal_add, ?journal_add_add,
      ?topic_model_journal_add, ?phi_matrix_journal_add; cbn [app];
    destruct (topic_model_ w !! pwt) as [ptm|], (phi_matrix_ w !! pwt) as [ppm|];
    done.
Qed.

(** A call that leaves out one of its three names throws invalid-operation
    for the first one missing, in the order probabilities, counts, target,
    before any model is looked up: the state, journal included, is as
    before the call. *)
Theorem RegularizeModel_requires_its_names
    (args : RegularizeModelArgs) (w : World) (field : string) :
  first_missing_name args = Some field ->
  RegularizeModel InvokePhiRegularizers args w
  = (Throws (InvalidOperation ("RegularizeModelArgs." +:+ field +:+ " is missing")), w).
Proof.
  unfold first_missing_name, RegularizeModel.
  destruct (rm_pwt_source_name args) as [pwt|]; [|by intros [= <-]].
  destruct (rm_nwt_source_name args) as [nwt|]; [|by intros [= <-]].
  destruct (rm_rwt_target_name args) as [rwt|]; [done|by intros [= <-]].
Qed.

(** With its three names given, [RegularizeModel] asks for the counts
    first: when they do not exist it throws without looking up the
    probabilities; when only the probabilities do not exist it throws for
    them.  Either way nothing is published. *)
Theorem RegularizeModel_needs_both_sources
    (args : RegularizeModelArgs) (w : World) (pwt nwt rwt : string) :
  rm_pwt_source_name args = Some pwt ->
  rm_nwt_source_name args = Some nwt ->
  rm_rwt_target_name args = Some rwt ->
  let result := RegularizeModel InvokePhiRegularizers args w in
  (model_exists w nwt = false ->
     result.1 = Throws (InvalidOperation ("Model " +:+ nwt +:+ " does not exist"))
     ∧ journal result.2
       = journal w ++ [Merger_GetPhiMatrix nwt; Merger_GetLatestTopicModel nwt])
  ∧ (model_exists w nwt = true -> model_exists w pwt = false ->
     result.1 = Throws (InvalidOperation ("Model " +:+ pwt +:+ " does not exist")))
  ∧ (model_exists w nwt = false ∨ model_exists w pwt = false ->
     phi_matrix_ result.2 = phi_matrix_ w
     ∧ published (journal result.2) = published (journal w)).
Proof.
  intros Hp Hn Hr result. subst result.
  rewrite (RegularizeModel_eq args w pwt nwt rwt Hp Hn Hr). cbv zeta.
  assert (Hpwt : model_exists w pwt = false <-> pwt_source w pwt = None).
  { split.
    - intros H. destruct (pwt_source w pwt) eqn:E; [|done].
      assert (model_exists w pwt = true) by (apply model_exists_pwt_source; eauto).
      congruence.
    - intros H. destruct (model_exists w pwt) eqn:E; [|done].
      apply model_exists_pwt_source in E as [m E]. congruence. }
  split; [|split].
  - intros Hmissing. apply model_exists_false in Hmissing. by rewrite Hmissing.
  - intros Hexists Hmissing. apply model_exists_nwt_source in Hexists as [n_wt ->].
    apply Hpwt in Hmissing. by rewrite Hmissing.
  - intros Hmissing.
    destruct (nwt_source w nwt) as [n_wt|] eqn:En.
    + destruct Hmissing as [Hmissing|Hmissing].
      { apply model_exists_false in Hmissing. congruence. }
      apply Hpwt in Hmissing. rewrite Hmissing. cbn.
      split; [done|]. rewrite published_app. cbn. by rewrite app_nil_r.
    + cbn. split; [done|]. rewrite published_app. cbn. by rewrite app_nil_r.
Qed.

(** When the counts exist as a raw matrix and the probabilities exist,
    [RegularizeModel] returns and publishes under the target name what the
    regularizers make of a zero matrix with the topic names and tokens of
    that raw matrix.  The counts handed to the regularizers are those of
    the versioned model when the name has one. *)
Theorem RegularizeModel_publishes_the_regularized_target
    (args : RegularizeModelArgs) (w : World) (pwt nwt rwt : string)
    (p_wt n_wt nwt_phi : PhiMatrix) :
  rm_pwt_source_name args = Some pwt ->
  rm_nwt_source_name args = Some nwt ->
  rm_rwt_target_name args = Some rwt ->
  pwt_source w pwt = Some p_wt ->
  nwt_source w nwt = Some n_wt ->
  phi_matrix_ w !! nwt = Some nwt_phi ->
  let result := RegularizeModel InvokePhiRegularizers args w in
  let rwt_target := fresh_target rwt nwt_phi in
  result.1 = Returns tt
  ∧ phi_matrix_ result.2
    = <[rwt := InvokePhiRegularizers (rm_regularizer_settings args) p_wt n_wt rwt_target]>
        (phi_matrix_ w)
  ∧ topic_model_ result.2 = topic_model_ w
  ∧ model_name rwt_target = rwt
  ∧ topic_name rwt_target = topic_name nwt_phi
  ∧ zero_matrix rwt_target
  ∧ (NoDup (tokens nwt_phi) -> tokens rwt_target = tokens nwt_phi).
Proof.
  intros Hp Hn Hr Hpwt Hnwt Hphi result rwt_target. subst result.
  rewrite (RegularizeModel_eq args w pwt nwt rwt Hp Hn Hr). cbv zeta.
  rewrite Hnwt, Hpwt, Hphi. cbn.
  repeat split; try done.
  - unfold rwt_target, fresh_target, Reshape.
    apply (foldl_invariant (fun m => model_name m = rwt)); [|done].
    intros a b Ha. by rewrite AddToken_model_name.
  - unfold rwt_target, fresh_target. by rewrite Reshape_topic_name.
  - apply Reshape_zero.
  - intros Hnd. by apply Reshape_tokens.
Qed.

End RegularizeProperties.

Lemma RegularizeModel_requires_its_names_witness :
  RegularizeModel (fun _ _ _ target => target)
    {| rm_pwt_source_name := Some "M"; rm_nwt_source_name := None;
       rm_rwt_target_name := Some "R"; rm_regularizer_settings := [] |} raw_world
  = (Throws (InvalidOperation "RegularizeModelArgs.nwt_source_name is missing"), raw_world).
Proof.
  apply (RegularizeModel_requires_its_names (fun _ _ _ target => target)
           {| rm_pwt_source_name := Some "M"; rm_nwt_source_name := None;
              rm_rwt_target_name := Some "R"; rm_regularizer_settings := [] |}
           raw_world "nwt_source_name").
  reflexivity.
Defined.

Lemma RegularizeModel_needs_both_sources_witness :
  (RegularizeModel (fun _ _ _ target => target) (regularize_args "M" "X" "R") raw_world).1
  = Throws (InvalidOperation "Model X does not exist").
Proof.
  destruct (RegularizeModel_needs_both_sources (fun _ _ _ target => target)
              (regularize_args "M" "X" "R") raw_world "M" "X" "R"
              eq_refl eq_refl eq_refl) as (Hcounts & _ & _).
  apply Hcounts. reflexivity.
Defined.

Lemma RegularizeModel_publishes_the_regularized_target_witness :
  (RegularizeModel (fun _ _ _ target => target) (regularize_args "M" "M" "R") raw_world).1
  = Returns tt.
Proof.
  apply (RegularizeModel_publishes_the_regularized_target (fun _ _ _ target => target)
           (regularize_args "M" "M" "R") raw_world "M" "M" "R"
           sample_matrix sample_matrix sample_matrix); reflexivity.
Defined.


(** ** NormalizeModel *)

Section NormalizeProperties.

Variable FindPwt : PhiMatrix -> PhiMatrix -> PhiMatrix.
Variable FindPwt_rwt : PhiMatrix -> PhiMatrix -> PhiMatrix -> PhiMatrix.

Lemma NormalizeModel_eq args w pwt nwt :
  nm_pwt_target_name args = Some pwt ->
  nm_nwt_source_name args = Some nwt ->
  NormalizeModel FindPwt FindPwt_rwt args w
  = match pwt_source w nwt with
    | None =>
        (Throws (InvalidOperation ("Model " +:+ nwt +:+ " does not exist")),
         journal_add (take 2 (normalize_lookups args)) w)
    | Some n_wt =>
        let w' := journal_add (normalize_lookups args) w in
        match rwt_source w args with
        | None =>
            (Throws (InvalidOperation
               ("Model " +:+ default "" (nm_rwt_source_name args) +:+ " does not exist")),
             w')
        | Some None => SetPhiMatrix pwt (FindPwt n_wt (fresh_target pwt n_wt)) w'
        | Some (Some r_wt) =>
            SetPhiMatrix pwt (FindPwt_rwt n_wt r_wt (fresh_target pwt n_wt)) w'
        end
    end.
Proof.
  intros Hp Hn.
  unfold NormalizeModel, normalize_lookups, rwt_source. rewrite Hp, Hn.
  cbn [default bool_decide negb].
  rewrite !bool_decide_eq_true_2 by eauto. cbn [negb].
  unfold mbind, M_bind, GetPhiMatrix, GetLatestTopicModel, id.
  rewrite !record_journal_add, ?journal_add_add,
    ?topic_model_journal_add, ?phi_matrix_journal_add.
  unfold pwt_source. cbv zeta. cbn [app take].
  destruct (topic_model_ w !! nwt) as [ntm|], (phi_matrix_ w !! nwt) as [npm|];
    try done;
    rewrite !record_journal_add, ?journal_add_add,
      ?topic_model_journal_add, ?phi_matrix_journal_add; cbn [app];
    (destruct (nm_rwt_source_name args) as [rwt|]; cbn [default id];
     [ rewrite bool_decide_eq_true_2 by eauto;
       destruct (topic_model_ w !! rwt) as [rtm|], (phi_matrix_ w !! rwt) as [rpm|];
       done
     | rewrite bool_decide_eq_false_2 by (intros [? [=]]);
       done ]).
Qed.

(** A call without a target name, or without a source name, throws
    invalid-operation before any model is looked up: the state, journal
    included, is as before the call.  The message is that of the missing
    target name in both cases. *)
Theorem NormalizeModel_requires_its_names (args : NormalizeModelArgs) (w : World) :
  nm_pwt_target_name args = None ∨ nm_nwt_source_name args = None ->
  NormalizeModel FindPwt FindPwt_rwt args w
  = (Throws (InvalidOperation "NormalizeModelArgs.pwt_target_name is missing"), w).
Proof.
  unfold NormalizeModel.
  destruct (nm_pwt_target_name args) as [pwt|]; [|done].
  destruct (nm_nwt_source_name args) as [nwt|]; [|done].
  by intros [[=]|[=]].
Qed.

(** With both names given, a source that does not exist makes the call
    throw invalid-operation naming it; so does a regularizer matrix that
    is named and does not exist, once the source is found.  Either way
    nothing is published. *)
Theorem NormalizeModel_needs_its_sources
    (args : NormalizeModelArgs) (w : World) (pwt nwt : string) :
  nm_pwt_target_name args = Some pwt ->
  nm_nwt_source_name args = Some nwt ->
  let result := NormalizeModel FindPwt FindPwt_rwt args w in
  (model_exists w nwt = false ->
     result.1 = Throws (InvalidOperation ("Model " +:+ nwt +:+ " does not exist"))
     ∧ phi_matrix_ result.2 = phi_matrix_ w
     ∧ published (journal result.2) = published (journal w))
  ∧ (forall rwt,
       model_exists w nwt = true ->
       nm_rwt_source_name args = Some rwt ->
       model_exists w rwt = false ->
       result.1 = Throws (InvalidOperation ("Model " +:+ rwt +:+ " does not exist"))
       ∧ phi_matrix_ result.2 = phi_matrix_ w
       ∧ published (journal result.2) = published (journal w)).
Proof.
  intros Hp Hn result. subst result.
  rewrite (NormalizeModel_eq args w pwt nwt Hp Hn).
  assert (Hpwt : forall name, model_exists w name = false -> pwt_source w name = None).
  { intros name H. destruct (pwt_source w name) eqn:E; [|done].
    assert (model_exists w name = true) by (apply model_exists_pwt_source; eauto).
    congruence. }
  split.
  - intros Hmissing. rewrite (Hpwt _ Hmissing).
    unfold journal_add. cbn [fst snd phi_matrix_ journal].
    split; [done|]. split; [done|].
    rewrite published_app. cbn. by rewrite app_nil_r.
  - intros rwt Hexists Hr Hmissing.
    apply model_exists_pwt_source in Hexists as [n_wt ->]. cbv zeta.
    unfold rwt_source. rewrite Hr, (Hpwt _ Hmissing). cbn [fmap option_fmap option_map default].
    unfold journal_add. cbn [fst snd phi_matrix_ journal id].
    split; [done|]. split; [done|].
    rewrite published_app. cbn. by rewrite app_nil_r.
Qed.

(** With both names given, the source found and the regularizer matrix,
    if named, found, the call returns and publishes under the target name
    what [FindPwt] makes of a zero matrix with the topic names and tokens
    of the source.  The matrix normalised is, for a versioned model, its
    probabilities; a versioned model needs no raw matrix beside it.  The
    regularizer name is looked up even when none is given. *)
Theorem NormalizeModel_publishes_the_normalized_target
    (args : NormalizeModelArgs) (w : World) (pwt nwt : string)
    (n_wt : PhiMatrix) (r_wt : option PhiMatrix) :
  nm_pwt_target_name args = Some pwt ->
  nm_nwt_source_name args = Some nwt ->
  pwt_source w nwt = Some n_wt ->
  rwt_source w args = Some r_wt ->
  let result := NormalizeModel FindPwt FindPwt_rwt args w in
  let pwt_target := fresh_target pwt n_wt in
  let normalized :=
    match r_wt with
    | None => FindPwt n_wt pwt_target
    | Some r_wt => FindPwt_rwt n_wt r_wt pwt_target
    end in
  result.1 = Returns tt
  ∧ phi_matrix_ result.2 = <[pwt := normalized]> (phi_matrix_ w)
  ∧ topic_model_ result.2 = topic_model_ w
  ∧ journal result.2
    = journal w ++ normalize_lookups args ++ [Merger_SetPhiMatrix pwt normalized]
  ∧ model_name pwt_target = pwt
  ∧ topic_name pwt_target = topic_name n_wt
  ∧ zero_matrix pwt_target
  ∧ (NoDup (tokens n_wt) -> tokens pwt_target = tokens n_wt).
Proof.
  intros Hp Hn Hnwt Hrwt result pwt_target normalized. subst result.
  rewrite (NormalizeModel_eq args w pwt nwt Hp Hn). rewrite Hnwt. cbv zeta.
  rewrite Hrwt.
  assert (Hshape : model_name pwt_target = pwt
                   ∧ topic_name pwt_target = topic_name n_wt
                   ∧ zero_matrix pwt_target
                   ∧ (NoDup (tokens n_wt) -> tokens pwt_target = tokens n_wt)).
  { split; [|split; [|split]].
    - unfold pwt_target, fresh_target, Reshape.
      apply (foldl_invariant (fun m => model_name m = pwt)); [|done].
      intros a b Ha. by rewrite AddToken_model_name.
    - unfold pwt_target, fresh_target. by rewrite Reshape_topic_name.
    - apply Reshape_zero.
    - intros Hnd. by apply Reshape_tokens. }
  destruct r_wt as [r_wt|]; unfold SetPhiMatrix, record, journal_add;
    cbn [fst snd topic_model_ phi_matrix_ journal];
    rewrite <- app_assoc; done.
Qed.

End NormalizeProperties.

Lemma NormalizeModel_requires_its_names_witness :
  NormalizeModel (fun _ target => target) (fun _ _ target => target)
    {| nm_pwt_target_name := Some "P"; nm_nwt_source_name := None;
       nm_rwt_source_name := None |} raw_world
  = (Throws (InvalidOperation "NormalizeModelArgs.pwt_target_name is missing"), raw_world).
Proof.
  apply (NormalizeModel_requires_its_names (fun _ target => target)
           (fun _ _ target => target)
           {| nm_pwt_target_name := Some "P"; nm_nwt_source_name := None;
              nm_rwt_source_name := None |} raw_world).
  right. reflexivity.
Defined.

Lemma NormalizeModel_needs_its_sources_witness :
  (NormalizeModel (fun _ target => target) (fun _ _ target => target)
     (normalize_args "P" "M" (Some "X")) raw_world).1
  = Throws (InvalidOperation "Model X does not exist").
Proof.
  destruct (NormalizeModel_needs_its_sources (fun _ target => target)
              (fun _ _ target => target)
              (normalize_args "P" "M" (Some "X")) raw_world "P" "M" eq_refl eq_refl)
    as [_ Hregularizer].
  apply (Hregularizer "X"); reflexivity.
Defined.

Lemma NormalizeModel_publishes_the_normalized_target_witness :
  (NormalizeModel (fun _ target => target) (fun _ _ target => target)
     (normalize_args "P" "V" None) versioned_world).1
  = Returns tt
  ∧ tokens <$>
      (phi_matrix_
         (NormalizeModel (fun _ target => target) (fun _ _ target => target)
            (normalize_args "P" "V" None) versioned_world).2 !! "P")
    = Some (tokens sample_matrix).
Proof.
  destruct (NormalizeModel_publishes_the_normalized_target (fun _ target => target)
              (fun _ _ target => target)
              (normalize_args "P" "V" None) versioned_world "P" "V"
              sample_matrix None eq_refl eq_refl eq_refl eq_refl)
    as (Hreturns & Hphi & _).
  split; [exact Hreturns|].
  rewrite Hphi. vm_compute. reflexivity.
Defined.

(** ** Construction and Reconfigure *)

Section ConfigurationProperties.

Context {instance_ops : InstanceOps}.

(** Once configured, a master component refuses a configuration with
    another disk path: [Reconfigure] throws invalid-operation and neither
    the stored configuration nor the instance changes. *)
Theorem Reconfigure_rejects_a_new_disk_path
    (user_config : MasterComponentConfig) (this : MasterComponent) :
  is_configured_ this = true ->
  mcc_disk_path user_config ≠ mcc_disk_path (config_ this) ->
  Reconfigure user_config this
  = (Throws (InvalidOperation "Changing disk_path is not supported."), this).
Proof.
  intros Hconfigured Hpath. unfold Reconfigure, ValidateConfig.
  rewrite Hconfigured. by rewrite bool_decide_eq_false_2.
Qed.

Lemma Reconfigure_accepted user_config this :
  is_configured_ this = false ∨ mcc_disk_path user_config = mcc_disk_path (config_ this) ->
  Reconfigure user_config this
  = let this1 :=
      {| is_configured_ := is_configured_ this; master_id_ := master_id_ this;
         config_ := stored_config user_config; instance_ := instance_ this |} in
    if is_configured_ this then
      match instance_ this with
      | None => (Undefined "instance_ is null", this1)
      | Some i =>
          ((Instance_Reconfigure (stored_config user_config) i).1,
           {| is_configured_ := true; master_id_ := master_id_ this;
              config_ := stored_config user_config;
              instance_ := Some (Instance_Reconfigure (stored_config user_config) i).2 |})
      end
    else
      match new_Instance (stored_config user_config) with
      | Returns i =>
          (Returns tt,
           {| is_configured_ := true; master_id_ := master_id_ this;
              config_ := stored_config user_config; instance_ := Some i |})
      | Throws e => (Throws e, this1)
      | Undefined why => (Undefined why, this1)
      end.
Proof.
  intros Haccepted.
  assert (Hstored :
            (if negb (bool_decide (is_Some (mcc_processor_queue_max_size user_config)))
             then set_processor_queue_max_size (mcc_processors_count user_config) user_config
             else user_config) = stored_config user_config).
  { unfold stored_config, set_processor_queue_max_size.
    destruct user_config as [path count [size|] cache scores]; reflexivity. }
  unfold Reconfigure, ValidateConfig. cbv zeta.
  destruct (is_configured_ this) eqn:Hconfigured.
  - destruct Haccepted as [[=]|Hpath].
    rewrite bool_decide_eq_true_2 by done. cbn [negb].
    rewrite Hstored. cbn [is_configured_ negb instance_ master_id_ config_].
    destruct (instance_ this) as [i|]; [|done].
    by destruct (Instance_Reconfigure (stored_config user_config) i) as [o i'].
  - rewrite Hstored. cbn [is_configured_ negb instance_ master_id_ config_].
    by destruct (new_Instance (stored_config user_config)).
Qed.

(** A configuration that passes the check is stored before the instance
    sees it, with the queue size defaulted to the number of processors
    when it is not set: the stored configuration is the new one whether
    the instance accepts it or throws.  When the call returns, the
    instance is the one constructed from, or reconfigured with, exactly
    the stored configuration. *)
Theorem Reconfigure_stores_the_configuration_first
    (user_config : MasterComponentConfig) (this : MasterComponent) :
  is_configured_ this = false ∨ mcc_disk_path user_config = mcc_disk_path (config_ this) ->
  let result := Reconfigure user_config this in
  config_ result.2 = stored_config user_config
  ∧ master_id_ result.2 = master_id_ this
  ∧ (is_Some (mcc_processor_queue_max_size user_config) ->
       config_ result.2 = user_config)
  ∧ (result.1 = Returns tt ->
       is_configured_ result.2 = true
       ∧ ∃ i, instance_ result.2 = Some i
          ∧ if is_configured_ this
            then ∃ i0, instance_ this = Some i0
                       ∧ Instance_Reconfigure (config_ result.2) i0 = (Returns tt, i)
            else new_Instance (config_ result.2) = Returns i).
Proof.
  intros Haccepted result. subst result.
  rewrite (Reconfigure_accepted user_config this Haccepted). cbv zeta.
  assert (Hset : is_Some (mcc_processor_queue_max_size user_config) ->
                 stored_config user_config = user_config).
  { intros [size Hsize]. unfold stored_config.
    destruct user_config as [path count queue cache scores]. cbn in *. by subst. }
  destruct (is_configured_ this) eqn:Hconfigured.
  - destruct (instance_ this) as [i0|] eqn:Hinstance; cbn.
    + split; [done|]. split; [done|]. split; [done|].
      intros Hreturns. split; [done|]. eexists. split; [done|].
      exists i0. split; [done|].
      destruct (Instance_Reconfigure (stored_config user_config) i0) as [o i'].
      cbn in *. by subst.
    + split; [done|]. split; [done|]. split; [done|]. intros [=].
  - destruct (new_Instance (stored_config user_config)) as [i|e|why] eqn:Hnew; cbn.
    + split; [done|]. split; [done|]. split; [done|].
      intros _. split; [done|]. by exists i.
    + split; [done|]. split; [done|]. split; [done|]. intros [=].
    + split; [done|]. split; [done|]. split; [done|]. intros [=].
Qed.

(** A master component that was constructed stays configured, keeps its
    instance and its id, and keeps the disk path it was constructed with,
    through every sequence of later [Reconfigure] calls, whether they
    return or throw. *)
Theorem MasterComponent_keeps_its_disk_path
    (id : Z) (config : MasterComponentConfig) (this : MasterComponent)
    (configs : list MasterComponentConfig) :
  MasterComponent_new id config = Returns this ->
  let later := reconfigured this configs in
  is_configured_ later = true
  ∧ is_Some (instance_ later)
  ∧ master_id_ later = id
  ∧ mcc_disk_path (config_ later) = mcc_disk_path config
  ∧ is_Some (mcc_processor_queue_max_size (config_ later)).
Proof.
  intros Hnew later. subst later.
  assert (Hstart : is_configured_ this = true
                   ∧ is_Some (instance_ this)
                   ∧ master_id_ this = id
                   ∧ mcc_disk_path (config_ this) = mcc_disk_path config
                   ∧ is_Some (mcc_processor_queue_max_size (config_ this))).
  { unfold MasterComponent_new in Hnew.
    rewrite Reconfigure_accepted in Hnew by (by left). cbv zeta in Hnew.
    cbn [is_configured_] in Hnew.
    destruct (new_Instance (stored_config config)) as [i|e|why]; [|done|done].
    injection Hnew as <-. cbn. eauto 10. }
  clear Hnew. revert this Hstart.
  induction configs as [|c configs IH]; intros this Hstart; [done|].
  cbn [reconfigured foldl]. apply IH.
  destruct Hstart as (Hconfigured & [i Hinstance] & Hid & Hpath & Hqueue).
  destruct (decide (mcc_disk_path c = mcc_disk_path (config_ this))) as [Hsame|Hnew].
  - rewrite Reconfigure_accepted by (by right). cbv zeta.
    rewrite Hconfigured, Hinstance. cbn. rewrite Hsame. eauto 10.
  - unfold Reconfigure, ValidateConfig.
    rewrite Hconfigured, bool_decide_eq_false_2 by done. cbn. eauto 10.
Qed.

End ConfigurationProperties.

Lemma Reconfigure_rejects_a_new_disk_path_witness :
  ∃ this,
    MasterComponent_new (instance_ops := sample_instance_ops) 1 (sample_master_config "/a")
    = Returns this
    ∧ Reconfigure (sample_master_config "/b") this
      = (Throws (InvalidOperation "Changing disk_path is not supported."), this).
Proof.
  eexists. split; [reflexivity|].
  apply (Reconfigure_rejects_a_new_disk_path (instance_ops := sample_instance_ops)).
  - reflexivity.
  - discriminate.
Defined.

Lemma Reconfigure_stores_the_configuration_first_witness :
  ∃ this,
    MasterComponent_new (instance_ops := sample_instance_ops) 1 (sample_master_config "/a")
    = Returns this
    ∧ mcc_processor_queue_max_size
        (config_ (Reconfigure (sample_master_config "/a") this).2)
      = Some 4.
Proof.
  eexists. split; [reflexivity|].
  match goal with
  | |- context [Reconfigure ?c ?this] =>
      destruct (Reconfigure_stores_the_configuration_first
                  (instance_ops := sample_instance_ops) c this) as (Hstored & _)
  end.
  - right. reflexivity.
  - rewrite Hstored. reflexivity.
Defined.

Lemma MasterComponent_keeps_its_disk_path_witness :
  ∃ this,
    MasterComponent_new (instance_ops := sample_instance_ops) 1 (sample_master_config "/a")
    = Returns this
    ∧ mcc_disk_path
        (config_ (reconfigured this [sample_master_config "/b"; sample_master_config "/a"]))
      = "/a".
Proof.
  eexists. split; [reflexivity|].
  match goal with
  | |- context [reconfigured ?this ?configs] =>
      destruct (MasterComponent_keeps_its_disk_path
                  (instance_ops := sample_instance_ops)
                  1 (sample_master_config "/a") this configs eq_refl)
        as (_ & _ & _ & Hpath & _)
  end.
  exact Hpath.
Defined.

(** ** ExportModel *)

Lemma chunk_groups_shape tpc : forall todo pending,
  todo ≠ [] ->
  pending = [] ∨ Z.of_nat (length pending) < tpc ->
  ∃ full last,
    chunk_groups tpc pending todo = full ++ [last]
    ∧ Forall (fun group => Z.of_nat (length group) = Z.max 1 tpc) full
    ∧ 1 <= Z.of_nat (length last) <= Z.max 1 tpc.
Proof.
  induction todo as [|token todo IH]; intros pending Hne Hpending; [done|].
  assert (Hlen : Z.of_nat (length (pending ++ [token])) = Z.of_nat (length pending) + 1).
  { rewrite length_app. cbn. lia. }
  assert (Hnil : pending = [] -> Z.of_nat (length pending) = 0) by (by intros ->).
  cbn [chunk_groups].
  destruct todo as [|token' todo].
  - cbn. exists [], (pending ++ [token]). split; [done|]. split; [constructor|].
    destruct Hpending as [Hp|Hp]; [apply Hnil in Hp|]; lia.
  - cbn [orb].
    destruct (Z.leb_spec tpc (Z.of_nat (length (pending ++ [token])))) as [Hflush|Hkeep].
    + destruct (IH [] ltac:(done) ltac:(by left)) as (full & last & Hgroups & Hfull & Hlast).
      exists ((pending ++ [token]) :: full), last. rewrite Hgroups.
      split; [done|]. split; [|done]. constructor; [|done].
      destruct Hpending as [Hp|Hp]; [apply Hnil in Hp|]; lia.
    + apply IH; [done|]. right. lia.
Qed.

Section ExportFurther.

Context {codec : Codec}.

Lemma export_loop_frame file n_wt tpc : forall todo a w,
  let result := export_loop file n_wt tpc a todo w in
  result.1 = Returns tt
  ∧ topic_model_ result.2 = topic_model_ w
  ∧ phi_matrix_ result.2 = phi_matrix_ w
  ∧ journal result.2 = journal w
  ∧ forall name, name ≠ file -> disk result.2 !! name = disk w !! name.
Proof.
  induction todo as [|token todo IH]; intros a w; [done|].
  cbn [export_loop].
  destruct (match todo with [] => true | _ => false end || _).
  - unfold mbind, M_bind, ofstream_write.
    match goal with
    | |- context [export_loop _ _ _ ?a1 _ ?w1] =>
        destruct (IH a1 w1) as (Hr & Htm & Hphi & Hj & Hdisk)
    end.
    cbv zeta in *. split; [done|]. split; [done|]. split; [done|]. split; [done|].
    intros name Hname. rewrite (Hdisk name Hname). cbn [disk].
    by rewrite !lookup_insert_ne.
  - apply IH.
Qed.

(** An export to a file that exists throws disk-write, and one whose file
    cannot be created throws disk-read; in both cases the state, the file
    included, is as before the call and no model was looked up. *)
Theorem ExportModel_refuses_before_writing (args : ExportModelArgs) (w : World) :
  (is_Some (disk w !! em_file_name args) ->
     ExportModel args w
     = (Throws (DiskWriteException ("File already exists: " +:+ em_file_name args)), w))
  ∧ (disk w !! em_file_name args = None ->
     can_create (em_file_name args) = false ->
     ExportModel args w
     = (Throws (DiskReadException ("Unable to create file " +:+ em_file_name args)), w)).
Proof.
  unfold ExportModel, ExportModel_with, mbind, M_bind, file_exists, ofstream_open.
  split.
  - intros Hexists. by rewrite bool_decide_eq_true_2.
  - intros Hnew Hcreate. rewrite Hnew, Hcreate.
    by rewrite bool_decide_eq_false_2 by (intros [? ?]; done).
Qed.

Lemma ExportModel_failure_state args w :
  disk w !! em_file_name args = None ->
  can_create (em_file_name args) = true ->
  pwt_source w (em_model_name args) = None
  ∨ (∃ n_wt, pwt_source w (em_model_name args) = Some n_wt ∧ rows n_wt = []) ->
  is_invalid_operation (ExportModel args w).1 = true
  ∧ disk (ExportModel args w).2 = <[em_file_name args := []]> (disk w)
  ∧ phi_matrix_ (ExportModel args w).2 = phi_matrix_ w.
Proof.
  intros Hnew Hcreate Hmodel.
  unfold ExportModel, ExportModel_with, mbind, M_bind, file_exists, ofstream_open.
  rewrite Hnew, Hcreate.
  rewrite bool_decide_eq_false_2 by (intros [? ?]; done). cbn [negb].
  unfold GetLatestTopicModel, GetPhiMatrix. cbn [topic_model_ phi_matrix_ record].
  unfold pwt_source in Hmodel.
  destruct Hmodel as [Hmissing|(n_wt & Hfound & Hrows)].
  - destruct (topic_model_ w !! em_model_name args) as [tm|]; [done|].
    by rewrite Hmissing.
  - assert (Hsize : (token_size n_wt =? 0) = true).
    { unfold token_size. by rewrite Hrows. }
    destruct (topic_model_ w !! em_model_name args) as [tm|];
      [injection Hfound as <- | rewrite Hfound]; by rewrite Hsize.
Qed.

(** An export that fails after its file was opened, because the model
    does not exist or has no tokens, throws invalid-operation and leaves
    the file behind, empty.  Every later export to that file name, of
    whatever model, then throws disk-write. *)
Theorem ExportModel_failure_leaves_an_empty_file (args : ExportModelArgs) (w : World) :
  disk w !! em_file_name args = None ->
  can_create (em_file_name args) = true ->
  pwt_source w (em_model_name args) = None
  ∨ (∃ n_wt, pwt_source w (em_model_name args) = Some n_wt ∧ rows n_wt = []) ->
  let result := ExportModel args w in
  is_invalid_operation result.1 = true
  ∧ disk result.2 = <[em_file_name args := []]> (disk w)
  ∧ phi_matrix_ result.2 = phi_matrix_ w
  ∧ forall again,
      em_file_name again = em_file_name args ->
      ExportModel again result.2
      = (Throws (DiskWriteException ("File already exists: " +:+ em_file_name again)),
         result.2).
Proof.
  intros Hnew Hcreate Hmodel result.
  destruct (ExportModel_failure_state args w Hnew Hcreate Hmodel)
    as (Hthrows & Hdisk & Hphi).
  split; [done|]. split; [done|]. split; [done|].
  intros again Hfile.
  unfold ExportModel, ExportModel_with, mbind, M_bind, file_exists.
  rewrite bool_decide_eq_true_2; [done|].
  fold (ExportModel args w). fold result.
  subst result. rewrite Hdisk, Hfile, lookup_insert_eq. eauto.
Qed.

(** The file a failed export leaves behind cannot be imported: it holds
    no version byte, so the import reads the variable [version]
    uninitialised (the extraction of line 148 stores nothing and line 149
    compares it), and the behaviour is undefined. *)
Theorem ImportModel_after_a_failed_export
    (export : ExportModelArgs) (import : ImportModelArgs) (w : World) :
  disk w !! em_file_name export = None ->
  can_create (em_file_name export) = true ->
  pwt_source w (em_model_name export) = None
  ∨ (∃ n_wt, pwt_source w (em_model_name export) = Some n_wt ∧ rows n_wt = []) ->
  im_file_name import = em_file_name export ->
  is_invalid_operation (ExportModel export w).1 = true
  ∧ ImportModel import (ExportModel export w).2
    = (Undefined "version is read uninitialised", (ExportModel export w).2).
Proof.
  intros Hnew Hcreate Hmodel Hfile.
  destruct (ExportModel_failure_state export w Hnew Hcreate Hmodel)
    as (Hthrows & Hdisk & _).
  split; [done|].
  unfold ImportModel. by rewrite Hdisk, Hfile, lookup_insert_eq.
Qed.

(** A model with tokens and no topic makes the export divide by zero at
    line 108, after the file was created: the behaviour is undefined. *)
Theorem ExportModel_without_topics_divides_by_zero
    (args : ExportModelArgs) (w : World) (n_wt : PhiMatrix) :
  disk w !! em_file_name args = None ->
  can_create (em_file_name args) = true ->
  pwt_source w (em_model_name args) = Some n_wt ->
  rows n_wt ≠ [] ->
  topic_name n_wt = [] ->
  (ExportModel args w).1 = Undefined "integer division by zero"
  ∧ disk (ExportModel args w).2 = <[em_file_name args := []]> (disk w).
Proof.
  intros Hnew Hcreate Hsource Hrows Htopics.
  unfold ExportModel, ExportModel_with, mbind, M_bind, file_exists, ofstream_open.
  rewrite Hnew, Hcreate.
  rewrite bool_decide_eq_false_2 by (intros [? ?]; done). cbn [negb].
  unfold GetLatestTopicModel, GetPhiMatrix. cbn [topic_model_ phi_matrix_ record].
  unfold pwt_source in Hsource.
  assert (Hsize : (token_size n_wt =? 0) = false).
  { apply Z.eqb_neq. unfold token_size. destruct (rows n_wt); [done|].
    simpl length. lia. }
  assert (Htsize : (topic_size n_wt =? 0) = true).
  { unfold topic_size. by rewrite Htopics. }
  destruct (topic_model_ w !! em_model_name args) as [tm|];
    [injection Hsource as <- | rewrite Hsource]; by rewrite Hsize, Htsize.
Qed.

(** A successful export writes the version byte 0 and then one framed
    chunk per group of tokens.  The groups are consecutive runs of the
    token list of the model, in order; every group but the last holds
    exactly [tokens_per_chunk] tokens (one when that number is below
    one), the last between one and as many.  For a versioned model the
    matrix exported is the one of its probabilities.  The models are not
    changed. *)
Theorem ExportModel_writes_the_chunks_in_order
    (args : ExportModelArgs) (w : World) (n_wt : PhiMatrix) :
  disk w !! em_file_name args = None ->
  can_create (em_file_name args) = true ->
  pwt_source w (em_model_name args) = Some n_wt ->
  rows n_wt ≠ [] ->
  topic_name n_wt ≠ [] ->
  let per_chunk := Z.max 1 (tokens_per_chunk (100 * 1024 * 1024) n_wt) in
  ∃ w' full last,
    ExportModel args w = (Returns tt, w')
    ∧ topic_model_ w' = topic_model_ w
    ∧ phi_matrix_ w' = phi_matrix_ w
    ∧ disk w' !! em_file_name args
      = Some (x00 :: concat (frame <$> (SerializeAsString <$>
                ((fun group => RetrieveExternalTopicModel n_wt
                                 (chunk_args (em_model_name args) group))
                   <$> (full ++ [last])))))
    ∧ concat (full ++ [last]) = tokens n_wt
    ∧ Forall (fun group => Z.of_nat (length group) = per_chunk) full
    ∧ 1 <= Z.of_nat (length last) <= per_chunk.
Proof.
  intros Hnew Hcreate Hsource Hrows Htopics per_chunk.
  destruct (ExportModel_with_eq (100 * 1024 * 1024) args w n_wt
              Hnew Hcreate Hsource Hrows Htopics)
    as (w' & Hexport & Htm & Hphi & Hdisk).
  assert (Htokens : tokens n_wt ≠ []).
  { unfold tokens. destruct (rows n_wt); [done|]. discriminate. }
  destruct (chunk_groups_shape (tokens_per_chunk (100 * 1024 * 1024) n_wt)
              (tokens n_wt) [] Htokens ltac:(by left))
    as (full & last & Hgroups & Hfull & Hlast).
  exists w', full, last.
  split; [exact Hexport|]. split; [done|]. split; [done|].
  unfold export_messages in Hdisk. rewrite Hgroups in Hdisk.
  split; [exact Hdisk|]. split; [|done].
  rewrite <- Hgroups.
  by destruct (concat_chunk_groups (tokens_per_chunk (100 * 1024 * 1024) n_wt)
                 (tokens n_wt) [] Htokens) as [-> _].
Qed.

(** However it ends, an export changes no model and no file other than
    the one it names, and never changes a file that existed before the
    call. *)
Theorem ExportModel_touches_only_its_file (args : ExportModelArgs) (w : World) :
  let w' := (ExportModel args w).2 in
  topic_model_ w' = topic_model_ w
  ∧ phi_matrix_ w' = phi_matrix_ w
  ∧ (forall name, name ≠ em_file_name args -> disk w' !! name = disk w !! name)
  ∧ (is_Some (disk w !! em_file_name args) -> disk w' = disk w).
Proof.
  unfold ExportModel, ExportModel_with, mbind, M_bind, file_exists, ofstream_open.
  destruct (disk w !! em_file_name args) as [content|] eqn:Hfile.
  { rewrite bool_decide_eq_true_2 by eauto. done. }
  rewrite bool_decide_eq_false_2 by (intros [? ?]; done).
  destruct (can_create (em_file_name args)); cbn [negb]; [|by split_and!; [..|intros [? ?]]].
  unfold GetLatestTopicModel, GetPhiMatrix. cbn [topic_model_ phi_matrix_ record].
  assert (Hopened : forall name, name ≠ em_file_name args ->
            <[em_file_name args := []]> (disk w) !! name = disk w !! name).
  { intros name Hname. by rewrite lookup_insert_ne. }
  assert (Hnone : is_Some (None : option (list byte)) -> False) by (by intros [? ?]).
  destruct (topic_model_ w !! em_model_name args) as [tm|];
    [|destruct (phi_matrix_ w !! em_model_name args) as [pm|]];
    try (match goal with
         | |- context [token_size ?n_wt =? 0] =>
             destruct (token_size n_wt =? 0);
             [|destruct (topic_size n_wt =? 0)]
         end);
    try (cbn; split_and!; [done|done|exact Hopened|by intros Hsome; destruct (Hnone Hsome)]).
  all: unfold ofstream_write;
    match goal with
    | |- context [export_loop ?f ?n ?tpc ?a ?todo ?w3] =>
        destruct (export_loop_frame f n tpc todo a w3) as (_ & Htm' & Hphi' & _ & Hdisk')
    end;
    cbv zeta in *; split; [by rewrite Htm'|]; split; [by rewrite Hphi'|];
    (split; [|by intros Hsome; destruct (Hnone Hsome)]);
    intros name Hname; rewrite (Hdisk' name Hname); cbn [disk];
    rewrite lookup_insert_ne by done; by apply Hopened.
Qed.

End ExportFurther.

Lemma ExportModel_refuses_before_writing_witness :
  ExportModel (codec := sample_codec) export_args (world_with_file [x00])
  = (Throws (DiskWriteException "File already exists: model.bin"), world_with_file [x00]).
Proof.
  apply (ExportModel_refuses_before_writing (codec := sample_codec)
           export_args (world_with_file [x00])).
  eexists. reflexivity.
Defined.

Lemma ExportModel_failure_leaves_an_empty_file_witness :
  disk (ExportModel (codec := sample_codec) export_empty_args empty_matrix_world).2
  = {[ "model.bin" := [] ]}.
Proof.
  destruct (ExportModel_failure_leaves_an_empty_file (codec := sample_codec)
              export_empty_args empty_matrix_world) as (_ & Hdisk & _).
  - reflexivity.
  - reflexivity.
  - right. eexists. split; reflexivity.
  - rewrite Hdisk. reflexivity.
Defined.

Lemma ImportModel_after_a_failed_export_witness :
  ImportModel (codec := sample_codec) import_args
    (ExportModel (codec := sample_codec) export_empty_args empty_matrix_world).2
  = (Undefined "version is read uninitialised",
     (ExportModel (codec := sample_codec) export_empty_args empty_matrix_world).2).
Proof.
  apply (ImportModel_after_a_failed_export (codec := sample_codec)
           export_empty_args import_args empty_matrix_world); try reflexivity.
  right. eexists. split; reflexivity.
Defined.

Lemma ExportModel_writes_the_chunks_in_order_witness :
  ∃ w', ExportModel (codec := sample_codec) export_args raw_world = (Returns tt, w').
Proof.
  destruct (ExportModel_writes_the_chunks_in_order (codec := sample_codec)
              export_args raw_world sample_matrix)
    as (w' & full & last & Hexport & _); try reflexivity; try discriminate.
  exists w'. exact Hexport.
Defined.

Lemma ExportModel_without_topics_divides_by_zero_witness :
  (ExportModel (codec := sample_codec) export_empty_args topicless_world).1
  = Undefined "integer division by zero".
Proof.
  apply (ExportModel_without_topics_divides_by_zero (codec := sample_codec)
           export_empty_args topicless_world
           {| model_name := "E"; topic_name := []; rows := [(mkToken "c" "a", [])] |});
    try reflexivity.
  discriminate.
Defined.

(** ** ImportModel *)

Lemma increase_model_name token_id topic_id v m :
  model_name (increase token_id topic_id v m) = model_name m.
Proof. reflexivity. Qed.

Lemma apply_row_model_name w m r : model_name (apply_row w m r) = model_name m.
Proof.
  unfold apply_row. destruct (token_index (AddToken r.1 m) r.1) as [id|].
  - apply (foldl_invariant (fun acc => model_name acc = model_name m)).
    + intros a b Ha. by rewrite increase_model_name.
    + apply AddToken_model_name.
  - apply AddToken_model_name.
Qed.

Lemma ApplyTopicModelOperation_model_name tm w m :
  model_name (ApplyTopicModelOperation tm w m) = model_name m.
Proof.
  unfold ApplyTopicModelOperation.
  apply (foldl_invariant (fun acc => model_name acc = model_name m)); [|done].
  intros a b Ha. by rewrite apply_row_model_name.
Qed.

Lemma import_message_names args target msg :
  model_name (import_message args target msg)
  = match target with Some t => model_name t | None => im_model_name args end
  ∧ topic_name (import_message args target msg)
    = match target with Some t => topic_name t | None => tm_topic_name msg end.
Proof.
  unfold import_message.
  rewrite ApplyTopicModelOperation_model_name, ApplyTopicModelOperation_topic_name.
  by destruct target.
Qed.

Section ImportFurther.

Context {codec : Codec}.

Lemma import_turn_continues args fin target fin1 target1 :
  import_turn args fin target = Loop_continues fin1 target1 ->
  ∃ msg, target1 = import_message args target msg.
Proof.
  unfold import_turn.
  destruct (extract_int fin) as [length fin0].
  destruct (eofbit fin0); [done|].
  destruct length as [length|]; [|done].
  destruct (length <=? 0); [done|].
  destruct (read_buffer (Z.to_nat length) fin0) as [buffer fin2].
  destruct (ParseFromArray buffer) as [msg|]; [|done].
  intros [= <- <-]. exists msg. unfold import_message. by destruct target.
Qed.

Lemma import_loop_keeps_target args : forall turns fin t result,
  import_loop turns args fin (Some t) = Some (Returns result) ->
  ∃ r, result = Some r
       ∧ model_name r = model_name t
       ∧ topic_name r = topic_name t.
Proof.
  induction turns as [|turns IH]; intros fin t result; [done|].
  cbn [import_loop]. destruct (eofbit fin).
  { intros [= <-]. eauto. }
  destruct (import_turn args fin (Some t)) as [| e | why | fin1 t1] eqn:Hturn;
    try done.
  { intros [= <-]. eauto. }
  intros Hloop. apply IH in Hloop as (r & -> & Hname & Htopics).
  apply import_turn_continues in Hturn as [msg ->].
  destruct (import_message_names args (Some t) msg) as [Hn Ht].
  exists r. split; [done|]. split; congruence.
Qed.

(** An import publishes all or nothing.  When it does not return (the
    file is missing, its version byte is not 0, or a chunk cannot be
    read) the state is as before the call, even if chunks were read
    before the failure.  When it returns, the one change is the matrix
    stored under the model name of the call, which replaces whatever raw
    matrix had that name and carries the name of the call, not a name
    from the file.  The files and the versioned models are never
    touched. *)
Theorem ImportModel_publishes_all_or_nothing (args : ImportModelArgs) (w : World) :
  let result := ImportModel args w in
  disk result.2 = disk w
  ∧ topic_model_ result.2 = topic_model_ w
  ∧ (returns result.1 = false -> result.2 = w)
  ∧ (returns result.1 = true ->
       ∃ target,
         result.2 = (SetPhiMatrix (im_model_name args) target w).2
         ∧ phi_matrix_ result.2 = <[im_model_name args := target]> (phi_matrix_ w)
         ∧ model_name target = im_model_name args)
  ∧ (disk w !! im_file_name args = None ->
       result.1
       = Throws (DiskReadException ("Unable to open file " +:+ im_file_name args))).
Proof.
  unfold ImportModel.
  destruct (disk w !! im_file_name args) as [content|]; [|by split_and!].
  destruct (extract_char (ifstream_open content)) as [[version|] fin]; [|by split_and!].
  destruct (negb (signed_char version =? 0)); [by split_and!|].
  destruct (import_loop (length content + 2) args fin None)
    as [[[target|] | e | why]|] eqn:Hloop; try (by split_and!).
  cbn. split_and!; try done. intros _. exists target. split_and!; try done.
  replace (length content + 2)%nat with (S (length content + 1)) in Hloop by lia.
  cbn [import_loop] in Hloop. destruct (eofbit fin); [done|].
  destruct (import_turn args fin None) as [| e | why | fin1 t1] eqn:Hturn; try done.
  apply import_loop_keeps_target in Hloop as (r & [= <-] & Hname & _).
  apply import_turn_continues in Hturn as [msg ->].
  rewrite Hname. apply (import_message_names args None msg).
Qed.

(** The matrix an import publishes has the topic names of the first chunk
    of the file; the topic names of later chunks are not looked at. *)
Theorem ImportModel_takes_its_topics_from_the_first_chunk
    (args : ImportModelArgs) (w : World) (content rest : list byte)
    (n : Z) (fin : ifstream) (msg : TopicModelMsg) :
  disk w !! im_file_name args = Some content ->
  skip_whitespace content = x00 :: rest ->
  extract_int (ifstream_open rest) = (Some n, fin) ->
  eofbit fin = false ->
  0 < n ->
  ParseFromArray (read_buffer (Z.to_nat n) fin).1 = Some msg ->
  returns (ImportModel args w).1 = true ->
  ∃ target,
    phi_matrix_ (ImportModel args w).2 !! im_model_name args = Some target
    ∧ topic_name target = tm_topic_name msg.
Proof.
  intros Hfile Hcontent Hlength Heof Hn Hparse.
  rewrite (ImportModel_eq args w content x00 rest Hfile Hcontent).
  cbn [signed_char negb]. change (negb (signed_char x00 =? 0)) with false. cbv iota.
  assert (Hturn : import_turn args (ifstream_open rest) None
                  = Loop_continues (read_buffer (Z.to_nat n) fin).2
                      (import_message args None msg)).
  { unfold import_turn. rewrite Hlength, Heof.
    destruct (Z.leb_spec n 0) as [?|_]; [lia|].
    destruct (read_buffer (Z.to_nat n) fin) as [buffer fin2]. cbn in Hparse.
    by rewrite Hparse. }
  replace (length content + 2)%nat with (S (length content + 1)) by lia.
  cbn [import_loop ifstream_open eofbit].
  change (import_turn args {| rdbuf := rest; eofbit := false; failbit := false |} None)
    with (import_turn args (ifstream_open rest) None).
  rewrite Hturn.
  destruct (import_loop (length content + 1) args _ (Some (import_message args None msg)))
    as [[result | e | why]|] eqn:Hloop; try done.
  apply import_loop_keeps_target in Hloop as (r & -> & _ & Htopics).
  intros _. exists r. cbn. rewrite lookup_insert_eq. split; [done|].
  rewrite Htopics. apply (import_message_names args None msg).
Qed.

End ImportFurther.

Lemma ImportModel_takes_its_topics_from_the_first_chunk_witness :
  ∃ target,
    phi_matrix_
      (ImportModel (codec := sample_codec) import_args
         (world_with_file ([x00] ++ [x33; x0a; x61; x62]))).2 !! "M3"
    = Some target
    ∧ topic_name target = ["t0"; "t1"].
Proof.
  destruct (ImportModel_takes_its_topics_from_the_first_chunk (codec := sample_codec)
              import_args (world_with_file ([x00] ++ [x33; x0a; x61; x62]))
              ([x00] ++ [x33; x0a; x61; x62]) [x33; x0a; x61; x62] 3
              (ifstream_open [x0a; x61; x62])
              (RetrieveExternalTopicModel sample_matrix
                 (chunk_args "M" (tokens sample_matrix))))
    as (target & Hphi & Htopics); try reflexivity.
  exists target. split; [exact Hphi | exact Htopics].
Defined.

(** ** RequestProcessBatches *)

Section DispatchFurther.

Context {collaborators : Collaborators}.

Variable args : ProcessBatchesArgs.

Lemma dispatch_journal_eq l i :
  (i <= length (pb_batch_filename args))%nat ->
  dispatch_journal args l i
  = concat (imap (fun k batch_filename =>
                    [BatchManager_Add (random_generator k);
                     ProcessorQueue_push
                       (work_item args l (random_generator k) batch_filename)])
                 (take i (pb_batch_filename args))).
Proof.
  induction i as [|i IH]; intros Hi; [done|].
  cbn [dispatch_journal]. rewrite IH by lia.
  destruct (lookup_lt_is_Some_2 (pb_batch_filename args) i ltac:(lia)) as [f Hf].
  rewrite Hf. rewrite (take_S_r _ _ _ Hf), imap_app, concat_app.
  cbn [imap concat app]. rewrite length_take, Nat.min_l by lia.
  by rewrite Nat.add_0_r.
Qed.

Lemma prepare_accepted w p_wt model_config :
  pwt_source w (pb_pwt_source_name args) = Some p_wt ->
  pb_nwt_target_name args ≠ Some (pb_pwt_source_name args) ->
  FixAndValidate (with_topics p_wt (initial_model_config args)) = Returns model_config ->
  journal (prepare args w).2
  = journal w ++ source_lookups args
    ++ match pb_nwt_target_name args with
       | Some nwt_target_name =>
           [Merger_SetPhiMatrix nwt_target_name (fresh_target nwt_target_name p_wt)]
       | None => []
       end
    ++ (if pb_reset_scores args
        then [ScoresMerger_ResetScores (pb_pwt_source_name args)] else []).
Proof.
  intros Hsrc Htarget Hvalid. rewrite prepare_eq, Hsrc. unfold after_publication.
  destruct (pb_nwt_target_name args) as [t|].
  - rewrite bool_decide_eq_false_2 by congruence. rewrite Hvalid.
    destruct (pb_reset_scores args);
      unfold SetPhiMatrix, record, journal_add; cbn [fst snd journal];
      by rewrite <- ?app_assoc.
  - rewrite Hvalid.
    destruct (pb_reset_scores args);
      unfold record, journal_add; cbn [fst snd journal];
      by rewrite <- ?app_assoc, ?app_nil_r.
Qed.

(** The calls a request makes, in order, once its dispatch loop is over,
    under every interleaving with the workers: the two lookups of the
    source, the publication of the target when one is named, the reset
    of the scores when asked for, and then for each batch, in the order
    of the batch list, the registration of its identifier followed by
    the push of its work item.  Every identifier is registered before
    the item carrying it can reach a worker. *)
Theorem RequestProcessBatches_calls_in_order
    (w : World) (p_wt : PhiMatrix) (model_config : ModelConfig)
    (schedule : list turn) :
  pwt_source w (pb_pwt_source_name args) = Some p_wt ->
  pb_nwt_target_name args ≠ Some (pb_pwt_source_name args) ->
  FixAndValidate (with_topics p_wt (initial_model_config args)) = Returns model_config ->
  has_dispatched (cs_pc (run args schedule w)) = true ->
  journal (cs_world (run args schedule w))
  = journal w ++ source_lookups args
    ++ match pb_nwt_target_name args with
       | Some nwt_target_name =>
           [Merger_SetPhiMatrix nwt_target_name (fresh_target nwt_target_name p_wt)]
       | None => []
       end
    ++ (if pb_reset_scores args
        then [ScoresMerger_ResetScores (pb_pwt_source_name args)] else [])
    ++ concat (imap (fun k batch_filename =>
                       [BatchManager_Add (random_generator k);
                        ProcessorQueue_push
                          (work_item args (locals_of args model_config)
                             (random_generator k) batch_filename)])
                    (pb_batch_filename args)).
Proof.
  intros Hsrc Htarget Hvalid Hpc.
  pose proof (prepare_returns args w p_wt model_config Hsrc Htarget Hvalid) as Hl.
  pose proof (invariant_run args w schedule) as Hinv.
  unfold invariant in Hinv.
  set (s := run args schedule w) in *.
  assert (Hw : cs_world s
               = journal_add
                   (dispatch_journal args (locals_of args model_config)
                      (length (pb_batch_filename args)))
                   (prepare args w).2).
  { destruct (cs_pc s) as [|l' i|l'|r|e|why]; try done.
    - destruct Hinv as (Hl' & Hw & _).
      by assert (l' = locals_of args model_config) as -> by congruence.
    - destruct Hinv as (l' & Hl' & _ & Hw & _).
      by assert (l' = locals_of args model_config) as -> by congruence. }
  rewrite Hw. cbn [journal journal_add].
  rewrite (prepare_accepted w p_wt model_config Hsrc Htarget Hvalid).
  rewrite dispatch_journal_eq by done. rewrite firstn_all.
  by rewrite <- !app_assoc.
Qed.

Lemma caller_step_acknowledged s :
  cs_acknowledged (caller_step args s) = cs_acknowledged s.
Proof.
  unfold caller_step. destruct (cs_pc s) as [|l i|l|r|e|why]; try done.
  - by destruct (prepare args (cs_world s)).
  - by destruct (pb_batch_filename args !! i).
  - by destruct (IsEverythingProcessed (cs_batch_manager s)).
Qed.

(** A request without batches needs no worker: three steps of the caller
    (preparation, the empty dispatch loop, one poll) make it return, with
    the scores read back, nothing registered and nothing enqueued. *)
Theorem RequestProcessBatches_without_batches
    (w : World) (p_wt : PhiMatrix) (model_config : ModelConfig) :
  pb_batch_filename args = [] ->
  pwt_source w (pb_pwt_source_name args) = Some p_wt ->
  pb_nwt_target_name args ≠ Some (pb_pwt_source_name args) ->
  FixAndValidate (with_topics p_wt (initial_model_config args)) = Returns model_config ->
  let s := run args [Caller_runs; Caller_runs; Caller_runs] w in
  cs_pc s = Returned (collect args (locals_of args model_config))
  ∧ registered (journal (cs_world s)) = registered (journal w)
  ∧ enqueued (journal (cs_world s)) = enqueued (journal w)
  ∧ cs_acknowledged s = [].
Proof.
  intros Hempty Hsrc Htarget Hvalid s.
  pose proof (prepare_returns args w p_wt model_config Hsrc Htarget Hvalid) as Hl.
  assert (Hschedule : fair_schedule args = [Caller_runs; Caller_runs; Caller_runs]).
  { unfold fair_schedule, identifiers. by rewrite Hempty. }
  pose proof (RequestProcessBatches_returns args w _ Hl) as Hreturned.
  rewrite Hschedule in Hreturned. fold s in Hreturned.
  split; [done|].
  assert (Hpc : has_dispatched (cs_pc s) = true) by (by rewrite Hreturned).
  destruct (dispatched_state args w _ [Caller_runs; Caller_runs; Caller_runs] Hl Hpc)
    as [Hreg Henq].
  fold s in Hreg, Henq. rewrite Hreg, Henq. unfold identifiers. rewrite Hempty.
  cbn. rewrite !app_nil_r. split; [done|]. split; [done|].
  change (cs_acknowledged
            (caller_step args (caller_step args (caller_step args (enter w)))) = []).
  by rewrite !caller_step_acknowledged.
Qed.

(** When the derived configuration does not validate, the request fails
    with the exception of the validation under every interleaving:
    nothing is registered, nothing is enqueued and the scores are not
    reset.  The target matrix, when one is named, has been published all
    the same, zero-shaped after the source. *)
Theorem RequestProcessBatches_invalid_configuration
    (w : World) (p_wt : PhiMatrix) (e : exception) (schedule : list turn) :
  pwt_source w (pb_pwt_source_name args) = Some p_wt ->
  pb_nwt_target_name args ≠ Some (pb_pwt_source_name args) ->
  FixAndValidate (with_topics p_wt (initial_model_config args)) = Throws e ->
  Caller_runs ∈ schedule ->
  let s := run args schedule w in
  cs_pc s = Failed e
  ∧ journal (cs_world s)
    = journal w ++ source_lookups args
      ++ match pb_nwt_target_name args with
         | Some nwt_target_name =>
             [Merger_SetPhiMatrix nwt_target_name (fresh_target nwt_target_name p_wt)]
         | None => []
         end
  ∧ phi_matrix_ (cs_world s)
    = match pb_nwt_target_name args with
      | Some nwt_target_name =>
          <[nwt_target_name := fresh_target nwt_target_name p_wt]> (phi_matrix_ w)
      | None => phi_matrix_ w
      end.
Proof.
  intros Hsrc Htarget Hvalid Hruns s.
  assert (Hprepare : (prepare args w).1 = Throws e
            ∧ journal (prepare args w).2
              = journal w ++ source_lookups args
                ++ match pb_nwt_target_name args with
                   | Some nwt_target_name =>
                       [Merger_SetPhiMatrix nwt_target_name
                          (fresh_target nwt_target_name p_wt)]
                   | None => []
                   end
            ∧ phi_matrix_ (prepare args w).2
              = match pb_nwt_target_name args with
                | Some nwt_target_name =>
                    <[nwt_target_name := fresh_target nwt_target_name p_wt]> (phi_matrix_ w)
                | None => phi_matrix_ w
                end).
  { rewrite prepare_eq, Hsrc. unfold after_publication.
    destruct (pb_nwt_target_name args) as [t|].
    - rewrite bool_decide_eq_false_2 by congruence. rewrite Hvalid.
      unfold SetPhiMatrix, record, journal_add.
      cbn [fst snd journal phi_matrix_]. by rewrite <- ?app_assoc.
    - rewrite Hvalid. unfold journal_add. cbn [fst snd journal phi_matrix_].
      by rewrite app_nil_r. }
  destruct Hprepare as (Hthrows & Hjournal & Hphi).
  destruct (run_failed args w schedule e Hthrows Hruns) as [Hpc Hworld].
  fold s in Hpc, Hworld. by rewrite Hworld.
Qed.

(** Where the theta matrices of a request go.  For the types Dense and
    Sparse every work item carries the cache of the call itself and the
    result of a call that returned holds the theta matrix read from it,
    in sparse form exactly for Sparse.  For the type Cache the items
    carry the cache of the instance when the master configuration asks
    for caching and a null pointer otherwise, and for the type None a
    null pointer; in both cases the result holds no theta matrix.  The
    scores of the result are those the aggregator answers, in the order
    of the master configuration. *)
Theorem RequestProcessBatches_theta_destination
    (w : World) (p_wt : PhiMatrix) (model_config : ModelConfig)
    (schedule : list turn) (r : ProcessBatchesResult) :
  pwt_source w (pb_pwt_source_name args) = Some p_wt ->
  pb_nwt_target_name args ≠ Some (pb_pwt_source_name args) ->
  FixAndValidate (with_topics p_wt (initial_model_config args)) = Returns model_config ->
  cs_pc (run args schedule w) = Returned r ->
  let destination :=
    match pb_theta_matrix_type args with
    | ThetaMatrixType_Dense | ThetaMatrixType_Sparse => local_cache_manager
    | ThetaMatrixType_Cache =>
        if cache_theta then instance_cache_manager else null_cache_manager
    | ThetaMatrixType_None => null_cache_manager
    end in
  theta_matrix r
  = match pb_theta_matrix_type args with
    | ThetaMatrixType_Dense => Some (RequestThetaMatrix (pb_pwt_source_name args) false)
    | ThetaMatrixType_Sparse => Some (RequestThetaMatrix (pb_pwt_source_name args) true)
    | ThetaMatrixType_Cache | ThetaMatrixType_None => None
    end
  ∧ score_data r = omap (RequestScore (pb_pwt_source_name args)) score_config
  ∧ ∃ items,
      enqueued (journal (cs_world (run args schedule w))) = enqueued (journal w) ++ items
      ∧ length items = length (pb_batch_filename args)
      ∧ Forall (fun pi => pi_cache_manager pi = destination) items.
Proof.
  intros Hsrc Htarget Hvalid Hpc destination.
  pose proof (prepare_returns args w p_wt model_config Hsrc Htarget Hvalid) as Hl.
  pose proof (invariant_run args w schedule) as Hinv.
  unfold invariant in Hinv. rewrite Hpc in Hinv.
  destruct Hinv as (l & Hl' & -> & _).
  assert (l = locals_of args model_config) as -> by congruence.
  assert (Hdispatched : has_dispatched (cs_pc (run args schedule w)) = true)
    by (by rewrite Hpc).
  destruct (dispatched_state args w _ schedule Hl Hdispatched) as [_ Henq].
  split; [|split].
  - unfold collect, locals_of, theta_destination. cbn [l_return_theta].
    by destruct (pb_theta_matrix_type args).
  - reflexivity.
  - eexists. split; [exact Henq|]. split; [by rewrite length_imap|].
    apply Forall_forall. intros pi Hpi.
    apply list_elem_of_lookup in Hpi as [k Hk].
    rewrite list_lookup_imap in Hk.
    destruct (pb_batch_filename args !! k) as [f|]; [|done].
    injection Hk as <-. unfold work_item, locals_of, theta_destination, destination.
    cbn [pi_cache_manager l_cache_manager_ptr].
    by destruct (pb_theta_matrix_type args).
Qed.

End DispatchFurther.

Lemma RequestProcessBatches_calls_in_order_witness :
  journal (cs_world
    (run (collaborators := sample_collaborators)
       sample_request sample_schedule raw_world))
  = [Merger_GetLatestTopicModel "M"; Merger_GetPhiMatrix "M";
     Merger_SetPhiMatrix "T" (fresh_target "T" sample_matrix);
     ScoresMerger_ResetScores "M";
     BatchManager_Add 1000%N;
     ProcessorQueue_push (work_item sample_request sample_locals 1000%N "b0");
     BatchManager_Add 1001%N;
     ProcessorQueue_push (work_item sample_request sample_locals 1001%N "b1")].
Proof.
  rewrite (RequestProcessBatches_calls_in_order (collaborators := sample_collaborators)
             sample_request raw_world sample_matrix sample_validated sample_schedule);
    try reflexivity.
  discriminate.
Defined.

Lemma RequestProcessBatches_without_batches_witness :
  cs_pc (run (collaborators := sample_collaborators)
           idle_request [Caller_runs; Caller_runs; Caller_runs] raw_world)
  = Returned (collect idle_request
                (locals_of (collaborators := sample_collaborators) idle_request
                   (with_topics sample_matrix
                      (initial_model_config (collaborators := sample_collaborators)
                         idle_request)))).
Proof.
  apply (RequestProcessBatches_without_batches (collaborators := sample_collaborators)
           idle_request raw_world sample_matrix); try reflexivity.
  discriminate.
Defined.

Lemma RequestProcessBatches_theta_destination_witness :
  theta_matrix sample_result = Some false.
Proof.
  destruct (RequestProcessBatches_theta_destination (collaborators := sample_collaborators)
              sample_request raw_world sample_matrix sample_validated sample_schedule
              sample_result)
    as (Htheta & _).
  - reflexivity.
  - discriminate.
  - reflexivity.
  - vm_compute. reflexivity.
  - exact Htheta.
Defined.

Lemma RequestProcessBatches_invalid_configuration_witness :
  cs_pc (run (collaborators := strict_collaborators)
           (process_args (Some "T") ["b0"]) [Caller_runs; Caller_runs] raw_world)
  = Failed (InvalidOperation "invalid configuration")
  ∧ phi_matrix_ (cs_world
      (run (collaborators := strict_collaborators)
         (process_args (Some "T") ["b0"]) [Caller_runs; Caller_runs] raw_world))
    = <["T" := fresh_target "T" sample_matrix]> (phi_matrix_ raw_world).
Proof.
  destruct (RequestProcessBatches_invalid_configuration
              (collaborators := strict_collaborators)
              (process_args (Some "T") ["b0"]) raw_world sample_matrix
              (InvalidOperation "invalid configuration") [Caller_runs; Caller_runs])
    as (Hpc & _ & Hphi); try reflexivity.
  - discriminate.
  - apply list_elem_of_here.
  - split; [exact Hpc | exact Hphi].
Defined.

(** ** ImportModel: files cut short *)

Lemma scan_digits_all ds : forall acc,
  Forall (fun b => isdigit b = true) ds -> (scan_digits acc ds).2 = [].
Proof.
  induction ds as [|b ds IH]; intros acc Hds; [done|].
  inversion Hds as [|? ? Hb Hrest]; subst. cbn [scan_digits]. rewrite Hb. by apply IH.
Qed.

Lemma scan_int_all ds :
  Forall (fun b => isdigit b = true) ds -> (scan_int ds).2 = [].
Proof.
  intros Hds. unfold scan_int.
  destruct ds as [|b ds]; [done|].
  inversion Hds as [|? ? Hb Hrest]; subst.
  destruct (isdigit_not_sign b Hb) as [Hminus Hplus].
  cbn [strip_sign]. rewrite Hminus, Hplus.
  pose proof (scan_digits_all (b :: ds) 0 Hds) as Hscan.
  destruct (scan_digits 0 (b :: ds)) as [v rest]. cbn [snd] in Hscan. subst rest.
  rewrite Hb. cbn [negb].
  by destruct (INT_MAX <? v), (v <? INT_MIN).
Qed.

Section TruncationProperties.

Context {codec : Codec}.

Lemma import_turn_digits args tail target :
  Forall (fun b => isdigit b = true) tail ->
  import_turn args (ifstream_open tail) target = Loop_exits.
Proof.
  intros Htail. unfold import_turn, extract_int, sentry, ifstream_open.
  cbn [eofbit failbit rdbuf orb].
  destruct tail as [|b tail]; [done|].
  inversion Htail as [|? ? Hb Hrest]; subst.
  rewrite (skip_whitespace_no_space _ _ (isdigit_not_space b Hb)). cbn [rdbuf].
  pose proof (scan_int_all (b :: tail) Htail) as Hscan.
  destruct (scan_int (b :: tail)) as [[v failed] rest]. cbn [snd] in Hscan. by subst rest.
Qed.

Lemma reaches_frames args tail chunks msgs :
  Forall2 (fun chunk msg => framable chunk ∧ ParseFromArray chunk = Some msg)
          chunks msgs ->
  forall target,
  reaches args (ifstream_open (concat (frame <$> chunks) ++ tail)) target
    (ifstream_open tail) (import_messages args target msgs).
Proof.
  induction 1 as [|chunk msg chunks msgs [Hframable Hparse] _ IH]; intros target.
  - apply reaches_here.
  - cbn [fmap list_fmap concat]. rewrite <- app_assoc.
    eapply reaches_turn; [done | by apply import_turn_frame | apply IH].
Qed.

(** An import reads back the chunks a file frames, in order.  A run of
    decimal digits after the last chunk, such as the length token of a
    chunk that a truncation cut off, ends the loop without an error: the
    import returns and publishes the chunks read so far. *)
Theorem ImportModel_ignores_a_dangling_length_token
    (args : ImportModelArgs) (w : World)
    (chunks : list (list byte)) (msgs : list TopicModelMsg) (tail : list byte) :
  disk w !! im_file_name args = Some (x00 :: concat (frame <$> chunks) ++ tail) ->
  Forall2 (fun chunk msg => framable chunk ∧ ParseFromArray chunk = Some msg)
          chunks msgs ->
  msgs ≠ [] ->
  Forall (fun b => isdigit b = true) tail ->
  ∃ target,
    import_messages args None msgs = Some target
    ∧ ImportModel args w = SetPhiMatrix (im_model_name args) target w.
Proof.
  intros Hfile Hchunks Hmsgs Htail.
  assert (Htarget : ∃ target, import_messages args None msgs = Some target).
  { destruct msgs as [|msg msgs]; [done|]. unfold import_messages. cbn [foldl].
    clear. generalize (import_message args None msg).
    induction msgs as [|m msgs IH]; intros t; cbn [foldl]; eauto. }
  destruct Htarget as [target Htarget]. exists target. split; [done|].
  rewrite (ImportModel_eq args w _ x00 (concat (frame <$> chunks) ++ tail) Hfile eq_refl).
  change (negb (signed_char x00 =? 0)) with false. cbv iota.
  destruct (import_loop_reaches args _ _ _ _ (reaches_frames args tail chunks msgs Hchunks None)
              (length (x00 :: concat (frame <$> chunks) ++ tail) + 2)%nat)
    as (turns' & Hturns' & ->).
  { by apply (ImportModel_turns _ x00). }
  rewrite (import_loop_ends args _ _ turns' Hturns' eq_refl).
  by rewrite (import_turn_digits args tail _ Htail), Htarget.
Qed.

(** A file without a version byte, empty or holding only whitespace,
    makes the import read the variable [version] uninitialised: the
    extraction of line 148 stores nothing and line 149 compares it. *)
Theorem ImportModel_without_a_version_byte
    (args : ImportModelArgs) (w : World) (content : list byte) :
  disk w !! im_file_name args = Some content ->
  skip_whitespace content = [] ->
  ImportModel args w = (Undefined "version is read uninitialised", w).
Proof.
  intros Hfile Hempty. unfold ImportModel. rewrite Hfile.
  unfold extract_char, sentry, ifstream_open. cbn [eofbit failbit rdbuf orb].
  by rewrite Hempty.
Qed.

End TruncationProperties.

Lemma ImportModel_ignores_a_dangling_length_token_witness :
  ∃ target,
    ImportModel (codec := sample_codec) import_args
      (world_with_file ([x00] ++ [x33; x0a; x61; x62] ++ [x37]))
    = SetPhiMatrix "M3" target
        (world_with_file ([x00] ++ [x33; x0a; x61; x62] ++ [x37])).
Proof.
  destruct (ImportModel_ignores_a_dangling_length_token (codec := sample_codec)
              import_args (world_with_file ([x00] ++ [x33; x0a; x61; x62] ++ [x37]))
              [[x0a; x61; x62]]
              [RetrieveExternalTopicModel sample_matrix
                 (chunk_args "M" (tokens sample_matrix))]
              [x37])
    as (target & _ & Himport).
  - reflexivity.
  - constructor; [|constructor]. split; [|reflexivity].
    split; [reflexivity|]. unfold INT_MAX. cbn. lia.
  - discriminate.
  - constructor; [reflexivity | constructor].
  - exists target. exact Himport.
Defined.

Lemma ImportModel_without_a_version_byte_witness :
  ImportModel (codec := sample_codec) import_args (world_with_file [x20; x0a])
  = (Undefined "version is read uninitialised", world_with_file [x20; x0a]).
Proof.
  apply (ImportModel_without_a_version_byte (codec := sample_codec)
           import_args (world_with_file [x20; x0a]) [x20; x0a]); reflexivity.
Defined.

